(** * SecureSync: dependency graph builder and SBOM document engine

    A shallow embedding of [src/graph/builder.ts],
    [src/graph/visualizer.ts], [src/sbom/generator.ts], the tree builder
    of [src/scanner/npm.ts] and the exit rule of the [sbom] command, with
    the properties of the dependency graph, of its views and of the
    rendered CycloneDX / SPDX documents.

    Conventions of the embedding:
    - a JavaScript string is the list of its UTF-16 code units;
    - a JavaScript [Map] (and [Set]) is the list of its entries in
      insertion order, [set] on a present key replacing the value in place;
    - a function that can throw returns an [outcome];
    - [crypto.randomUUID()] and [new Date()] are inputs of the functions
      that call them;
    - a recursion that follows references (the object graph of a tree,
      the [children] links of a graph, the [dependencies] of a lockfile)
      takes the depth of the call stack as [fuel], and [None] is a stack
      that ran out. *)

From Stdlib Require Import String Ascii List NArith ZArith Arith Bool Lia
  Permutation.
Import ListNotations.

Set Implicit Arguments.

(* ===================================================================== *)
(** * JavaScript strings                                                  *)
(* ===================================================================== *)

(** A string value: its UTF-16 code units, each below [2^16]. *)
Definition jsstring : Type := list N.

(** An ASCII literal as a JavaScript string. *)
Definition js (s : string) : jsstring :=
  map N_of_ascii (list_ascii_of_string s).
Arguments js s%_string.

(** [a === b] on strings. *)
Fixpoint str_eqb (a b : jsstring) : bool :=
  match a, b with
  | [], [] => true
  | x :: a', y :: b' => N.eqb x y && str_eqb a' b'
  | _, _ => false
  end.

(** [Array.prototype.includes] on an array of strings. *)
Definition includes (l : list jsstring) (x : jsstring) : bool :=
  existsb (str_eqb x) l.

(** [s.startsWith(c)] for a one-unit pattern [c]. *)
Definition startsWith (s : jsstring) (c : N) : bool :=
  match s with
  | x :: _ => N.eqb x c
  | [] => false
  end.

(** [s.split(sep)] for a one-unit separator: the segments between the
    occurrences of [sep], at least one segment. *)
Fixpoint split_on (sep : N) (s : jsstring) : list jsstring :=
  match s with
  | [] => [[]]
  | c :: s' =>
      if N.eqb c sep then [] :: split_on sep s'
      else match split_on sep s' with
           | seg :: segs => (c :: seg) :: segs
           | [] => [[c]]
           end
  end.

(* ===================================================================== *)
(** * JavaScript maps and sets, in insertion order                        *)
(* ===================================================================== *)

Section JsMap.
Variable V : Type.

Definition JsMap : Type := list (jsstring * V).

Fixpoint map_get (m : JsMap) (k : jsstring) : option V :=
  match m with
  | [] => None
  | (k', v) :: m' => if str_eqb k' k then Some v else map_get m' k
  end.

Definition map_has (m : JsMap) (k : jsstring) : bool :=
  match map_get m k with
  | Some _ => true
  | None => false
  end.

(** [m.set(k, v)]: a present key keeps its position, a new one goes last. *)
Fixpoint map_set (m : JsMap) (k : jsstring) (v : V) : JsMap :=
  match m with
  | [] => [(k, v)]
  | (k', v') :: m' =>
      if str_eqb k' k then (k', v) :: m' else (k', v') :: map_set m' k v
  end.

Definition map_keys (m : JsMap) : list jsstring := map fst m.
Definition map_values (m : JsMap) : list V := map snd m.
End JsMap.

Arguments map_get {V} m k.
Arguments map_has {V} m k.
Arguments map_set {V} m k v.
Arguments map_keys {V} m.
Arguments map_values {V} m.

(** [s.add(x)] on a [Set<string>]. *)
Definition set_add (s : list jsstring) (x : jsstring) : list jsstring :=
  if includes s x then s else s ++ [x].

(* ===================================================================== *)
(** * Scanner types ([scanner/types.ts])                                  *)
(* ===================================================================== *)

#[local] Unset Elimination Schemes.
Inductive DependencyNode : Type :=
  mkDependencyNode {
    dn_name : jsstring;
    dn_version : jsstring;
    dn_resolved : jsstring;
    dn_dependencies : option (list (jsstring * DependencyNode))
  }.
#[local] Set Elimination Schemes.

Record PackageInfo : Type :=
  mkPackageInfo {
    pi_name : jsstring;
    pi_version : jsstring;
    pi_isDevDependency : bool;
    pi_isDirect : bool
  }.

Record DependencyTree : Type :=
  mkDependencyTree {
    dt_name : jsstring;
    dt_version : jsstring;
    dt_dependencies : list (jsstring * DependencyNode);
    dt_packages : list PackageInfo
  }.

(* ===================================================================== *)
(** * The graph builder ([graph/builder.ts])                              *)
(* ===================================================================== *)

Record GraphNode : Type :=
  mkGraphNode {
    gn_id : jsstring;
    gn_name : jsstring;
    gn_version : jsstring;
    gn_depth : nat;
    gn_parent : option jsstring;
    gn_children : list jsstring;
    gn_vulnerabilities : nat;
    gn_isDevDependency : bool
  }.

Record Edge : Type := mkEdge { from : jsstring; to : jsstring }.

Record DependencyGraph : Type :=
  mkDependencyGraph {
    nodes : JsMap GraphNode;
    edges : list Edge;
    roots : list jsstring
  }.

(** The template [`${name}@${version}`]. *)
Definition createKey (name version : jsstring) : jsstring :=
  name ++ js "@" ++ version.

(** Truthiness of a [string | undefined]: the empty string is falsy. *)
Definition truthy_str (p : option jsstring) : option jsstring :=
  match p with
  | Some (c :: s) => Some (c :: s)
  | _ => None
  end.

(** [parentNode.children.push(nodeId)] on the node object stored in the
    table. *)
Definition push_child (n : GraphNode) (c : jsstring) : GraphNode :=
  mkGraphNode (gn_id n) (gn_name n) (gn_version n) (gn_depth n)
    (gn_parent n) (gn_children n ++ [c]) (gn_vulnerabilities n)
    (gn_isDevDependency n).

(** The body of [buildNodeRecursive] before the loop over the children:
    create the node on first sight, then record the edge and the child. *)
Definition visit_node (dep : DependencyNode) (nodeId : jsstring) (depth : nat)
    (parent : option jsstring) (st : JsMap GraphNode * list Edge)
    (isDevDependency : bool) : JsMap GraphNode * list Edge :=
  let (nodes0, edges0) := st in
  let nodes1 :=
    if negb (map_has nodes0 nodeId) then
      map_set nodes0 nodeId
        (mkGraphNode nodeId (dn_name dep) (dn_version dep) depth parent []
           0 isDevDependency)
    else nodes0 in
  match truthy_str parent with
  | Some p =>
      let edges1 := edges0 ++ [mkEdge p nodeId] in
      match map_get nodes1 p with
      | Some parentNode =>
          if negb (includes (gn_children parentNode) nodeId) then
            (map_set nodes1 p (push_child parentNode nodeId), edges1)
          else (nodes1, edges1)
      | None => (nodes1, edges1)
      end
  | None => (nodes1, edges0)
  end.

(** [buildNodeRecursive]; the node table and the edge list, which the
    source mutates, are threaded through the calls. *)
Fixpoint buildNodeRecursive (dep : DependencyNode) (nodeId : jsstring)
    (depth : nat) (parent : option jsstring)
    (st : JsMap GraphNode * list Edge) (isDevDependency : bool)
    : JsMap GraphNode * list Edge :=
  let st1 := visit_node dep nodeId depth parent st isDevDependency in
  match dn_dependencies dep with
  | Some deps =>
      (fix children_loop (l : list (jsstring * DependencyNode))
           (s : JsMap GraphNode * list Edge) : JsMap GraphNode * list Edge :=
         match l with
         | [] => s
         | (childName, childDep) :: l' =>
             let childId := createKey childName (dn_version childDep) in
             children_loop l'
               (buildNodeRecursive childDep childId (depth + 1) (Some nodeId)
                  s isDevDependency)
         end) deps st1
  | None => st1
  end.

(** The loop over the children of a node, as a function of its own. *)
Fixpoint buildChildren (l : list (jsstring * DependencyNode))
    (nodeId : jsstring) (depth : nat) (st : JsMap GraphNode * list Edge)
    (isDevDependency : bool) : JsMap GraphNode * list Edge :=
  match l with
  | [] => st
  | (childName, childDep) :: l' =>
      buildChildren l' nodeId depth
        (buildNodeRecursive childDep
           (createKey childName (dn_version childDep)) (depth + 1)
           (Some nodeId) st isDevDependency)
        isDevDependency
  end.

(** The loop of [buildGraph] over the top-level mapping. *)
Fixpoint buildRoots (l : list (jsstring * DependencyNode))
    (g : DependencyGraph) : DependencyGraph :=
  match l with
  | [] => g
  | (name, dep) :: l' =>
      let nodeId := createKey name (dn_version dep) in
      let roots1 := roots g ++ [nodeId] in
      let (nodes1, edges1) :=
        buildNodeRecursive dep nodeId 0 None (nodes g, edges g) false in
      buildRoots l' (mkDependencyGraph nodes1 edges1 roots1)
  end.

Definition buildGraph (depTree : DependencyTree) : DependencyGraph :=
  buildRoots (dt_dependencies depTree) (mkDependencyGraph [] [] []).

(** [findPathsRecursive]. The recursion follows the [children] links of
    the graph, which may form a cycle; [fuel] bounds the depth of the call
    stack and [None] is a traversal that exhausts it. *)
Fixpoint findPathsRecursive (fuel : nat) (graph : DependencyGraph)
    (currentNodeId targetPackage : jsstring) (currentPath : list jsstring)
    : option (list (list jsstring)) :=
  match fuel with
  | 0 => None
  | S fuel' =>
      match map_get (nodes graph) currentNodeId with
      | None => Some []
      | Some node =>
          (fix children_loop (l : list jsstring)
               (paths : list (list jsstring)) : option (list (list jsstring)) :=
             match l with
             | [] => Some paths
             | childId :: l' =>
                 match map_get (nodes graph) childId with
                 | None => children_loop l' paths
                 | Some childNode =>
                     let newPath := currentPath ++ [childId] in
                     if str_eqb (gn_name childNode) targetPackage then
                       children_loop l' (paths ++ [newPath])
                     else
                       match findPathsRecursive fuel' graph childId
                               targetPackage newPath with
                       | Some subPaths => children_loop l' (paths ++ subPaths)
                       | None => None
                       end
                 end
             end) (gn_children node) []
      end
  end.

(** The loop of [findPathsRecursive] over the children of a node, as a
    function of its own; [fuel] is the fuel of the recursive calls. *)
Fixpoint findChildren (fuel : nat) (graph : DependencyGraph)
    (targetPackage : jsstring) (currentPath : list jsstring)
    (l : list jsstring) (paths : list (list jsstring))
    : option (list (list jsstring)) :=
  match l with
  | [] => Some paths
  | childId :: l' =>
      match map_get (nodes graph) childId with
      | None => findChildren fuel graph targetPackage currentPath l' paths
      | Some childNode =>
          let newPath := currentPath ++ [childId] in
          if str_eqb (gn_name childNode) targetPackage then
            findChildren fuel graph targetPackage currentPath l'
              (paths ++ [newPath])
          else
            match findPathsRecursive fuel graph childId targetPackage
                    newPath with
            | Some subPaths =>
                findChildren fuel graph targetPackage currentPath l'
                  (paths ++ subPaths)
            | None => None
            end
      end
  end.

(** The loop of [findDependencyPath] over the roots. *)
Fixpoint findRoots (fuel : nat) (graph : DependencyGraph)
    (packageName : jsstring) (l : list jsstring)
    (paths : list (list jsstring)) : option (list (list jsstring)) :=
  match l with
  | [] => Some paths
  | root :: l' =>
      match map_get (nodes graph) root with
      | None => findRoots fuel graph packageName l' paths
      | Some rootNode =>
          if str_eqb (gn_name rootNode) packageName then
            findRoots fuel graph packageName l' (paths ++ [[root]])
          else
            match findPathsRecursive fuel graph root packageName [root] with
            | Some subPaths =>
                findRoots fuel graph packageName l' (paths ++ subPaths)
            | None => None
            end
      end
  end.

Definition findDependencyPath (fuel : nat) (graph : DependencyGraph)
    (packageName : jsstring) : option (list (list jsstring)) :=
  findRoots fuel graph packageName (roots graph) [].


Definition getDirectDependencies (graph : DependencyGraph) : list GraphNode :=
  filter (fun node => Nat.eqb (gn_depth node) 0) (map_values (nodes graph)).

Definition getTransitiveDependencies (graph : DependencyGraph)
    : list GraphNode :=
  filter (fun node => Nat.ltb 0 (gn_depth node)) (map_values (nodes graph)).

(* ===================================================================== *)
(** * Exceptions                                                          *)
(* ===================================================================== *)

Inductive JsError : Type :=
| URIError    (* encodeURIComponent on a lone surrogate *)
| TypeError.  (* a method call on undefined *)

Inductive outcome (A : Type) : Type :=
| Ok (a : A)
| Throw (e : JsError).
Arguments Ok {A} a.
Arguments Throw {A} e.

Definition bind {A B : Type} (x : outcome A) (k : A -> outcome B)
    : outcome B :=
  match x with
  | Ok a => k a
  | Throw e => Throw e
  end.

Notation "x <- e ;; k" := (bind e (fun x => k))
  (at level 61, e at next level, right associativity).

(** A loop whose body can throw. *)
Fixpoint foldM {A S : Type} (f : S -> A -> outcome S) (l : list A) (s : S)
    : outcome S :=
  match l with
  | [] => Ok s
  | a :: l' => s' <- f s a ;; foldM f l' s'
  end.

(* ===================================================================== *)
(** * Identity canonicalizer ([sbom/generator.ts])                        *)
(* ===================================================================== *)

Local Open Scope N_scope.

Definition in_range (lo hi c : N) : bool := (lo <=? c) && (c <=? hi).

Definition is_alnum (c : N) : bool :=
  in_range 65 90 c || in_range 97 122 c || in_range 48 57 c.

(** The characters [encodeURIComponent] leaves alone:
    [A-Z a-z 0-9 - _ . ! ~ * ' ( )]. *)
Definition is_unreserved (c : N) : bool :=
  is_alnum c || existsb (N.eqb c) [45; 95; 46; 33; 126; 42; 39; 40; 41].

Definition is_high_surrogate (c : N) : bool := in_range 55296 56319 c.
Definition is_low_surrogate (c : N) : bool := in_range 56320 57343 c.

Definition hex_digit (d : N) : N := if d <? 10 then 48 + d else 55 + d.

(** ["%XX"] for one octet. *)
Definition percent (b : N) : jsstring :=
  [37; hex_digit (b / 16); hex_digit (b mod 16)].

(** The UTF-8 octets of a code point. *)
Definition utf8 (cp : N) : list N :=
  if cp <? 128 then [cp]
  else if cp <? 2048 then [192 + cp / 64; 128 + cp mod 64]
  else if cp <? 65536 then
    [224 + cp / 4096; 128 + (cp / 64) mod 64; 128 + cp mod 64]
  else
    [240 + cp / 262144; 128 + (cp / 4096) mod 64; 128 + (cp / 64) mod 64;
     128 + cp mod 64].

(** [encodeURIComponent] (ECMA-262, Encode): unreserved units are copied,
    any other code point is written as the percent-escapes of its UTF-8
    octets, and a surrogate that is not part of a pair throws. *)
Fixpoint encodeURIComponent (s : jsstring) : outcome jsstring :=
  match s with
  | [] => Ok []
  | c :: s' =>
      if is_unreserved c then
        r <- encodeURIComponent s' ;; Ok (c :: r)
      else if is_high_surrogate c then
        match s' with
        | d :: s'' =>
            if is_low_surrogate d then
              r <- encodeURIComponent s'' ;;
              Ok (flat_map percent
                    (utf8 (65536 + (c - 55296) * 1024 + (d - 56320))) ++ r)
            else Throw URIError
        | [] => Throw URIError
        end
      else if is_low_surrogate c then Throw URIError
      else
        r <- encodeURIComponent s' ;; Ok (flat_map percent (utf8 c) ++ r)
  end.

Definition createBomRef (name version : jsstring) : outcome jsstring :=
  if startsWith name 64 then
    let parts := split_on 47 name in
    let scope := nth 0%nat parts [] in
    let pkgName := nth 1%nat parts [] in
    encodedScope <- encodeURIComponent scope ;;
    encodedName <- encodeURIComponent pkgName ;;
    Ok (js "pkg:npm/" ++ encodedScope ++ js "/" ++ encodedName ++ js "@"
          ++ version)
  else
    encoded <- encodeURIComponent name ;;
    Ok (js "pkg:npm/" ++ encoded ++ js "@" ++ version).

(** The class [[A-Za-z0-9-.]] of the first regular expression. *)
Definition spdx_allowed (c : N) : bool :=
  is_alnum c || N.eqb c 45 || N.eqb c 46.

(** [.replace(/[^A-Za-z0-9-.]+/g, '-')]: every maximal run of units outside
    the class becomes one ['-']; [in_run] tells that the unit before was
    part of such a run. *)
Fixpoint replace_runs (in_run : bool) (s : jsstring) : jsstring :=
  match s with
  | [] => []
  | c :: s' =>
      if spdx_allowed c then c :: replace_runs false s'
      else if in_run then replace_runs true s'
      else 45 :: replace_runs true s'
  end.

(** [.replace(/-+/g, '-')]. *)
Fixpoint collapse_dashes (in_run : bool) (s : jsstring) : jsstring :=
  match s with
  | [] => []
  | c :: s' =>
      if N.eqb c 45 then
        if in_run then collapse_dashes true s'
        else 45 :: collapse_dashes true s'
      else c :: collapse_dashes false s'
  end.

Definition createSpdxRef (name version : jsstring) : jsstring :=
  let base :=
    collapse_dashes false (replace_runs false (name ++ js "-" ++ version)) in
  js "SPDXRef-" ++ base.

Local Close Scope N_scope.
(* ===================================================================== *)
(** * SBOM types ([sbom/types.ts], [scanner/types.ts])                    *)
(* ===================================================================== *)

(** What the generator takes from its platform: the number type of
    [cvss] with its truthiness, [Date] with [toISOString], the [version]
    field of the tool's own [package.json] (when it is a string), and
    [path.resolve]. *)
Class Platform : Type :=
  mkPlatform {
    number : Type;
    number_truthy : number -> bool;
    Date : Type;
    toISOString : Date -> jsstring;
    packageJson_version : option jsstring;
    resolve : jsstring -> jsstring -> jsstring
  }.

Inductive Severity : Type := Low | Moderate | High | Critical.

Inductive SbomFormat : Type := cyclonedx | spdx.

Record SbomMetadata : Type :=
  mkSbomMetadata {
    md_supplier : option jsstring;
    md_componentName : option jsstring;
    md_componentVersion : option jsstring
  }.

(** [Partial<SbomGenerateOptions>]: every field may be absent. *)
Record SbomGenerateOptions : Type :=
  mkSbomGenerateOptions {
    o_format : option SbomFormat;
    o_includeDevDependencies : option bool;
    o_attachVulnerabilities : option bool;
    o_outputFile : option jsstring;
    o_metadata : option SbomMetadata
  }.

Record SbomStats : Type :=
  mkSbomStats {
    totalComponents : nat;
    directDependencies : nat;
    devDependencies : nat
  }.

Record PackageMetadata : Type :=
  mkPackageMetadata {
    info : PackageInfo;
    bomRef : jsstring;
    spdxRef : jsstring
  }.

Record PackageMetadataMap : Type :=
  mkPackageMetadataMap {
    byKey : JsMap PackageMetadata;
    byBomRef : JsMap PackageMetadata
  }.

(** ** CycloneDX document tree *)

Record RootComponent : Type :=
  mkRootComponent {
    rc_bomRef : jsstring;
    rc_type : jsstring;
    rc_name : jsstring;
    rc_version : jsstring;
    rc_purl : jsstring;
    rc_supplier : option jsstring  (* [{ name }] or [undefined] *)
  }.

Record Component : Type :=
  mkComponent {
    c_bomRef : jsstring;
    c_type : jsstring;
    c_name : jsstring;
    c_version : jsstring;
    c_purl : jsstring;
    c_scope : jsstring;
    c_properties : list (jsstring * jsstring)  (* [{ name, value }] *)
  }.

Record DependencyEntry : Type :=
  mkDependencyEntry { de_ref : jsstring; de_dependsOn : list jsstring }.

Record Tool : Type :=
  mkTool { tool_vendor : jsstring; tool_name : jsstring;
           tool_version : jsstring }.

(** ** SPDX document tree *)

Record ExternalRef : Type :=
  mkExternalRef {
    referenceCategory : jsstring;
    referenceType : jsstring;
    referenceLocator : jsstring
  }.

Record SpdxPackage : Type :=
  mkSpdxPackage {
    sp_name : jsstring;
    sp_SPDXID : jsstring;
    sp_versionInfo : jsstring;
    sp_supplier : option jsstring;        (* only on the root package *)
    sp_downloadLocation : jsstring;
    sp_primaryPackagePurpose : jsstring;
    sp_licenseConcluded : jsstring;
    sp_licenseDeclared : jsstring;
    sp_externalRefs : option (list ExternalRef)  (* only on libraries *)
  }.

Record SpdxRelationship : Type :=
  mkSpdxRelationship {
    rel_spdxElementId : jsstring;
    relationshipType : jsstring;
    relatedSpdxElement : jsstring
  }.

Record SpdxAnnotation : Type :=
  mkSpdxAnnotation {
    an_spdxElementId : jsstring;
    annotationType : jsstring;
    annotator : jsstring;
    an_comment : jsstring;
    annotationDate : jsstring
  }.

Record SpdxDocument : Type :=
  mkSpdxDocument {
    spdx_SPDXID : jsstring;
    spdxVersion : jsstring;
    dataLicense : jsstring;
    spdx_name : jsstring;
    documentNamespace : jsstring;
    creationInfo_created : jsstring;
    creationInfo_creators : list jsstring;
    creationInfo_licenseListVersion : jsstring;
    packages : list SpdxPackage;
    relationships : list SpdxRelationship;
    annotations : list SpdxAnnotation
  }.

Section GeneratorTypes.
Context {P : Platform}.

Record Vulnerability : Type :=
  mkVulnerability {
    v_id : jsstring;
    v_severity : Severity;
    v_package : jsstring;
    v_version : jsstring;
    v_patched : list jsstring;
    v_description : jsstring;
    v_references : option (list jsstring);
    v_cvss : option number
  }.

Record ScanSummary : Type :=
  mkScanSummary { sum_critical : nat; sum_high : nat; sum_moderate : nat;
                  sum_low : nat }.

Record ScanResult : Type :=
  mkScanResult {
    sr_vulnerabilities : list Vulnerability;
    sr_totalPackages : nat;
    sr_scannedAt : Date;
    sr_dependencies : DependencyTree;
    sr_summary : ScanSummary
  }.

Record Rating : Type :=
  mkRating {
    r_severity : jsstring;
    r_score : option number;
    r_method : option jsstring
  }.

Record CdxVulnerability : Type :=
  mkCdxVulnerability {
    cv_id : jsstring;
    cv_source_name : jsstring;
    cv_ratings : list Rating;
    cv_details : jsstring;
    cv_affects : list jsstring;     (* [{ ref }] *)
    cv_advisories : list jsstring   (* [{ url }] *)
  }.

Record CycloneDxBom : Type :=
  mkCycloneDxBom {
    bomFormat : jsstring;
    specVersion : jsstring;
    serialNumber : jsstring;
    bom_version : nat;
    metadata_timestamp : jsstring;
    metadata_tools : list Tool;
    metadata_component : RootComponent;
    components : list Component;
    dependencies : list DependencyEntry;
    vulnerabilities : option (list CdxVulnerability)  (* key may be absent *)
  }.

Inductive SbomDocument : Type :=
| CycloneDxDocument (bom : CycloneDxBom)
| SpdxDocumentOf (doc : SpdxDocument).

Record SbomGenerationResult : Type :=
  mkSbomGenerationResult {
    res_format : SbomFormat;
    res_document : SbomDocument;
    res_outputPath : option jsstring;
    res_generatedAt : Date;
    res_stats : SbomStats;
    res_vulnerabilities : list Vulnerability;
    embeddedVulnerabilities : bool
  }.
End GeneratorTypes.

(* ===================================================================== *)
(** * The SBOM generator ([sbom/generator.ts])                            *)
(* ===================================================================== *)

Definition CYCLONEDX_SPEC_VERSION : jsstring := js "1.5".
Definition SPDX_VERSION : jsstring := js "SPDX-2.3".

(** Truthiness of a [boolean | undefined]. *)
Definition truthy_bool (b : option bool) : bool :=
  match b with
  | Some true => true
  | _ => false
  end.

(** [options.metadata?.field]. *)
Definition metadata_field (f : SbomMetadata -> option jsstring)
    (options : SbomGenerateOptions) : option jsstring :=
  match o_metadata options with
  | Some m => f m
  | None => None
  end.

(** [a ?? b]. *)
Definition nullish (a : option jsstring) (b : jsstring) : jsstring :=
  match a with
  | Some x => x
  | None => b
  end.

(** [s.includes(p)] on strings. *)
Fixpoint prefixb (p s : jsstring) : bool :=
  match p, s with
  | [], _ => true
  | x :: p', y :: s' => N.eqb x y && prefixb p' s'
  | _ :: _, [] => false
  end.

Fixpoint str_includes (s p : jsstring) : bool :=
  prefixb p s ||
  match s with
  | [] => false
  | _ :: s' => str_includes s' p
  end.

Fixpoint mapM {A B : Type} (f : A -> outcome B) (l : list A)
    : outcome (list B) :=
  match l with
  | [] => Ok []
  | a :: l' => b <- f a ;; bs <- mapM f l' ;; Ok (b :: bs)
  end.

Definition buildStats (packages : list PackageInfo) : SbomStats :=
  mkSbomStats (length packages)
    (length (filter pi_isDirect packages))
    (length (filter pi_isDevDependency packages)).

Definition buildRootComponent (tree : DependencyTree)
    (options : SbomGenerateOptions) : outcome RootComponent :=
  let componentName :=
    nullish (metadata_field md_componentName options) (dt_name tree) in
  let componentVersion :=
    nullish (metadata_field md_componentVersion options) (dt_version tree) in
  ref <- createBomRef componentName componentVersion ;;
  purl <- createBomRef componentName componentVersion ;;
  Ok (mkRootComponent ref (js "application") componentName componentVersion
        purl (truthy_str (metadata_field md_supplier options))).

(** The body of the loop of [buildPackageMetadataMap]. *)
Definition recordPackage (acc : PackageMetadataMap) (pkg : PackageInfo)
    : outcome PackageMetadataMap :=
  let key := createKey (pi_name pkg) (pi_version pkg) in
  ref <- createBomRef (pi_name pkg) (pi_version pkg) ;;
  let metadata :=
    mkPackageMetadata pkg ref (createSpdxRef (pi_name pkg) (pi_version pkg)) in
  Ok (mkPackageMetadataMap (map_set (byKey acc) key metadata)
        (map_set (byBomRef acc) (bomRef metadata) metadata)).

Definition buildPackageMetadataMap (packages : list PackageInfo)
    : outcome PackageMetadataMap :=
  foldM recordPackage packages (mkPackageMetadataMap [] []).

Definition buildComponentsArray (packageMap : JsMap PackageMetadata)
    : list Component :=
  map
    (fun metadata =>
       mkComponent (bomRef metadata) (js "library")
         (pi_name (info metadata)) (pi_version (info metadata))
         (bomRef metadata)
         (if pi_isDevDependency (info metadata) then js "optional"
          else js "required")
         [(js "securesync:direct",
           if pi_isDirect (info metadata) then js "true" else js "false")])
    (map_values packageMap).

(** [graph.get(k)!.add(x)]. *)
Definition graph_add (graph : JsMap (list jsstring)) (k x : jsstring)
    : outcome (JsMap (list jsstring)) :=
  match map_get graph k with
  | Some deps => Ok (map_set graph k (set_add deps x))
  | None => Throw TypeError
  end.

Fixpoint traverseNode (node : DependencyNode) (graph : JsMap (list jsstring))
    : outcome (JsMap (list jsstring)) :=
  nodeRef <- createBomRef (dn_name node) (dn_version node) ;;
  let graph1 :=
    if negb (map_has graph nodeRef) then map_set graph nodeRef []
    else graph in
  match dn_dependencies node with
  | None => Ok graph1
  | Some deps =>
      (fix children_loop (l : list (jsstring * DependencyNode))
           (g : JsMap (list jsstring)) : outcome (JsMap (list jsstring)) :=
         match l with
         | [] => Ok g
         | (_, child) :: l' =>
             childRef <- createBomRef (dn_name child) (dn_version child) ;;
             g1 <- graph_add g nodeRef childRef ;;
             g2 <- traverseNode child g1 ;;
             children_loop l' g2
         end) deps graph1
  end.

(** The loop of [traverseNode] over the children of a node, as a function
    of its own. *)
Fixpoint traverseChildren (l : list (jsstring * DependencyNode))
    (nodeRef : jsstring) (g : JsMap (list jsstring))
    : outcome (JsMap (list jsstring)) :=
  match l with
  | [] => Ok g
  | (_, child) :: l' =>
      childRef <- createBomRef (dn_name child) (dn_version child) ;;
      g1 <- graph_add g nodeRef childRef ;;
      g2 <- traverseNode child g1 ;;
      traverseChildren l' nodeRef g2
  end.

(** The body of the loop of [buildDependencyGraph]. *)
Definition traverseRoot (rootRef : jsstring) (graph : JsMap (list jsstring))
    (node : DependencyNode) : outcome (JsMap (list jsstring)) :=
  childRef <- createBomRef (dn_name node) (dn_version node) ;;
  g1 <- graph_add graph rootRef childRef ;;
  traverseNode node g1.

Definition buildDependencyGraph (tree : DependencyTree)
    : outcome (JsMap (list jsstring)) :=
  rootRef <- createBomRef (dt_name tree) (dt_version tree) ;;
  foldM (traverseRoot rootRef) (map_values (dt_dependencies tree))
    (map_set [] rootRef []).

Definition buildDependencyEntries (graph : JsMap (list jsstring))
    : list DependencyEntry :=
  map (fun '(ref, deps) => mkDependencyEntry ref deps) graph.

Definition severity_str (s : Severity) : jsstring :=
  match s with
  | Low => js "low"
  | Moderate => js "moderate"
  | High => js "high"
  | Critical => js "critical"
  end.

(** [ratingsMap[vuln.severity]]; the four severities of the type are the
    four keys of the table. *)
Definition ratingsMap (s : Severity) : jsstring :=
  match s with
  | Low => js "low"
  | Moderate => js "medium"
  | High => js "high"
  | Critical => js "critical"
  end.

Section Generator.
Context {P : Platform}.

Definition toolVersion : jsstring :=
  nullish packageJson_version (js "unknown").

Definition buildCycloneDxVulnerabilities
    (vulnerabilities : list Vulnerability)
    (packageMap : JsMap PackageMetadata) : list CdxVulnerability :=
  map
    (fun vuln =>
       let key := createKey (v_package vuln) (v_version vuln) in
       let component := map_get packageMap key in
       mkCdxVulnerability (v_id vuln)
         (match v_references vuln with
          | Some (r :: _) =>
              if str_includes r (js "nvd") then js "NVD"
              else js "SecureSync"
          | _ => js "SecureSync"
          end)
         [mkRating (ratingsMap (v_severity vuln)) (v_cvss vuln)
            (match v_cvss vuln with
             | Some c => if number_truthy c then Some (js "CVSSv3") else None
             | None => None
             end)]
         (v_description vuln)
         (match component with
          | Some c => [bomRef c]
          | None => []
          end)
         (match v_references vuln with
          | Some refs => refs
          | None => []
          end))
    vulnerabilities.

Definition buildSpdxPackages (tree : DependencyTree)
    (packageMap : JsMap PackageMetadata) (options : SbomGenerateOptions)
    : outcome (list SpdxPackage) :=
  let rootName :=
    nullish (metadata_field md_componentName options) (dt_name tree) in
  let rootVersion :=
    nullish (metadata_field md_componentVersion options) (dt_version tree) in
  let rootPackage :=
    mkSpdxPackage rootName (createSpdxRef rootName rootVersion) rootVersion
      (Some (match truthy_str (metadata_field md_supplier options) with
             | Some s => js "Organization: " ++ s
             | None => js "NOASSERTION"
             end))
      (js "NOASSERTION") (js "APPLICATION") (js "NOASSERTION")
      (js "NOASSERTION") None in
  libraries <-
    mapM
      (fun metadata =>
         locator <- createBomRef (pi_name (info metadata))
                      (pi_version (info metadata)) ;;
         Ok (mkSpdxPackage (pi_name (info metadata)) (spdxRef metadata)
               (pi_version (info metadata)) None (js "NOASSERTION")
               (js "LIBRARY") (js "NOASSERTION") (js "NOASSERTION")
               (Some [mkExternalRef (js "PACKAGE-MANAGER") (js "purl")
                        locator])))
      (map_values packageMap) ;;
  Ok (rootPackage :: libraries).

Definition buildSpdxRelationships (tree : DependencyTree)
    (packageMap : JsMap PackageMetadata) (graph : JsMap (list jsstring))
    (options : SbomGenerateOptions) : outcome (list SpdxRelationship) :=
  let rootName :=
    nullish (metadata_field md_componentName options) (dt_name tree) in
  let rootVersion :=
    nullish (metadata_field md_componentVersion options) (dt_version tree) in
  let rootRef := createSpdxRef rootName rootVersion in
  rootBomRef <- createBomRef (dt_name tree) (dt_version tree) ;;
  Ok (mkSpdxRelationship (js "SPDXRef-DOCUMENT") (js "DESCRIBES") rootRef
      :: flat_map
           (fun '(parent, deps) =>
              let parentSpdx :=
                if str_eqb parent rootBomRef then Some rootRef
                else option_map spdxRef (map_get packageMap parent) in
              match truthy_str parentSpdx with
              | None => []
              | Some parentSpdx =>
                  flat_map
                    (fun child =>
                       match truthy_str
                               (option_map spdxRef (map_get packageMap child))
                       with
                       | None => []
                       | Some childSpdx =>
                           [mkSpdxRelationship parentSpdx (js "DEPENDS_ON")
                              childSpdx]
                       end)
                    deps
              end)
           graph).

Definition buildSpdxAnnotations (vulnerabilities : list Vulnerability)
    (packageMap : JsMap PackageMetadata) (generatedAt : Date)
    : list SpdxAnnotation :=
  flat_map
    (fun vuln =>
       let key := createKey (v_package vuln) (v_version vuln) in
       match map_get packageMap key with
       | None => []
       | Some metadata =>
           [mkSpdxAnnotation (spdxRef metadata) (js "REVIEW")
              (js "Tool: SecureSync")
              (v_id vuln ++ js " (" ++ severity_str (v_severity vuln)
                 ++ js ") - " ++ v_description vuln)
              (toISOString generatedAt)]
       end)
    vulnerabilities.

(** [uuid] is the value [randomUUID()] returns in this call. *)
Definition buildCycloneDxBom (uuid : jsstring) (scanResult : ScanResult)
    (generatedAt : Date) (options : SbomGenerateOptions)
    : outcome CycloneDxBom :=
  let tree := sr_dependencies scanResult in
  let serialNumber := js "urn:uuid:" ++ uuid in
  rootComponent <- buildRootComponent tree options ;;
  packageMap <- buildPackageMetadataMap (dt_packages tree) ;;
  graph <- buildDependencyGraph tree ;;
  let components := buildComponentsArray (byKey packageMap) in
  let dependencies := buildDependencyEntries graph in
  Ok (mkCycloneDxBom (js "CycloneDX") CYCLONEDX_SPEC_VERSION serialNumber 1
        (toISOString generatedAt)
        [mkTool (js "SecureSync") (js "SecureSync") toolVersion]
        rootComponent components dependencies
        (if truthy_bool (o_attachVulnerabilities options)
            && Nat.ltb 0 (length (sr_vulnerabilities scanResult))
         then Some (buildCycloneDxVulnerabilities
                      (sr_vulnerabilities scanResult) (byKey packageMap))
         else None)).

Definition buildSpdxDocument (uuid : jsstring) (scanResult : ScanResult)
    (generatedAt : Date) (options : SbomGenerateOptions)
    : outcome SpdxDocument :=
  let tree := sr_dependencies scanResult in
  let namespace := js "urn:uuid:" ++ uuid in
  packageMap <- buildPackageMetadataMap (dt_packages tree) ;;
  graph <- buildDependencyGraph tree ;;
  packages <- buildSpdxPackages tree (byKey packageMap) options ;;
  relationships <-
    buildSpdxRelationships tree (byBomRef packageMap) graph options ;;
  let annotations :=
    if truthy_bool (o_attachVulnerabilities options) then
      buildSpdxAnnotations (sr_vulnerabilities scanResult)
        (byKey packageMap) generatedAt
    else [] in
  Ok (mkSpdxDocument (js "SPDXRef-DOCUMENT") SPDX_VERSION (js "CC0-1.0")
        (nullish (metadata_field md_componentName options) (dt_name tree)
           ++ js " SBOM")
        namespace (toISOString generatedAt)
        [js "Tool: SecureSync " ++ toolVersion] (js "3.23")
        packages relationships annotations).

(** [generateSbom], from the point where [scanNpmProject] has returned
    [scanResult]; [generatedAt] is the value of [new Date()] and [uuid]
    the value of [randomUUID()] in this call. Writing the output file
    is left to the caller of the model; the path is computed as in the
    source. *)
Definition generateSbom (projectPath : jsstring)
    (options : SbomGenerateOptions) (scanResult : ScanResult)
    (generatedAt : Date) (uuid : jsstring) : outcome SbomGenerationResult :=
  let format :=
    match o_format options with
    | Some f => f
    | None => cyclonedx
    end in
  let stats := buildStats (dt_packages (sr_dependencies scanResult)) in
  document <-
    match format with
    | cyclonedx =>
        bom <- buildCycloneDxBom uuid scanResult generatedAt options ;;
        Ok (CycloneDxDocument bom)
    | spdx =>
        doc <- buildSpdxDocument uuid scanResult generatedAt options ;;
        Ok (SpdxDocumentOf doc)
    end ;;
  let embedded :=
    truthy_bool (o_attachVulnerabilities options)
    && Nat.ltb 0 (length (sr_vulnerabilities scanResult)) in
  let outputPath :=
    match truthy_str (o_outputFile options) with
    | Some f => Some (resolve projectPath f)
    | None => None
    end in
  Ok (mkSbomGenerationResult format document outputPath generatedAt stats
        (sr_vulnerabilities scanResult) embedded).
End Generator.

(* ===================================================================== *)
(** * The visualizer ([graph/visualizer.ts])                              *)
(* ===================================================================== *)

Inductive VisualizationFormat : Type := tree_format | dot_format | json_format.

(** [maxDepth] is given by its integer part (a depth is compared with it
    and depths are whole numbers); absent, it is [Infinity]. *)
Record VisualizationOptions : Type :=
  mkVisualizationOptions {
    vo_format : VisualizationFormat;
    vo_maxDepth : option Z;
    vo_showVersions : option bool;
    vo_highlightVulnerabilities : option bool
  }.

(** The decimal digits of a count, as a template literal writes it. *)
Fixpoint uint_units (d : Decimal.uint) : jsstring :=
  match d with
  | Decimal.Nil => []
  | Decimal.D0 d' => 48%N :: uint_units d'
  | Decimal.D1 d' => 49%N :: uint_units d'
  | Decimal.D2 d' => 50%N :: uint_units d'
  | Decimal.D3 d' => 51%N :: uint_units d'
  | Decimal.D4 d' => 52%N :: uint_units d'
  | Decimal.D5 d' => 53%N :: uint_units d'
  | Decimal.D6 d' => 54%N :: uint_units d'
  | Decimal.D7 d' => 55%N :: uint_units d'
  | Decimal.D8 d' => 56%N :: uint_units d'
  | Decimal.D9 d' => 57%N :: uint_units d'
  end.

Definition decimal (n : nat) : jsstring := uint_units (Nat.to_uint n).

(** [lines.join(sep)]. *)
Fixpoint join (sep : jsstring) (lines : list jsstring) : jsstring :=
  match lines with
  | [] => []
  | [line] => line
  | line :: rest => line ++ sep ++ join sep rest
  end.

(** [depth > maxDepth]. *)
Definition exceeds (depth : nat) (maxDepth : option Z) : bool :=
  match maxDepth with
  | Some m => Z.ltb m (Z.of_nat depth)
  | None => false
  end.

(** The connectors ['└── '] and ['├── '], and the continuation strings
    ['    '] and ['│   ']. *)
Definition last_branch : jsstring := [9492; 9472; 9472; 32]%N.
Definition mid_branch : jsstring := [9500; 9472; 9472; 32]%N.
Definition last_gap : jsstring := [32; 32; 32; 32]%N.
Definition mid_gap : jsstring := [9474; 32; 32; 32]%N.

(** The text of the line of a node, after its prefix. *)
Definition tree_label (showVersions : bool) (highlightVulns : option bool)
    (node : GraphNode) : jsstring :=
  let displayName :=
    if showVersions then gn_name node ++ js "@" ++ gn_version node
    else gn_name node in
  let vulnMarker :=
    if truthy_bool highlightVulns && Nat.ltb 0 (gn_vulnerabilities node) then
      js " [" ++ decimal (gn_vulnerabilities node) ++ js " vuln(s)]"
    else [] in
  let devMarker := if gn_isDevDependency node then js " (dev)" else [] in
  displayName ++ vulnMarker ++ devMarker.

(** [renderTreeNode]; [lines], which the source appends to, is threaded
    through the calls, and [fuel] bounds the depth of the call stack. *)
Fixpoint renderTreeNode (fuel : nat) (graph : DependencyGraph)
    (nodeId : jsstring) (depth : nat) (prefix : jsstring)
    (lines : list jsstring) (maxDepth : option Z) (showVersions : bool)
    (highlightVulns : option bool) : option (list jsstring) :=
  match fuel with
  | 0 => None
  | S fuel' =>
      if exceeds depth maxDepth then Some lines
      else
        match map_get (nodes graph) nodeId with
        | None => Some lines
        | Some node =>
            let lines1 :=
              lines ++ [prefix ++ tree_label showVersions highlightVulns node]
            in
            let children := gn_children node in
            (fix children_loop (i : nat) (l : list jsstring)
                 (acc : list jsstring) : option (list jsstring) :=
               match l with
               | [] => Some acc
               | childId :: l' =>
                   let isLast := Nat.eqb i (length children - 1) in
                   let childPrefix :=
                     prefix ++ (if isLast then last_branch else mid_branch) in
                   let nextPrefix :=
                     prefix ++ (if isLast then last_gap else mid_gap) in
                   match renderTreeNode fuel' graph childId (depth + 1)
                           childPrefix acc maxDepth showVersions
                           highlightVulns with
                   | Some acc' => children_loop (S i) l' acc'
                   | None => None
                   end
               end) 0 children lines1
        end
  end.

(** The loop of [renderTreeNode] over the children from index [i] on, as
    a function of its own; [total] is [children.length]. *)
Fixpoint renderChildren (fuel : nat) (graph : DependencyGraph)
    (total i : nat) (l : list jsstring) (depth : nat) (prefix : jsstring)
    (acc : list jsstring) (maxDepth : option Z) (showVersions : bool)
    (highlightVulns : option bool) : option (list jsstring) :=
  match l with
  | [] => Some acc
  | childId :: l' =>
      let childPrefix :=
        prefix ++ (if Nat.eqb i (total - 1) then last_branch
                   else mid_branch) in
      match renderTreeNode fuel graph childId (depth + 1) childPrefix acc
              maxDepth showVersions highlightVulns with
      | Some acc' =>
          renderChildren fuel graph total (S i) l' depth prefix acc' maxDepth
            showVersions highlightVulns
      | None => None
      end
  end.

(** The loop of [visualizeAsTree] over the roots. *)
Fixpoint renderRoots (fuel : nat) (graph : DependencyGraph)
    (l : list jsstring) (lines : list jsstring) (maxDepth : option Z)
    (showVersions : bool) (highlightVulns : option bool)
    : option (list jsstring) :=
  match l with
  | [] => Some lines
  | rootId :: l' =>
      match renderTreeNode fuel graph rootId 0 [] lines maxDepth showVersions
              highlightVulns with
      | Some lines' =>
          renderRoots fuel graph l' lines' maxDepth showVersions
            highlightVulns
      | None => None
      end
  end.

Definition visualizeAsTree (fuel : nat) (graph : DependencyGraph)
    (options : VisualizationOptions) : option jsstring :=
  let maxDepth := vo_maxDepth options in
  let showVersions :=
    match vo_showVersions options with Some b => b | None => true end in
  match renderRoots fuel graph (roots graph) [] maxDepth showVersions
          (vo_highlightVulnerabilities options) with
  | Some lines => Some (join [10%N] lines)
  | None => None
  end.

(** The line of a node in the DOT output. *)
Definition dot_node_line (options : VisualizationOptions) (id : jsstring)
    (node : GraphNode) : jsstring :=
  let label :=
    if truthy_bool (vo_showVersions options)
    then gn_name node ++ js "@" ++ gn_version node
    else gn_name node in
  let color :=
    if Nat.ltb 0 (gn_vulnerabilities node)
       && truthy_bool (vo_highlightVulnerabilities options)
    then js "red" else js "black" in
  let style := if gn_isDevDependency node then js "dashed" else js "solid" in
  js "  " ++ [34%N] ++ id ++ [34%N] ++ js " [label=" ++ [34%N] ++ label
    ++ [34%N] ++ js ", color=" ++ [34%N] ++ color ++ [34%N] ++ js ", style="
    ++ [34%N] ++ style ++ [34%N] ++ js "];".

Definition dot_edge_line (edge : Edge) : jsstring :=
  js "  " ++ [34%N] ++ from edge ++ [34%N] ++ js " -> " ++ [34%N] ++ to edge
    ++ [34%N] ++ js ";".

Definition visualizeAsDot_lines (graph : DependencyGraph)
    (options : VisualizationOptions) : list jsstring :=
  [js "digraph dependencies {"; js "  rankdir=LR;"; js "  node [shape=box];"]
  ++ map (fun '(id, node) => dot_node_line options id node) (nodes graph)
  ++ map dot_edge_line (edges graph)
  ++ [js "}"].

Definition visualizeAsDot (graph : DependencyGraph)
    (options : VisualizationOptions) : jsstring :=
  join [10%N] (visualizeAsDot_lines graph options).

Definition printSummary (graph : DependencyGraph) : jsstring :=
  let totalNodes := length (nodes graph) in
  let directDeps :=
    length (filter (fun n => Nat.eqb (gn_depth n) 0)
              (map_values (nodes graph))) in
  let transitiveDeps := totalNodes - directDeps in
  let devDeps :=
    length (filter gn_isDevDependency (map_values (nodes graph))) in
  let vulnNodes :=
    length (filter (fun n => Nat.ltb 0 (gn_vulnerabilities n))
              (map_values (nodes graph))) in
  join [10%N]
    [js "Dependency Graph Summary";
     js "========================";
     js "Total packages: " ++ decimal totalNodes;
     js "Direct dependencies: " ++ decimal directDeps;
     js "Transitive dependencies: " ++ decimal transitiveDeps;
     js "Dev dependencies: " ++ decimal devDeps;
     js "Packages with vulnerabilities: " ++ decimal vulnNodes].

(* ===================================================================== *)
(** * The scanner ([scanner/npm.ts])                                      *)
(* ===================================================================== *)

(** [package.json] and [package-lock.json] are read with [JSON.parse] and
    typed [any]. The model takes them as the npm documents they are: an
    entry of [lockfile.packages] has a [version] string, an optional
    [resolved] string and an optional [dependencies] object, whose
    entries come in the order of [Object.entries]. *)
Record LockEntry : Type :=
  mkLockEntry {
    le_version : jsstring;
    le_resolved : option jsstring;
    le_dependencies : option (list (jsstring * jsstring))
  }.

Record Lockfile : Type :=
  mkLockfile { lf_packages : option (JsMap LockEntry) }.

Record PackageJson : Type :=
  mkPackageJson {
    pj_name : jsstring;
    pj_version : jsstring;
    pj_dependencies : option (list (jsstring * jsstring));
    pj_devDependencies : option (list (jsstring * jsstring))
  }.

(** [lockfile.packages?.[`node_modules/${name}`]]. *)
Definition lock_lookup (lockfile : Lockfile) (name : jsstring)
    : option LockEntry :=
  match lf_packages lockfile with
  | Some packages => map_get packages (js "node_modules/" ++ name)
  | None => None
  end.

(** [lockEntry.resolved || '']. *)
Definition resolved_or_empty (lockEntry : LockEntry) : jsstring :=
  match truthy_str (le_resolved lockEntry) with
  | Some s => s
  | None => []
  end.

(** [buildTransitiveDeps]; [fuel] bounds the depth of the call stack,
    and [None] is a stack that ran out. The inner [option] is the
    [Map | undefined] of the source. *)
Fixpoint buildTransitiveDeps (fuel : nat) (lockfile : Lockfile)
    (lockEntry : LockEntry)
    : option (option (list (jsstring * DependencyNode))) :=
  match fuel with
  | 0 => None
  | S fuel' =>
      match le_dependencies lockEntry with
      | None => Some None
      | Some entries =>
          match
            (fix loop (l : list (jsstring * jsstring))
                 (transitive : JsMap DependencyNode)
                 : option (JsMap DependencyNode) :=
               match l with
               | [] => Some transitive
               | (name, _) :: l' =>
                   match lock_lookup lockfile name with
                   | Some transitiveEntry =>
                       match buildTransitiveDeps fuel' lockfile
                               transitiveEntry with
                       | Some sub =>
                           loop l'
                             (map_set transitive name
                                (mkDependencyNode name
                                   (le_version transitiveEntry)
                                   (resolved_or_empty transitiveEntry) sub))
                       | None => None
                       end
                   | None => loop l' transitive
                   end
               end) entries []
          with
          | Some transitive =>
              Some (if Nat.ltb 0 (length transitive) then Some transitive
                    else None)
          | None => None
          end
      end
  end.

(** The loop of [buildTransitiveDeps] over the entries, as a function of
    its own. *)
Fixpoint transitive_loop (fuel' : nat) (lockfile : Lockfile)
    (l : list (jsstring * jsstring)) (transitive : JsMap DependencyNode)
    : option (JsMap DependencyNode) :=
  match l with
  | [] => Some transitive
  | (name, _) :: l' =>
      match lock_lookup lockfile name with
      | Some transitiveEntry =>
          match buildTransitiveDeps fuel' lockfile transitiveEntry with
          | Some sub =>
              transitive_loop fuel' lockfile l'
                (map_set transitive name
                   (mkDependencyNode name (le_version transitiveEntry)
                      (resolved_or_empty transitiveEntry) sub))
          | None => None
          end
      | None => transitive_loop fuel' lockfile l' transitive
      end
  end.

(** ** [collectAllPackages] *)

(** The state of [collectAllPackages]: the set [seen] and the array
    [packages], which the closure [traverse] mutates. *)
Definition CollectState : Type := (list jsstring * list PackageInfo)%type.

(** One turn of the loop of [traverse] before the recursive call. *)
Definition collect_entry (name : jsstring) (node : DependencyNode)
    (isDev : bool) (st : CollectState) : CollectState :=
  let key := createKey name (dn_version node) in
  if negb (includes (fst st) key) then
    (set_add (fst st) key,
     snd st ++ [mkPackageInfo name (dn_version node) isDev false])
  else st.

(** [traverse(node.dependencies, isDev)]. *)
Fixpoint traverse (node : DependencyNode) (isDev : bool) (st : CollectState)
    : CollectState :=
  match dn_dependencies node with
  | None => st
  | Some depMap =>
      (fix entries (l : list (jsstring * DependencyNode)) (st : CollectState)
           : CollectState :=
         match l with
         | [] => st
         | (name, child) :: l' =>
             entries l' (traverse child isDev (collect_entry name child isDev st))
         end) depMap st
  end.

(** The loop of [traverse] over the entries of a map, as a function of
    its own. *)
Fixpoint traverse_entries (l : list (jsstring * DependencyNode))
    (isDev : bool) (st : CollectState) : CollectState :=
  match l with
  | [] => st
  | (name, child) :: l' =>
      traverse_entries l' isDev
        (traverse child isDev (collect_entry name child isDev st))
  end.

(** [collectAllPackages(deps, packages)]: the array [packages] after the
    call. *)
Definition collectAllPackages (deps : list (jsstring * DependencyNode))
    (packages : list PackageInfo) : list PackageInfo :=
  let seen :=
    fold_left set_add
      (map (fun p => createKey (pi_name p) (pi_version p)) packages) [] in
  snd (fold_left (fun st '(_, node) => traverse node false st) deps
         (seen, packages)).

(** ** [buildDependencyTree] *)

(** One of the two loops of [buildDependencyTree] over the direct
    dependencies; the state is the map [dependencies] and the array
    [packages]. *)
Fixpoint direct_loop (fuel : nat) (lockfile : Lockfile) (isDev : bool)
    (l : list (jsstring * jsstring))
    (st : JsMap DependencyNode * list PackageInfo)
    : option (JsMap DependencyNode * list PackageInfo) :=
  match l with
  | [] => Some st
  | (name, _) :: l' =>
      match lock_lookup lockfile name with
      | Some lockEntry =>
          match buildTransitiveDeps fuel lockfile lockEntry with
          | Some sub =>
              direct_loop fuel lockfile isDev l'
                (map_set (fst st) name
                   (mkDependencyNode name (le_version lockEntry)
                      (resolved_or_empty lockEntry) sub),
                 snd st
                 ++ [mkPackageInfo name (le_version lockEntry) isDev true])
          | None => None
          end
      | None => direct_loop fuel lockfile isDev l' st
      end
  end.

(** [x || {}] followed by [Object.entries]. *)
Definition entries_or_empty (o : option (list (jsstring * jsstring)))
    : list (jsstring * jsstring) :=
  match o with
  | Some l => l
  | None => []
  end.

Definition buildDependencyTree (fuel : nat) (packageJson : PackageJson)
    (lockfile : Lockfile) (includeDevDeps : bool) : option DependencyTree :=
  let deps := entries_or_empty (pj_dependencies packageJson) in
  let devDeps :=
    if includeDevDeps then entries_or_empty (pj_devDependencies packageJson)
    else [] in
  match direct_loop fuel lockfile false deps ([], []) with
  | Some st1 =>
      match direct_loop fuel lockfile true devDeps st1 with
      | Some (dependencies, packages) =>
          Some (mkDependencyTree (pj_name packageJson)
                  (pj_version packageJson) dependencies
                  (collectAllPackages dependencies packages))
      | None => None
      end
  | None => None
  end.

(* ===================================================================== *)
(** * The scan and the [sbom] command ([scanner/npm.ts], [cli])           *)
(* ===================================================================== *)

Section ScanEntry.
Context {P : Platform}.

(** [Partial<ScanOptions>]. *)
Record ScanOptions : Type :=
  mkScanOptions {
    so_projectPath : option jsstring;
    so_includeDevDependencies : option bool;
    so_analyzeReachability : option bool;
    so_enhanceWithOSV : option bool
  }.

(** [queryNpmAudit]: the body of the [try] declares the list and returns
    it; nothing in it can throw. *)
Definition queryNpmAudit (projectPath : option jsstring)
    (depTree : DependencyTree) : list Vulnerability := [].

Definition enhanceVulnerabilities (vulnerabilities : list Vulnerability)
    : list Vulnerability := vulnerabilities.

Definition analyzeReachability (vulnerabilities : list Vulnerability)
    (projectPath : option jsstring) : list Vulnerability := vulnerabilities.

Definition severity_eqb (a b : Severity) : bool :=
  match a, b with
  | Low, Low | Moderate, Moderate | High, High | Critical, Critical => true
  | _, _ => false
  end.

(** [scanNpmProject], from the point where [package.json] and
    [package-lock.json] have been read and parsed; [scannedAt] is the
    value of [new Date()] in this call, and [fuel] the depth of the call
    stack. *)
Definition scanNpmProject (fuel : nat) (packageJson : PackageJson)
    (lockfile : Lockfile) (options : ScanOptions) (scannedAt : Date)
    : option ScanResult :=
  match
    buildDependencyTree fuel packageJson lockfile
      (match so_includeDevDependencies options with
       | Some b => b
       | None => false
       end)
  with
  | Some depTree =>
      let auditResult := queryNpmAudit (so_projectPath options) depTree in
      let enhanced :=
        if truthy_bool (so_enhanceWithOSV options)
        then enhanceVulnerabilities auditResult else auditResult in
      let vulnerabilities :=
        if truthy_bool (so_analyzeReachability options)
        then analyzeReachability enhanced (so_projectPath options)
        else enhanced in
      let count s :=
        length (filter (fun v => severity_eqb (v_severity v) s)
                  vulnerabilities) in
      Some (mkScanResult vulnerabilities (length (dt_packages depTree))
              scannedAt depTree
              (mkScanSummary (count Critical) (count High) (count Moderate)
                 (count Low)))
  | None => None
  end.

(** [generateSbom] with its call of [scanNpmProject]: [None] is a scan
    whose call stack ran out, [Some (Throw e)] a renderer that threw. *)
Definition generateSbom_project (fuel : nat) (packageJson : PackageJson)
    (lockfile : Lockfile) (projectPath : jsstring)
    (options : SbomGenerateOptions) (scannedAt generatedAt : Date)
    (uuid : jsstring) : option (outcome SbomGenerationResult) :=
  match
    scanNpmProject fuel packageJson lockfile
      (mkScanOptions (Some projectPath) (o_includeDevDependencies options)
         None None)
      scannedAt
  with
  | Some scanResult =>
      Some (generateSbom projectPath options scanResult generatedAt uuid)
  | None => None
  end.

Definition SEVERITIES : list jsstring :=
  [js "low"; js "moderate"; js "high"; js "critical"].

(** [l.indexOf(x)]: the first position of [x], or [-1]. *)
Fixpoint indexOf (l : list jsstring) (x : jsstring) : Z :=
  match l with
  | [] => (-1)%Z
  | y :: l' =>
      if str_eqb y x then 0%Z
      else let i := indexOf l' x in
           if Z.eqb i (-1) then (-1)%Z else (i + 1)%Z
  end.

(** How a call that may end the process comes back: it returns, or
    [process.exit(code)] runs after [ui.error(message)]. *)
Inductive CommandOutcome : Type :=
| Returned
| Exited (code : Z) (message : jsstring).

(** [handleFailOnOption]; [toLowerCase] is [String.prototype.toLowerCase]
    of the platform. *)
Definition handleFailOnOption (toLowerCase : jsstring -> jsstring)
    (result : SbomGenerationResult) (failOn : option jsstring)
    : CommandOutcome :=
  match truthy_str failOn with
  | None => Returned
  | Some failOn =>
      let normalized := toLowerCase failOn in
      let failIndex := indexOf SEVERITIES normalized in
      if Z.eqb failIndex (-1) then
        Exited 1 (js "Invalid severity level: " ++ failOn)
      else if existsb
                (fun vuln =>
                   Z.geb (indexOf SEVERITIES (severity_str (v_severity vuln)))
                     failIndex)
                (res_vulnerabilities result)
      then Exited 1 (js "Vulnerabilities with severity " ++ normalized
                       ++ js " or higher detected")
      else Returned
  end.
End ScanEntry.

(* ===================================================================== *)
(** * The tree as the object graph it is at run time                      *)
(* ===================================================================== *)

(** A [DependencyNode] object on the heap: its children are references
    (indices into the heap), so that an input may share subtrees or be
    cyclic, which the inductive [DependencyNode] cannot be. *)
Record DepObject : Type :=
  mkDepObject {
    ob_name : jsstring;
    ob_version : jsstring;
    ob_resolved : jsstring;
    ob_dependencies : option (list (jsstring * nat))
  }.

Definition Heap : Type := list DepObject.





(** The finite tree a reference unfolds to, when there is one of height
    at most [fuel]. *)
Fixpoint unfold (fuel : nat) (h : Heap) (ref : nat) : option DependencyNode :=
  match fuel with
  | 0 => None
  | S fuel' =>
      match nth_error h ref with
      | None => None
      | Some o =>
          match ob_dependencies o with
          | None =>
              Some (mkDependencyNode (ob_name o) (ob_version o)
                      (ob_resolved o) None)
          | Some deps =>
              match
                (fix unfold_children (l : list (jsstring * nat))
                   : option (list (jsstring * DependencyNode)) :=
                   match l with
                   | [] => Some []
                   | (childName, childRef) :: l' =>
                       match unfold fuel' h childRef, unfold_children l' with
                       | Some t, Some ts => Some ((childName, t) :: ts)
                       | _, _ => None
                       end
                   end) deps
              with
              | Some ds =>
                  Some (mkDependencyNode (ob_name o) (ob_version o)
                          (ob_resolved o) (Some ds))
              | None => None
              end
          end
      end
  end.






(* ===================================================================== *)
(** * Vocabulary of the properties                                        *)
(* ===================================================================== *)

(** Number of [DependencyNode] occurrences in a tree. *)
Fixpoint tree_size (t : DependencyNode) : nat :=
  S (match dn_dependencies t with
     | Some deps =>
         (fix size_children (l : list (jsstring * DependencyNode)) : nat :=
            match l with
            | [] => 0
            | (_, c) :: l' => tree_size c + size_children l'
            end) deps
     | None => 0
     end).

Fixpoint forest_size (l : list (jsstring * DependencyNode)) : nat :=
  match l with
  | [] => 0
  | (_, c) :: l' => tree_size c + forest_size l'
  end.

(** The (name, version) pairs occurring in a tree, in visit order. *)
Fixpoint tree_pairs (t : DependencyNode) : list (jsstring * jsstring) :=
  (dn_name t, dn_version t) ::
  match dn_dependencies t with
  | Some deps =>
      (fix pairs_children (l : list (jsstring * DependencyNode))
         : list (jsstring * jsstring) :=
         match l with
         | [] => []
         | (_, c) :: l' => tree_pairs c ++ pairs_children l'
         end) deps
  | None => []
  end.

Fixpoint forest_pairs (l : list (jsstring * DependencyNode))
    : list (jsstring * jsstring) :=
  match l with
  | [] => []
  | (_, c) :: l' => tree_pairs c ++ forest_pairs l'
  end.

(** The node ids the builder computes in a tree visited as [nodeId], in
    visit order: the id of a child is made from its mapping key. *)
Fixpoint tree_ids (nodeId : jsstring) (t : DependencyNode) : list jsstring :=
  nodeId ::
  match dn_dependencies t with
  | Some deps =>
      (fix ids_children (l : list (jsstring * DependencyNode))
         : list jsstring :=
         match l with
         | [] => []
         | (k, c) :: l' =>
             tree_ids (createKey k (dn_version c)) c ++ ids_children l'
         end) deps
  | None => []
  end.

Fixpoint forest_ids (l : list (jsstring * DependencyNode)) : list jsstring :=
  match l with
  | [] => []
  | (k, c) :: l' => tree_ids (createKey k (dn_version c)) c ++ forest_ids l'
  end.

(** Every mapping key of the top level equals the name of its node. *)
Definition top_keyed (l : list (jsstring * DependencyNode)) : bool :=
  forallb (fun '(k, c) => str_eqb k (dn_name c)) l.

(** The same at every level of the tree. *)
Fixpoint well_keyed (t : DependencyNode) : bool :=
  match dn_dependencies t with
  | Some deps =>
      (fix keyed_children (l : list (jsstring * DependencyNode)) : bool :=
         match l with
         | [] => true
         | (k, c) :: l' =>
             str_eqb k (dn_name c) && well_keyed c && keyed_children l'
         end) deps
  | None => true
  end.

Fixpoint well_keyed_forest (l : list (jsstring * DependencyNode)) : bool :=
  match l with
  | [] => true
  | (k, c) :: l' =>
      str_eqb k (dn_name c) && well_keyed c && well_keyed_forest l'
  end.

(** Insertion of a key into the key sequence of a [Map]. *)
Definition add_key (ks : list jsstring) (k : jsstring) : list jsstring :=
  if includes ks k then ks else ks ++ [k].

(** The distinct elements of a sequence, in order of first occurrence. *)
Definition distinct (l : list jsstring) : list jsstring :=
  fold_left add_key l [].

Definition pair_eq_dec (a b : jsstring * jsstring) : {a = b} + {a <> b}.
Proof. repeat decide equality. Defined.

(** [reachable rs ns k]: node [k] is a root or is reached from one by
    following [children] links of the node table [ns]. *)
Inductive reachable (rs : list jsstring) (ns : JsMap GraphNode)
    : jsstring -> Prop :=
| reach_root : forall r, In r rs -> reachable rs ns r
| reach_child : forall p n c,
    reachable rs ns p ->
    map_get ns p = Some n ->
    In c (gn_children n) ->
    reachable rs ns c.

(** The fields of a node that a later visit must not touch. *)
Definition same_identity (n n' : GraphNode) : Prop :=
  gn_id n' = gn_id n /\ gn_name n' = gn_name n /\
  gn_version n' = gn_version n /\ gn_depth n' = gn_depth n /\
  gn_parent n' = gn_parent n /\
  gn_vulnerabilities n' = gn_vulnerabilities n /\
  gn_isDevDependency n' = gn_isDevDependency n.

(** The node table holds one node per (name, version) pair of the tree:
    its keys are all different, every pair of the tree has a node filed
    under its dedup key, and every node is filed under the dedup key of a
    pair of the tree. *)
Definition one_node_per_pair (tree : DependencyTree) : Prop :=
  let g := buildGraph tree in
  let pairs := forest_pairs (dt_dependencies tree) in
  NoDup (map_keys (nodes g)) /\
  (forall n v, In (n, v) pairs ->
     exists node, map_get (nodes g) (createKey n v) = Some node /\
                  gn_id node = createKey n v) /\
  (forall k node, In (k, node) (nodes g) ->
     exists n v, In (n, v) pairs /\ k = createKey n v).

(** Every entry is filed under its own id, and carries the name and
    version of a pair of [P] whose dedup key is that id. *)
Definition entries_ok (P : list (jsstring * jsstring))
    (ns : JsMap GraphNode) : Prop :=
  forall k node, In (k, node) ns ->
    gn_id node = k /\ In (gn_name node, gn_version node) P /\
    k = createKey (gn_name node) (gn_version node).

(** The node table after the first step of [visit_node]: the node is
    created unless its key is present. *)
Definition created (dep : DependencyNode) (nodeId : jsstring) (depth : nat)
    (parent : option jsstring) (ns : JsMap GraphNode) (dev : bool)
    : JsMap GraphNode :=
  if map_has ns nodeId then ns
  else map_set ns nodeId
         (mkGraphNode nodeId (dn_name dep) (dn_version dep) depth parent []
            0 dev).

(** [extends ns ns']: every node of [ns] is still in [ns'], with the same
    identity fields, its [children] list possibly longer at the end. *)
Definition extends (ns ns' : JsMap GraphNode) : Prop :=
  forall k n, map_get ns k = Some n ->
    exists n', map_get ns' k = Some n' /\ same_identity n n' /\
               exists extra, gn_children n' = gn_children n ++ extra.

(** The well-formedness of a graph: the [children] lists and the edges
    name nodes of the table only, and the target of every edge is
    reachable from a root. *)
Definition graph_well_formed (g : DependencyGraph) : Prop :=
  (forall k n c, In (k, n) (nodes g) -> In c (gn_children n) ->
     map_has (nodes g) c = true) /\
  (forall e, In e (edges g) ->
     map_has (nodes g) (from e) = true /\ map_has (nodes g) (to e) = true) /\
  (forall e, In e (edges g) -> reachable (roots g) (nodes g) (to e)).

(** The invariant of the construction, for a root list [rs], a node table
    [ns] and an edge list [es]. *)
Definition build_inv (rs : list jsstring) (ns : JsMap GraphNode)
    (es : list Edge) : Prop :=
  NoDup (map_keys ns) /\
  (forall k n c, map_get ns k = Some n -> In c (gn_children n) ->
     map_has ns c = true) /\
  (forall e, In e es ->
     map_has ns (from e) = true /\ map_has ns (to e) = true) /\
  (forall k, map_has ns k = true -> reachable rs ns k).

(** What a call of [buildNodeRecursive] needs of its [parent] argument:
    a parent that counts is in the table, and a node visited without one
    is a root. *)
Definition link_ok (rs : list jsstring) (ns : JsMap GraphNode)
    (nodeId : jsstring) (parent : option jsstring) : Prop :=
  match truthy_str parent with
  | Some p => map_has ns p = true
  | None => In nodeId rs
  end.

(** ** Paths of a graph *)

(** [walk g k rest]: [k :: rest] is a sequence of nodes of the table,
    each one among the [children] of the one before. *)
Inductive walk (g : DependencyGraph) : jsstring -> list jsstring -> Prop :=
| walk_end : forall k n, map_get (nodes g) k = Some n -> walk g k []
| walk_step : forall k n c rest,
    map_get (nodes g) k = Some n ->
    In c (gn_children n) ->
    walk g c rest ->
    walk g k (c :: rest).

(** A sequence of ids from a root to a node named [target]. *)
Definition target_path (g : DependencyGraph) (target : jsstring)
    (p : list jsstring) : Prop :=
  exists r rest n,
    p = r :: rest /\ In r (roots g) /\ walk g r rest /\
    map_get (nodes g) (last rest r) = Some n /\ gn_name n = target.

(** [findDependencyPath] returns every sequence of ids from a root to a
    node named [target]. *)
Definition finds_all_target_paths (g : DependencyGraph) (target : jsstring)
    : Prop :=
  exists fuel ps,
    findDependencyPath fuel g target = Some ps /\
    forall p, In p ps <-> target_path g target p.

(** [descends g target k rest]: [k :: rest] is a walk that ends at a node
    named [target] and passes through no other node of that name. *)
Inductive descends (g : DependencyGraph) (target : jsstring)
    : jsstring -> list jsstring -> Prop :=
| descends_here : forall k n,
    map_get (nodes g) k = Some n ->
    gn_name n = target ->
    descends g target k []
| descends_step : forall k n c rest,
    map_get (nodes g) k = Some n ->
    gn_name n <> target ->
    In c (gn_children n) ->
    descends g target c rest ->
    descends g target k (c :: rest).

(** A sequence of ids from a root to the first node named [target] on
    its way. *)
Definition first_match_path (g : DependencyGraph) (target : jsstring)
    (p : list jsstring) : Prop :=
  exists r rest, p = r :: rest /\ In r (roots g) /\ descends g target r rest.

(** The list a traversal is iterating over after the ids [pre]: the roots
    at the start, else the children of the last id. *)
Definition siblings (g : DependencyGraph) (pre : list jsstring)
    : list jsstring :=
  match rev pre with
  | [] => roots g
  | k :: _ =>
      match map_get (nodes g) k with
      | Some n => gn_children n
      | None => []
      end
  end.

(** [x] occurs before an occurrence of [y] in [l]. *)
Definition before_in (l : list jsstring) (x y : jsstring) : Prop :=
  exists l1 l2 l3, l = l1 ++ x :: l2 ++ y :: l3.

(** Traversal order on paths: where [p] and [q] part, [p] takes the
    earlier entry of the list being iterated (roots in declaration order,
    children in list order). *)
Definition dfs_before (g : DependencyGraph) (p q : list jsstring) : Prop :=
  exists pre x y sp sq,
    p = pre ++ x :: sp /\ q = pre ++ y :: sq /\
    before_in (siblings g pre) x y.

(** [rank] strictly decreases along every [children] link between nodes
    of the table: the links form no cycle. *)
Definition rank_ok (g : DependencyGraph) (rank : jsstring -> nat) : bool :=
  forallb
    (fun '(k, n) =>
       forallb
         (fun c =>
            match map_get (nodes g) c with
            | Some _ => Nat.ltb (rank c) (rank k)
            | None => true
            end)
         (gn_children n))
    (nodes g).

(** The paths a traversal adds for one entry [c] of the list it iterates
    over, [path] being the ids above it. *)
Definition visit_entry (fuel : nat) (g : DependencyGraph)
    (target : jsstring) (path : list jsstring) (c : jsstring)
    : option (list (list jsstring)) :=
  match map_get (nodes g) c with
  | None => Some []
  | Some n =>
      if str_eqb (gn_name n) target then Some [path ++ [c]]
      else findPathsRecursive fuel g c target (path ++ [c])
  end.

(** What one entry contributes: the walks from it to the first node
    named [target], each below [path], in traversal order. *)
Definition entry_spec (g : DependencyGraph) (target : jsstring) (fuel : nat)
    : Prop :=
  forall path c sub,
    visit_entry fuel g target path c = Some sub ->
    (forall p, In p sub <->
       exists rest, descends g target c rest /\ p = path ++ c :: rest) /\
    ForallOrdPairs (dfs_before g) sub.

(** What a loop over the entries [l] adds to the accumulator. *)
Definition children_spec (g : DependencyGraph) (target : jsstring)
    (fuel : nat) : Prop :=
  forall path l acc ps,
    findChildren fuel g target path l acc = Some ps ->
    exists sub,
      ps = acc ++ sub /\
      (forall p, In p sub <->
         exists c rest,
           In c l /\ descends g target c rest /\ p = path ++ c :: rest) /\
      (forall l0, siblings g path = l0 ++ l ->
         ForallOrdPairs (dfs_before g) sub).

(** ** The run-time object graph *)



(** ** Package references *)




(** ** Documents *)

Section DocumentVocabulary.
Context {P : Platform}.

(** The finding matches a package of the canonical package set. *)
Definition resolves (packageMap : JsMap PackageMetadata)
    (vuln : Vulnerability) : bool :=
  map_has packageMap (createKey (v_package vuln) (v_version vuln)).

(** The document with the fields that change from run to run set to
    given values. *)
Definition with_serial (serial timestamp : jsstring) (bom : CycloneDxBom)
    : CycloneDxBom :=
  mkCycloneDxBom (bomFormat bom) (specVersion bom) serial (bom_version bom)
    timestamp (metadata_tools bom) (metadata_component bom) (components bom)
    (dependencies bom) (vulnerabilities bom).

Definition with_namespace (namespace created : jsstring) (doc : SpdxDocument)
    : SpdxDocument :=
  mkSpdxDocument (spdx_SPDXID doc) (spdxVersion doc) (dataLicense doc)
    (spdx_name doc) namespace created (creationInfo_creators doc)
    (creationInfo_licenseListVersion doc) (packages doc) (relationships doc)
    (annotations doc).

(** Two runs of a renderer agree: both throw the same error, or both
    return and the documents are related by [R]. *)
Definition same_outcome {A : Type} (R : A -> A -> Prop) (x y : outcome A)
    : Prop :=
  match x, y with
  | Ok a, Ok b => R a b
  | Throw e1, Throw e2 => e1 = e2
  | _, _ => False
  end.
End DocumentVocabulary.

(** The dedup key of a package of the flat list. *)
Definition pkg_key (p : PackageInfo) : jsstring :=
  createKey (pi_name p) (pi_version p).

(** The metadata of a package are those of its own name and version. *)
Definition metadata_ok (m : PackageMetadata) : Prop :=
  spdxRef m = createSpdxRef (pi_name (info m)) (pi_version (info m)) /\
  createBomRef (pi_name (info m)) (pi_version (info m)) = Ok (bomRef m).





Section ClaimVocabulary.
Context {P : Platform}.


End ClaimVocabulary.

(** Structural induction on dependency trees, through the child lists. *)
Section DependencyNodeInduction.
Variable Q : DependencyNode -> Prop.
Hypothesis Hleaf : forall n v r, Q (mkDependencyNode n v r None).
Hypothesis Hnode : forall n v r deps,
  Forall (fun kc => Q (snd kc)) deps ->
  Q (mkDependencyNode n v r (Some deps)).

Fixpoint DependencyNode_induction (t : DependencyNode) : Q t :=
  match t with
  | mkDependencyNode n v r None => Hleaf n v r
  | mkDependencyNode n v r (Some deps) =>
      Hnode n v r
        ((fix all (l : list (jsstring * DependencyNode))
            : Forall (fun kc => Q (snd kc)) l :=
            match l with
            | [] => Forall_nil _
            | kc :: l' =>
                Forall_cons kc (DependencyNode_induction (snd kc)) (all l')
            end) deps)
  end.
End DependencyNodeInduction.

(** ** More vocabulary for the graph builder *)

(** What [buildNodeRecursive] needs of its arguments to keep the parent
    links of the table sound: a node visited without a parent is visited
    at depth 0 and is a root; a parent is a non-empty id of the table and
    comes with a positive depth. *)
Definition call_ok (rs : list jsstring) (ns : JsMap GraphNode)
    (nodeId : jsstring) (depth : nat) (parent : option jsstring) : Prop :=
  match parent with
  | None => depth = 0 /\ In nodeId rs
  | Some p => p <> [] /\ 0 < depth /\ map_has ns p = true
  end.

(** The parent link of every node is sound: a node without a parent has
    depth 0 and is a root; a node with a parent has a positive depth and
    is among the [children] of that parent, a node of the table. *)
Definition parent_links_ok (rs : list jsstring) (ns : JsMap GraphNode)
    : Prop :=
  forall k n, map_get ns k = Some n ->
    match gn_parent n with
    | None => gn_depth n = 0 /\ In k rs
    | Some p =>
        0 < gn_depth n /\
        exists pn, map_get ns p = Some pn /\ In k (gn_children pn)
    end.

(** The targets of the edges that leave [p], in order. *)
Definition targets_from (p : jsstring) (es : list Edge) : list jsstring :=
  map to (filter (fun e => str_eqb (from e) p) es).

(** The [children] list of every node is the list of the distinct targets
    of the edges that leave it, in order of first occurrence; and edges
    leave nodes of the table only. *)
Definition children_are_targets (ns : JsMap GraphNode) (es : list Edge)
    : Prop :=
  (forall p pn, map_get ns p = Some pn ->
     gn_children pn = distinct (targets_from p es)) /\
  (forall e, In e es -> map_has ns (from e) = true).

(** The nodes of the later table are nodes of the earlier one, identity
    fields kept, or carry the flag [dev] and no vulnerability. *)
Definition flagged_since (dev : bool) (ns ns' : JsMap GraphNode) : Prop :=
  forall k n, map_get ns' k = Some n ->
    (exists n0, map_get ns k = Some n0 /\ same_identity n0 n) \/
    (gn_id n = k /\ gn_vulnerabilities n = 0 /\ gn_isDevDependency n = dev).

(** ** Vocabulary for the visualizer *)

Definition is_connector (c : jsstring) : Prop :=
  c = last_branch \/ c = mid_branch.

(** A line of the tree view written below a call at depth [depth0] with
    prefix [prefix0]: the label of a node of the table behind the prefix
    and one branch connector per level below [depth0], at a depth that
    [maxDepth] allows. *)
Definition tree_line (g : DependencyGraph) (maxDepth : option Z)
    (showVersions : bool) (highlightVulns : option bool) (depth0 : nat)
    (prefix0 : jsstring) (line : jsstring) : Prop :=
  exists connectors node,
    Forall is_connector connectors /\
    exceeds (depth0 + length connectors) maxDepth = false /\
    In node (map_values (nodes g)) /\
    line = prefix0 ++ concat connectors
             ++ tree_label showVersions highlightVulns node.

(** The line of a node in the DOT output when it is drawn black and
    solid. *)
Definition plain_dot_node_line (options : VisualizationOptions)
    (id : jsstring) (node : GraphNode) : jsstring :=
  let label :=
    if truthy_bool (vo_showVersions options)
    then gn_name node ++ js "@" ++ gn_version node
    else gn_name node in
  js "  " ++ [34%N] ++ id ++ [34%N] ++ js " [label=" ++ [34%N] ++ label
    ++ [34%N] ++ js ", color=" ++ [34%N] ++ js "black" ++ [34%N]
    ++ js ", style=" ++ [34%N] ++ js "solid" ++ [34%N] ++ js "];".

(** ** Vocabulary for the identity canonicalizer *)

(** No two ['-'] in a row. *)
Fixpoint no_double_dash (s : jsstring) : bool :=
  match s with
  | [] => true
  | c :: s' =>
      match s' with
      | d :: _ => negb (N.eqb c 45 && N.eqb d 45) && no_double_dash s'
      | [] => true
      end
  end.

(** A string is well formed as a list of UTF-16 code units. *)
Definition valid_units (s : jsstring) : Prop :=
  Forall (fun c => (c < 65536)%N) s.

(** The characters of a percent-encoded string: the unreserved ones and
    ['%']. *)
Definition uri_safe (c : N) : bool := is_unreserved c || N.eqb c 37.

(** The names on which [createBomRef] loses nothing: the unscoped ones,
    and the scoped ones with exactly one ['/']. *)
Definition plain_name (name : jsstring) : Prop :=
  startsWith name 64 = false \/
  exists scope pkg,
    name = js "@" ++ scope ++ js "/" ++ pkg /\
    ~ In 47%N scope /\ ~ In 47%N pkg.

(** The three ways [encodeURIComponent] gets past the head of a string:
    it copies an unreserved unit, escapes a surrogate pair as one code
    point, or escapes a single unit. *)
Inductive enc_step : jsstring -> jsstring -> Prop :=
  | enc_nil : enc_step [] []
  | enc_copy c s r :
      is_unreserved c = true -> encodeURIComponent s = Ok r ->
      enc_step (c :: s) (c :: r)
  | enc_pair c d s r :
      is_unreserved c = false ->
      (55296 <= c <= 56319)%N -> (56320 <= d <= 57343)%N ->
      encodeURIComponent s = Ok r ->
      enc_step (c :: d :: s)
        (flat_map percent
           (utf8 (65536 + (c - 55296) * 1024 + (d - 56320))%N) ++ r)
  | enc_escape c s r :
      is_unreserved c = false ->
      is_high_surrogate c = false -> is_low_surrogate c = false ->
      encodeURIComponent s = Ok r ->
      enc_step (c :: s) (flat_map percent (utf8 c) ++ r).

(** ** Vocabulary for the documents *)

(** [k] is the reference of a (name, version) pair of [ps]. *)
Definition ref_of (ps : list (jsstring * jsstring)) (k : jsstring) : Prop :=
  exists n v, In (n, v) ps /\ createBomRef n v = Ok k.

(** The dependency map of the CycloneDX renderer is closed: no key and no
    member of a set occurs twice, and every member of a set is a key,
    with the possible exception of [pending], the reference whose key the
    next call of [traverseNode] adds. *)
Definition deps_closed (g : JsMap (list jsstring))
    (pending : option jsstring) : Prop :=
  NoDup (map_keys g) /\
  forall k ds, map_get g k = Some ds ->
    NoDup ds /\
    forall d, In d ds -> map_has g d = true \/ Some d = pending.

(** [replace(/[^A-Za-z0-9-.]+/g, '-').replace(/-+/g, '-')] in one pass:
    every maximal run of units outside [[A-Za-z0-9.]] becomes one
    ['-']. *)
Fixpoint dash_runs (in_run : bool) (s : jsstring) : jsstring :=
  match s with
  | [] => []
  | c :: s' =>
      if spdx_allowed c && negb (N.eqb c 45) then c :: dash_runs false s'
      else if in_run then dash_runs true s'
      else 45%N :: dash_runs true s'
  end.

(** The component the CycloneDX renderer writes for a package. *)
Definition component_of (p : PackageInfo) (ref : jsstring) : Component :=
  mkComponent ref (js "library") (pi_name p) (pi_version p) ref
    (if pi_isDevDependency p then js "optional" else js "required")
    [(js "securesync:direct",
      if pi_isDirect p then js "true" else js "false")].

(** ** Vocabulary for the scanner *)

(** Every node of the forest is an entry of the lockfile: it has the
    version the lockfile gives its name. *)
Definition from_lockfile (lockfile : Lockfile)
    (l : list (jsstring * DependencyNode)) : Prop :=
  forall n v, In (n, v) (forest_pairs l) ->
    exists e, lock_lookup lockfile n = Some e /\ le_version e = v.


(** The id the builder gives a top-level entry. *)
Definition top_id (kc : jsstring * DependencyNode) : jsstring :=
  createKey (fst kc) (dn_version (snd kc)).

(** The keys [collectAllPackages] visits: those of the nodes below the
    top level, each made from the mapping key and the node's version. *)
Fixpoint inner_ids (l : list (jsstring * DependencyNode)) : list jsstring :=
  match l with
  | [] => []
  | (_, c) :: l' =>
      match dn_dependencies c with
      | Some deps => forest_ids deps
      | None => []
      end ++ inner_ids l'
  end.

(** What a part of the traversal that visits the keys [ids] does to the
    state: it appends packages that are not direct and carry the flag
    [isDev], one for each key that was not seen, and keeps [seen] the set
    of the keys of [packages]. *)
Definition collects (ids : list jsstring) (isDev : bool)
    (st st' : CollectState) : Prop :=
  exists added,
    snd st' = snd st ++ added /\
    Forall (fun p => pi_isDirect p = false /\ pi_isDevDependency p = isDev)
      added /\
    NoDup (map pkg_key added) /\
    (forall k, In k (map pkg_key added) -> ~ In k (fst st) /\ In k ids) /\
    (forall k, In k (fst st') <-> In k (fst st) \/ In k (map pkg_key added)) /\
    (forall k, In k ids -> In k (fst st')).

(** [lock_dep lockfile n m]: the entry of [n] lists [m] among its
    dependencies, and [m] has an entry. *)
Definition lock_dep (lockfile : Lockfile) (n m : jsstring) : Prop :=
  exists e entries r e',
    lock_lookup lockfile n = Some e /\
    le_dependencies e = Some entries /\
    In (m, r) entries /\
    lock_lookup lockfile m = Some e'.

(** The transitive closure of [lock_dep]; [reaches lockfile n n] says
    that [n] lies on a cycle. *)
Inductive reaches (lockfile : Lockfile) : jsstring -> jsstring -> Prop :=
| reaches_step : forall n m, lock_dep lockfile n m -> reaches lockfile n m
| reaches_more : forall n m k,
    lock_dep lockfile n m -> reaches lockfile m k -> reaches lockfile n k.

(** The position of a severity in [SEVERITIES]. *)
Definition severity_index (s : Severity) : Z :=
  match s with
  | Low => 0
  | Moderate => 1
  | High => 2
  | Critical => 3
  end.

(* ===================================================================== *)
(** * Example inputs                                                      *)
(* ===================================================================== *)

Definition leaf (name version : string) : DependencyNode :=
  mkDependencyNode (js name) (js version) [] None.

Definition branch (name version : string)
    (deps : list (jsstring * DependencyNode)) : DependencyNode :=
  mkDependencyNode (js name) (js version) [] (Some deps).

(** The diamond of the specification: [package-a] and [package-c] both
    depend on [package-b@2.0.0]. *)
Definition diamond_tree : DependencyTree :=
  mkDependencyTree (js "test-project") (js "1.0.0")
    [(js "package-a",
      branch "package-a" "1.0.0" [(js "package-b", leaf "package-b" "2.0.0")]);
     (js "package-c",
      branch "package-c" "1.0.0" [(js "package-b", leaf "package-b" "2.0.0")])]
    [].

(** A tree whose top-level keys are the names of their nodes, with a
    nested entry filed under the key [x] for a node named [b]. *)
Definition alias_tree : DependencyTree :=
  mkDependencyTree (js "app") (js "1")
    [(js "a", branch "a" "1" [(js "x", leaf "b" "2")])] [].

(** A node named [a] below a node named [a]. *)
Definition nested_tree : DependencyTree :=
  mkDependencyTree (js "app") (js "1")
    [(js "a", branch "a" "1" [(js "a", leaf "a" "2")])] [].

(** A finite tree in which [a@1] occurs below itself. *)
Definition cyclic_tree : DependencyTree :=
  mkDependencyTree (js "app") (js "1")
    [(js "a", branch "a" "1" [(js "b", branch "b" "1" [(js "a", leaf "a" "1")])])]
    [].



Definition diamond_rank (k : jsstring) : nat :=
  if str_eqb k (js "package-b@2.0.0") then 0 else 1.

(** A platform for the examples: integer scores, dates given by their
    ISO string. *)
Definition example_platform : Platform :=
  mkPlatform (fun score : Z => negb (Z.eqb score 0))
    (fun date : jsstring => date) (Some (js "1.0.0"))
    (fun dir file => dir ++ js "/" ++ file).



Definition spdx_options (attach : bool) : SbomGenerateOptions :=
  mkSbomGenerateOptions (Some spdx) None (Some attach) None None.

Definition cyclonedx_options (attach : bool) : SbomGenerateOptions :=
  mkSbomGenerateOptions (Some cyclonedx) None (Some attach) None None.

(** The scenario of the test suite: [demo-app] with [lodash] and [chalk],
    and one finding on [lodash@4.17.21]. *)
Definition demo_tree : DependencyTree :=
  mkDependencyTree (js "demo-app") (js "1.0.0")
    [(js "lodash", leaf "lodash" "4.17.21");
     (js "chalk", leaf "chalk" "5.3.0")]
    [mkPackageInfo (js "lodash") (js "4.17.21") false true;
     mkPackageInfo (js "chalk") (js "5.3.0") true true].

Definition demo_finding (package version : string)
    : @Vulnerability example_platform :=
  @mkVulnerability example_platform (js "CVE-2024-0001") High (js package)
    (js version) [js "4.17.22"] (js "Prototype pollution")
    (Some [js "https://nvd.nist.gov/vuln/detail/CVE-2024-0001"]) (Some 8%Z).

Definition demo_scan (findings : list (@Vulnerability example_platform))
    : @ScanResult example_platform :=
  @mkScanResult example_platform findings 2 (js "2024-02-01T00:00:00.000Z")
    demo_tree (mkScanSummary 0 1 0 0).

(** A project with [lodash] and [chalk], where [chalk] depends on
    [ansi-styles], and [jest] as a dev dependency. *)
Definition demo_packageJson : PackageJson :=
  mkPackageJson (js "demo-app") (js "1.0.0")
    (Some [(js "lodash", js "^4.17.21"); (js "chalk", js "^5.3.0")])
    (Some [(js "jest", js "^29.0.0")]).

Definition demo_lockfile : Lockfile :=
  mkLockfile
    (Some [(js "node_modules/lodash",
            mkLockEntry (js "4.17.21") None None);
           (js "node_modules/chalk",
            mkLockEntry (js "5.3.0") None
              (Some [(js "ansi-styles", js "^6.2.1")]));
           (js "node_modules/ansi-styles",
            mkLockEntry (js "6.2.1") None None);
           (js "node_modules/jest",
            mkLockEntry (js "29.7.0") None (Some []))]).


(** Two packages that depend on each other. *)
Definition cyclic_packageJson : PackageJson :=
  mkPackageJson (js "app") (js "1.0.0") (Some [(js "a", js "^1.0.0")]) None.

Definition cyclic_lockfile : Lockfile :=
  mkLockfile
    (Some [(js "node_modules/a",
            mkLockEntry (js "1.0.0") None (Some [(js "b", js "^1.0.0")]));
           (js "node_modules/b",
            mkLockEntry (js "1.0.0") None (Some [(js "a", js "^1.0.0")]))]).

(** [toLowerCase] on ASCII strings. *)
Definition ascii_toLowerCase (s : jsstring) : jsstring :=
  map (fun c => if (N.leb 65 c && N.leb c 90)%bool then (c + 32)%N else c) s.

(* ===================================================================== *)
(** * Properties: strings and maps                                        *)
(* ===================================================================== *)

Unset Implicit Arguments.

Lemma str_eqb_eq (a b : jsstring) : str_eqb a b = true <-> a = b.
Proof.
  revert b; induction a as [|x a IH]; intros [|y b]; simpl;
    try (split; [discriminate | congruence]); try tauto.
  rewrite andb_true_iff, N.eqb_eq, IH. split; [intros [-> ->] | intros [= -> ->]]; auto.
Qed.

Lemma str_eqb_refl (a : jsstring) : str_eqb a a = true.
Proof. now apply str_eqb_eq. Qed.

Lemma str_eqb_neq (a b : jsstring) : str_eqb a b = false <-> a <> b.
Proof.
  rewrite <- str_eqb_eq. destruct (str_eqb a b); split; congruence.
Qed.

Lemma str_eqb_sym (a b : jsstring) : str_eqb a b = str_eqb b a.
Proof.
  destruct (str_eqb a b) eqn:E.
  - apply str_eqb_eq in E; subst. now rewrite str_eqb_refl.
  - symmetry. apply str_eqb_neq. apply str_eqb_neq in E. congruence.
Qed.

Lemma includes_In (l : list jsstring) (x : jsstring) :
  includes l x = true <-> In x l.
Proof.
  unfold includes. rewrite existsb_exists. split.
  - intros (y & Hy & E). apply str_eqb_eq in E. now subst.
  - intros H. exists x. split; [assumption | apply str_eqb_refl].
Qed.

Lemma includes_not_In (l : list jsstring) (x : jsstring) :
  includes l x = false <-> ~ In x l.
Proof.
  rewrite <- includes_In. destruct (includes l x); split; congruence.
Qed.

Section JsMapFacts.
Context {V : Type}.
Implicit Types (m : JsMap V) (k : jsstring) (v : V).

Lemma map_get_set_same m k v : map_get (map_set m k v) k = Some v.
Proof.
  induction m as [|[k' v'] m IH]; simpl.
  - now rewrite str_eqb_refl.
  - destruct (str_eqb k' k) eqn:E; simpl; rewrite E; auto.
Qed.

Lemma map_get_set_other m k k' v :
  k <> k' -> map_get (map_set m k v) k' = map_get m k'.
Proof.
  intros Hne. induction m as [|[k0 v0] m IH]; simpl.
  - apply str_eqb_neq in Hne. now rewrite Hne.
  - destruct (str_eqb k0 k) eqn:E; simpl.
    + apply str_eqb_eq in E; subst k0.
      apply str_eqb_neq in Hne. now rewrite Hne.
    + now rewrite IH.
Qed.

Lemma map_has_In m k : map_has m k = true <-> In k (map_keys m).
Proof.
  unfold map_has, map_keys.
  induction m as [|[k0 v0] m IH]; simpl.
  - split; [discriminate | tauto].
  - destruct (str_eqb k0 k) eqn:E.
    + apply str_eqb_eq in E. tauto.
    + apply str_eqb_neq in E. rewrite IH. tauto.
Qed.

Lemma map_has_false m k : map_has m k = false <-> ~ In k (map_keys m).
Proof.
  rewrite <- map_has_In. destruct (map_has m k); split; congruence.
Qed.

Lemma map_get_Some_has m k v : map_get m k = Some v -> map_has m k = true.
Proof. unfold map_has. now intros ->. Qed.

Lemma map_has_get m k : map_has m k = true -> exists v, map_get m k = Some v.
Proof. unfold map_has. destruct (map_get m k); [eauto | discriminate]. Qed.

Lemma map_get_None_has m k : map_get m k = None <-> map_has m k = false.
Proof. unfold map_has. destruct (map_get m k); split; congruence. Qed.

Lemma map_keys_set m k v :
  map_keys (map_set m k v) = add_key (map_keys m) k.
Proof.
  unfold add_key, map_keys, includes.
  induction m as [|[k0 v0] m IH]; simpl; [reflexivity|].
  rewrite (str_eqb_sym k k0).
  destruct (str_eqb k0 k) eqn:E; simpl; [reflexivity|].
  rewrite IH. now destruct (existsb (str_eqb k) (map fst m)).
Qed.

Lemma map_keys_set_present m k v :
  map_has m k = true -> map_keys (map_set m k v) = map_keys m.
Proof.
  intros H. rewrite map_keys_set. unfold add_key.
  apply map_has_In, includes_In in H. now rewrite H.
Qed.

Lemma map_get_In_values m k v : map_get m k = Some v -> In v (map_values m).
Proof.
  unfold map_values.
  induction m as [|[k0 v0] m IH]; simpl; [discriminate|].
  destruct (str_eqb k0 k); [intros [= ->]; auto | auto].
Qed.

Lemma map_get_In m k v : map_get m k = Some v -> exists k', In (k', v) m /\ k' = k.
Proof.
  induction m as [|[k0 v0] m IH]; simpl; [discriminate|].
  destruct (str_eqb k0 k) eqn:E.
  - intros [= ->]. apply str_eqb_eq in E. eauto.
  - intros H. destruct (IH H) as (k' & Hin & ->). eauto.
Qed.

Lemma In_map_get_NoDup m k v :
  NoDup (map_keys m) -> In (k, v) m -> map_get m k = Some v.
Proof.
  unfold map_keys.
  induction m as [|[k0 v0] m IH]; simpl; [tauto|].
  intros Hnd [[= -> ->]|Hin].
  - now rewrite str_eqb_refl.
  - inversion Hnd as [|? ? Hni Hnd']; subst.
    destruct (str_eqb k0 k) eqn:E.
    + apply str_eqb_eq in E; subst. exfalso. apply Hni.
      change k with (fst (k, v)). now apply in_map.
    + auto.
Qed.
End JsMapFacts.

Lemma add_key_In (ks : list jsstring) (k x : jsstring) :
  In x (add_key ks k) <-> In x ks \/ x = k.
Proof.
  unfold add_key. destruct (includes ks k) eqn:E.
  - apply includes_In in E. split; [tauto | intros [H| ->]; assumption].
  - rewrite in_app_iff. simpl. split; intros [H|H]; auto.
    destruct H as [H|[]]; auto.
Qed.

Lemma add_key_NoDup (ks : list jsstring) (k : jsstring) :
  NoDup ks -> NoDup (add_key ks k).
Proof.
  intros H. unfold add_key. destruct (includes ks k) eqn:E; [assumption|].
  apply includes_not_In in E.
  apply NoDup_app; [assumption | repeat constructor; simpl; tauto |].
  intros x Hx [<-|[]]. contradiction.
Qed.

Lemma fold_add_key_In (l ks : list jsstring) (x : jsstring) :
  In x (fold_left add_key l ks) <-> In x ks \/ In x l.
Proof.
  revert ks; induction l as [|k l IH]; intros ks; simpl; [tauto|].
  rewrite IH, add_key_In. intuition congruence.
Qed.

Lemma fold_add_key_NoDup (l ks : list jsstring) :
  NoDup ks -> NoDup (fold_left add_key l ks).
Proof.
  revert ks; induction l as [|k l IH]; intros ks H; simpl; [assumption|].
  apply IH. now apply add_key_NoDup.
Qed.

Lemma fold_add_key_app (l1 l2 ks : list jsstring) :
  fold_left add_key (l1 ++ l2) ks = fold_left add_key l2 (fold_left add_key l1 ks).
Proof. apply fold_left_app. Qed.

Lemma distinct_In (l : list jsstring) (x : jsstring) :
  In x (distinct l) <-> In x l.
Proof. unfold distinct. rewrite fold_add_key_In. simpl. tauto. Qed.

Lemma distinct_NoDup (l : list jsstring) : NoDup (distinct l).
Proof. apply fold_add_key_NoDup. constructor. Qed.

(* ===================================================================== *)
(** * Properties: the graph builder                                       *)
(* ===================================================================== *)

(** The recursive function in terms of its two loops. *)
Lemma buildNodeRecursive_eq dep nodeId depth parent st dev :
  buildNodeRecursive dep nodeId depth parent st dev =
  match dn_dependencies dep with
  | Some deps =>
      buildChildren deps nodeId depth
        (visit_node dep nodeId depth parent st dev) dev
  | None => visit_node dep nodeId depth parent st dev
  end.
Proof.
  destruct dep as [n v r [deps|]]; simpl; [|reflexivity].
  generalize (visit_node (mkDependencyNode n v r (Some deps)) nodeId depth
                parent st dev).
  induction deps as [|[k c] deps IH]; intros s; simpl; [reflexivity|].
  apply IH.
Qed.

Lemma tree_ids_eq nodeId t :
  tree_ids nodeId t =
  nodeId :: match dn_dependencies t with
            | Some deps => forest_ids deps
            | None => []
            end.
Proof.
  destruct t as [n v r [deps|]]; reflexivity.
Qed.

Lemma tree_pairs_eq t :
  tree_pairs t =
  (dn_name t, dn_version t) ::
  match dn_dependencies t with
  | Some deps => forest_pairs deps
  | None => []
  end.
Proof.
  destruct t as [n v r [deps|]]; reflexivity.
Qed.

Lemma tree_size_eq t :
  tree_size t =
  S (match dn_dependencies t with
     | Some deps => forest_size deps
     | None => 0
     end).
Proof.
  destruct t as [n v r [deps|]]; reflexivity.
Qed.

Lemma well_keyed_eq t :
  well_keyed t =
  match dn_dependencies t with
  | Some deps => well_keyed_forest deps
  | None => true
  end.
Proof.
  destruct t as [n v r [deps|]]; reflexivity.
Qed.

(** ** The key sequence of the node table *)

Lemma visit_node_keys dep nodeId depth parent st dev :
  map_keys (fst (visit_node dep nodeId depth parent st dev)) =
  add_key (map_keys (fst st)) nodeId.
Proof.
  destruct st as [ns es]. unfold visit_node.
  set (n0 := mkGraphNode nodeId _ _ _ _ _ _ _).
  assert (Hk : map_keys (if negb (map_has ns nodeId) then map_set ns nodeId n0
                         else ns) = add_key (map_keys ns) nodeId).
  { destruct (map_has ns nodeId) eqn:E; simpl.
    - unfold add_key. apply map_has_In, includes_In in E. now rewrite E.
    - apply map_keys_set. }
  set (ns1 := if negb (map_has ns nodeId) then _ else ns) in *.
  destruct (truthy_str parent) as [p|]; [|exact Hk].
  destruct (map_get ns1 p) as [pn|] eqn:Ep; [|exact Hk].
  destruct (negb (includes (gn_children pn) nodeId)); [|exact Hk].
  simpl. rewrite map_keys_set_present; [exact Hk|].
  now apply map_get_Some_has in Ep.
Qed.

Lemma build_keys :
  forall dep nodeId depth parent st dev,
    map_keys (fst (buildNodeRecursive dep nodeId depth parent st dev)) =
    fold_left add_key (tree_ids nodeId dep) (map_keys (fst st)).
Proof.
  induction dep using DependencyNode_induction; intros nodeId depth parent st dev;
    rewrite buildNodeRecursive_eq, tree_ids_eq; simpl.
  - apply visit_node_keys.
  - rewrite <- (visit_node_keys (mkDependencyNode n v r (Some deps)) nodeId
                  depth parent st dev).
    generalize (visit_node (mkDependencyNode n v r (Some deps)) nodeId depth
                  parent st dev).
    induction H as [|[k c] deps Hc Hdeps IH]; intros s; simpl; [reflexivity|].
    rewrite IH, fold_add_key_app. f_equal. apply Hc.
Qed.

Lemma buildChildren_keys deps nodeId depth st dev :
  map_keys (fst (buildChildren deps nodeId depth st dev)) =
  fold_left add_key (forest_ids deps) (map_keys (fst st)).
Proof.
  revert st; induction deps as [|[k c] deps IH]; intros st; simpl;
    [reflexivity|].
  now rewrite IH, fold_add_key_app, build_keys.
Qed.

Lemma buildRoots_keys l g :
  map_keys (nodes (buildRoots l g)) =
  fold_left add_key (forest_ids l) (map_keys (nodes g)).
Proof.
  revert g; induction l as [|[k c] l IH]; intros g; simpl; [reflexivity|].
  destruct (buildNodeRecursive c (createKey k (dn_version c)) 0 None
              (nodes g, edges g) false) as [ns es] eqn:E.
  rewrite IH, fold_add_key_app. simpl. f_equal.
  change ns with (fst (ns, es)). rewrite <- E. apply build_keys.
Qed.

(** The keys of the node table are the distinct ids of the tree, in order
    of first visit. *)
Lemma buildGraph_keys tree :
  map_keys (nodes (buildGraph tree)) =
  distinct (forest_ids (dt_dependencies tree)).
Proof. unfold buildGraph. now rewrite buildRoots_keys. Qed.

Lemma well_keyed_tree_ids t :
  well_keyed t = true ->
  tree_ids (createKey (dn_name t) (dn_version t)) t =
  map (fun nv => createKey (fst nv) (snd nv)) (tree_pairs t).
Proof.
  induction t using DependencyNode_induction; intros Hk;
    rewrite tree_ids_eq, tree_pairs_eq; simpl; [reflexivity|].
  f_equal. rewrite well_keyed_eq in Hk. simpl in Hk.
  induction H as [|[k c] deps Hc Hdeps IH]; simpl; [reflexivity|].
  simpl in Hk. apply andb_true_iff in Hk as [Hk Hk3].
  apply andb_true_iff in Hk as [Hk1 Hk2].
  apply str_eqb_eq in Hk1. subst k.
  rewrite map_app, IH by assumption. f_equal. now apply Hc.
Qed.

Lemma well_keyed_forest_ids l :
  well_keyed_forest l = true ->
  forest_ids l = map (fun nv => createKey (fst nv) (snd nv)) (forest_pairs l).
Proof.
  induction l as [|[k c] l IH]; simpl; [reflexivity|]. intros Hk.
  apply andb_true_iff in Hk as [Hk Hk3].
  apply andb_true_iff in Hk as [Hk1 Hk2].
  apply str_eqb_eq in Hk1. subst k.
  now rewrite map_app, IH, well_keyed_tree_ids.
Qed.

(** ** The entries of the node table *)

Lemma map_set_entries {V : Type} (m : JsMap V) k v k' v' :
  In (k', v') (map_set m k v) -> In (k', v') m \/ (k' = k /\ v' = v).
Proof.
  induction m as [|[k0 v0] m IH]; simpl.
  - intros [[= <- <-]|[]]. auto.
  - destruct (str_eqb k0 k) eqn:E; simpl.
    + apply str_eqb_eq in E. subst k0.
      intros [[= <- <-]|H]; auto.
    + intros [H|H]; auto. destruct (IH H); auto.
Qed.

Lemma visit_node_entries P dep nodeId depth parent st dev :
  nodeId = createKey (dn_name dep) (dn_version dep) ->
  In (dn_name dep, dn_version dep) P ->
  entries_ok P (fst st) ->
  entries_ok P (fst (visit_node dep nodeId depth parent st dev)).
Proof.
  intros Hid Hin Hok. destruct st as [ns es]. unfold visit_node.
  set (n0 := mkGraphNode nodeId _ _ _ _ _ _ _).
  assert (H1 : entries_ok P (if negb (map_has ns nodeId)
                              then map_set ns nodeId n0 else ns)).
  { destruct (negb (map_has ns nodeId)); [|exact Hok].
    intros k node Hk. apply map_set_entries in Hk as [Hk|[-> ->]].
    - now apply Hok.
    - simpl. auto. }
  set (ns1 := if negb (map_has ns nodeId) then _ else ns) in *.
  destruct (truthy_str parent) as [p|]; [|exact H1].
  destruct (map_get ns1 p) as [pn|] eqn:Ep; [|exact H1].
  destruct (negb (includes (gn_children pn) nodeId)); [|exact H1].
  simpl. intros k node Hk. apply map_set_entries in Hk as [Hk|[-> ->]].
  - now apply H1.
  - apply map_get_In in Ep as (k' & Hin' & ->).
    destruct (H1 _ _ Hin') as (Ha & Hb & Hc). simpl. auto.
Qed.

Lemma build_entries P :
  forall dep nodeId depth parent st dev,
    well_keyed dep = true ->
    nodeId = createKey (dn_name dep) (dn_version dep) ->
    incl (tree_pairs dep) P ->
    entries_ok P (fst st) ->
    entries_ok P (fst (buildNodeRecursive dep nodeId depth parent st dev)).
Proof.
  induction dep using DependencyNode_induction;
    intros nodeId depth parent st dev Hk Hid Hincl Hok;
    rewrite buildNodeRecursive_eq; rewrite tree_pairs_eq in Hincl;
    rewrite well_keyed_eq in Hk; simpl in *.
  - apply visit_node_entries; auto. apply Hincl. now left.
  - assert (Hv : entries_ok P
             (fst (visit_node (mkDependencyNode n v r (Some deps)) nodeId
                     depth parent st dev))).
    { apply visit_node_entries; auto. apply Hincl. now left. }
    revert Hv.
    generalize (visit_node (mkDependencyNode n v r (Some deps)) nodeId depth
                  parent st dev).
    assert (Hincl' : incl (forest_pairs deps) P).
    { intros x Hx. apply Hincl. now right. }
    clear Hincl Hok. revert Hk Hincl'.
    induction H as [|[k c] deps Hc Hdeps IH]; intros Hk Hincl s Hs; simpl;
      [assumption|].
    simpl in Hk, Hincl.
    apply andb_true_iff in Hk as [Hk Hk3].
    apply andb_true_iff in Hk as [Hk1 Hk2].
    apply str_eqb_eq in Hk1. subst k.
    apply IH; auto.
    + intros x Hx. apply Hincl, in_or_app. now right.
    + apply Hc; auto. intros x Hx. apply Hincl, in_or_app. now left.
Qed.

Lemma buildRoots_entries P l g :
  well_keyed_forest l = true ->
  incl (forest_pairs l) P ->
  entries_ok P (nodes g) ->
  entries_ok P (nodes (buildRoots l g)).
Proof.
  revert g; induction l as [|[k c] l IH]; intros g Hk Hincl Hok; simpl;
    [assumption|].
  simpl in Hk, Hincl.
  apply andb_true_iff in Hk as [Hk Hk3].
  apply andb_true_iff in Hk as [Hk1 Hk2].
  apply str_eqb_eq in Hk1. subst k.
  destruct (buildNodeRecursive c (createKey (dn_name c) (dn_version c)) 0 None
              (nodes g, edges g) false) as [ns es] eqn:E.
  apply IH; auto.
  - intros x Hx. apply Hincl, in_or_app. now right.
  - simpl. change ns with (fst (ns, es)). rewrite <- E.
    apply build_entries; auto.
    intros x Hx. apply Hincl, in_or_app. now left.
Qed.

Lemma length_distinct_map_le (f : jsstring * jsstring -> jsstring)
    (l : list (jsstring * jsstring)) :
  length (distinct (map f l)) <= length (nodup pair_eq_dec l).
Proof.
  rewrite <- (length_map f (nodup pair_eq_dec l)).
  apply NoDup_incl_length; [apply distinct_NoDup|].
  intros x Hx. apply distinct_In, in_map_iff in Hx as (p & <- & Hp).
  apply in_map, nodup_In, Hp.
Qed.

Lemma length_distinct_map_inj (f : jsstring * jsstring -> jsstring)
    (l : list (jsstring * jsstring)) :
  (forall p q, In p l -> In q l -> f p = f q -> p = q) ->
  length (distinct (map f l)) = length (nodup pair_eq_dec l).
Proof.
  intros Hinj. apply Nat.le_antisymm; [apply length_distinct_map_le|].
  rewrite <- (length_map f (nodup pair_eq_dec l)).
  apply NoDup_incl_length.
  - apply NoDup_map_NoDup_ForallPairs; [|apply NoDup_nodup].
    intros p q Hp Hq. apply Hinj; eapply nodup_In; eassumption.
  - intros x Hx. apply in_map_iff in Hx as (p & <- & Hp).
    apply distinct_In, in_map. eapply nodup_In, Hp.
Qed.

(** C1 (as stated, with the keys of the top-level mapping alone equal to
    the names of their nodes): refuted by [alias_tree], whose nested
    entry [x -> b@2] gives a node filed under [x@2] and none under
    [b@2]. *)
Lemma buildGraph_top_keyed_counterexample :
  top_keyed (dt_dependencies alias_tree) = true /\
  ~ one_node_per_pair alias_tree.
Proof.
  split; [reflexivity|].
  intros (_ & Hpairs & _).
  destruct (Hpairs (js "b") (js "2")) as (node & Hget & _).
  - simpl. auto.
  - vm_compute in Hget. discriminate.
Qed.

(** C1 (amended): when every mapping of the tree, at every level, files
    each node under its name, the node table of [buildGraph] holds one
    node per dedup key of the tree: the keys are all different, every
    (name, version) pair of the tree has the node filed under
    [name@version], every node is filed under its own id, which is the
    dedup key of its name and version, a pair of the tree; the table is
    never larger than the set of distinct pairs, and as large when
    different pairs have different dedup keys. *)
Theorem buildGraph_one_node_per_key (tree : DependencyTree) :
  well_keyed_forest (dt_dependencies tree) = true ->
  let g := buildGraph tree in
  let pairs := forest_pairs (dt_dependencies tree) in
  one_node_per_pair tree /\
  (forall k node, In (k, node) (nodes g) ->
     gn_id node = k /\ In (gn_name node, gn_version node) pairs /\
     k = createKey (gn_name node) (gn_version node)) /\
  map_keys (nodes g) =
    distinct (map (fun nv => createKey (fst nv) (snd nv)) pairs) /\
  length (nodes g) <= length (nodup pair_eq_dec pairs) /\
  ((forall p q, In p pairs -> In q pairs ->
      createKey (fst p) (snd p) = createKey (fst q) (snd q) -> p = q) ->
   length (nodes g) = length (nodup pair_eq_dec pairs)).
Proof.
  intros Hk g pairs.
  assert (Hkeys : map_keys (nodes g) =
            distinct (map (fun nv => createKey (fst nv) (snd nv)) pairs)).
  { unfold g, pairs. now rewrite buildGraph_keys, well_keyed_forest_ids. }
  assert (Hent : entries_ok pairs (nodes g)).
  { unfold g, buildGraph. apply buildRoots_entries; auto.
    - apply incl_refl.
    - intros k node []. }
  assert (Hnd : NoDup (map_keys (nodes g))).
  { rewrite Hkeys. apply distinct_NoDup. }
  assert (Hlen : length (nodes g) = length (map_keys (nodes g))).
  { unfold map_keys. now rewrite length_map. }
  repeat split.
  - exact Hnd.
  - intros n v Hin.
    assert (Hin' : In (createKey n v) (map_keys (nodes g))).
    { rewrite Hkeys. apply distinct_In.
      change (createKey n v) with
        ((fun nv => createKey (fst nv) (snd nv)) (n, v)).
      now apply in_map. }
    apply map_has_In, map_has_get in Hin' as (node & Hget).
    exists node. split; [assumption|].
    apply map_get_In in Hget as (k' & Hin'' & ->).
    now destruct (Hent _ _ Hin'').
  - intros k node Hin. destruct (Hent _ _ Hin) as (_ & Hp & ->). eauto.
  - now destruct (Hent _ _ H).
  - now destruct (Hent _ _ H) as (_ & ? & _).
  - now destruct (Hent _ _ H) as (_ & _ & ?).
  - exact Hkeys.
  - rewrite Hlen, Hkeys. apply length_distinct_map_le.
  - intros Hinj. rewrite Hlen, Hkeys. apply length_distinct_map_inj.
    intros p q. apply Hinj.
Qed.

Lemma buildGraph_one_node_per_key_witness :
  well_keyed_forest (dt_dependencies diamond_tree) = true /\
  one_node_per_pair diamond_tree /\
  length (nodes (buildGraph diamond_tree)) = 3.
Proof.
  split; [reflexivity|]. split.
  - apply (buildGraph_one_node_per_key diamond_tree). reflexivity.
  - reflexivity.
Defined.

(** ** Frame: what a visit leaves alone *)

Lemma same_identity_refl n : same_identity n n.
Proof. unfold same_identity. tauto. Qed.

Lemma same_identity_trans n1 n2 n3 :
  same_identity n1 n2 -> same_identity n2 n3 -> same_identity n1 n3.
Proof. unfold same_identity. intuition congruence. Qed.

Lemma extends_refl ns : extends ns ns.
Proof.
  intros k n H. exists n. split; [assumption|]. split.
  - apply same_identity_refl.
  - exists []. now rewrite app_nil_r.
Qed.

Lemma extends_trans ns1 ns2 ns3 :
  extends ns1 ns2 -> extends ns2 ns3 -> extends ns1 ns3.
Proof.
  intros H12 H23 k n H.
  destruct (H12 _ _ H) as (n2 & Hg2 & Hs2 & x2 & Hc2).
  destruct (H23 _ _ Hg2) as (n3 & Hg3 & Hs3 & x3 & Hc3).
  exists n3. split; [assumption|]. split.
  - eapply same_identity_trans; eassumption.
  - exists (x2 ++ x3). now rewrite Hc3, Hc2, app_assoc.
Qed.

Lemma extends_has ns ns' k :
  extends ns ns' -> map_has ns k = true -> map_has ns' k = true.
Proof.
  intros He Hh. apply map_has_get in Hh as (n & Hn).
  destruct (He _ _ Hn) as (n' & Hn' & _). eapply map_get_Some_has, Hn'.
Qed.

Lemma extends_set_new ns k n :
  map_has ns k = false -> extends ns (map_set ns k n).
Proof.
  intros Hnew k' n' Hget. exists n'.
  assert (k <> k').
  { intros ->. apply map_get_Some_has in Hget. congruence. }
  rewrite map_get_set_other by assumption. split; [assumption|]. split.
  - apply same_identity_refl.
  - exists []. now rewrite app_nil_r.
Qed.

Lemma extends_push ns p pn c :
  map_get ns p = Some pn -> extends ns (map_set ns p (push_child pn c)).
Proof.
  intros Hp k n Hget. destruct (str_eqb p k) eqn:E.
  - apply str_eqb_eq in E. subst k. rewrite Hp in Hget. injection Hget as <-.
    exists (push_child pn c). rewrite map_get_set_same. split; [reflexivity|].
    split; [unfold same_identity; simpl; tauto|]. now exists [c].
  - apply str_eqb_neq in E. exists n. rewrite map_get_set_other by assumption.
    split; [assumption|]. split.
    + apply same_identity_refl.
    + exists []. now rewrite app_nil_r.
Qed.

Lemma visit_node_cases dep nodeId depth parent ns es dev :
  visit_node dep nodeId depth parent (ns, es) dev =
  match truthy_str parent with
  | None => (created dep nodeId depth parent ns dev, es)
  | Some p =>
      (match map_get (created dep nodeId depth parent ns dev) p with
       | Some pn =>
           if includes (gn_children pn) nodeId
           then created dep nodeId depth parent ns dev
           else map_set (created dep nodeId depth parent ns dev) p
                  (push_child pn nodeId)
       | None => created dep nodeId depth parent ns dev
       end,
       es ++ [mkEdge p nodeId])
  end.
Proof.
  unfold visit_node, created.
  destruct (map_has ns nodeId); simpl;
    destruct (truthy_str parent) as [p|]; try reflexivity;
    match goal with |- context [map_get ?m p] => destruct (map_get m p) end;
    try reflexivity;
    match goal with |- context [includes ?l ?x] => destruct (includes l x) end;
    reflexivity.
Qed.

Lemma created_extends dep nodeId depth parent ns dev :
  extends ns (created dep nodeId depth parent ns dev).
Proof.
  unfold created. destruct (map_has ns nodeId) eqn:E.
  - apply extends_refl.
  - now apply extends_set_new.
Qed.

Lemma created_has dep nodeId depth parent ns dev :
  map_has (created dep nodeId depth parent ns dev) nodeId = true.
Proof.
  unfold created. destruct (map_has ns nodeId) eqn:E; [assumption|].
  eapply map_get_Some_has, map_get_set_same.
Qed.

Lemma visit_node_extends dep nodeId depth parent st dev :
  extends (fst st) (fst (visit_node dep nodeId depth parent st dev)).
Proof.
  destruct st as [ns es]. rewrite visit_node_cases.
  pose proof (created_extends dep nodeId depth parent ns dev) as Hc.
  destruct (truthy_str parent) as [p|]; simpl; [|exact Hc].
  destruct (map_get (created dep nodeId depth parent ns dev) p) as [pn|] eqn:Ep;
    [|exact Hc].
  destruct (includes (gn_children pn) nodeId); [exact Hc|].
  eapply extends_trans; [exact Hc|]. now apply extends_push.
Qed.

Lemma visit_node_edges dep nodeId depth parent st dev :
  snd (visit_node dep nodeId depth parent st dev) =
  snd st ++ match truthy_str parent with
            | Some p => [mkEdge p nodeId]
            | None => []
            end.
Proof.
  destruct st as [ns es]. rewrite visit_node_cases.
  destruct (truthy_str parent); simpl; [reflexivity|]. now rewrite app_nil_r.
Qed.

Lemma build_extends :
  forall dep nodeId depth parent st dev,
    extends (fst st) (fst (buildNodeRecursive dep nodeId depth parent st dev))
    /\ exists extra,
         snd (buildNodeRecursive dep nodeId depth parent st dev) =
         snd st ++ extra.
Proof.
  induction dep using DependencyNode_induction;
    intros nodeId depth parent st dev; rewrite buildNodeRecursive_eq; simpl.
  - split; [apply visit_node_extends|]. rewrite visit_node_edges. eauto.
  - assert (Hv : extends (fst st)
             (fst (visit_node (mkDependencyNode n v r (Some deps)) nodeId
                     depth parent st dev)) /\
           exists extra,
             snd (visit_node (mkDependencyNode n v r (Some deps)) nodeId
                    depth parent st dev) = snd st ++ extra).
    { split; [apply visit_node_extends|]. rewrite visit_node_edges. eauto. }
    revert Hv.
    generalize (visit_node (mkDependencyNode n v r (Some deps)) nodeId depth
                  parent st dev).
    induction H as [|[k c] deps Hc Hdeps IH]; intros s Hs; simpl;
      [assumption|].
    apply IH. destruct Hs as (He & x & Hx). simpl in Hc.
    destruct (Hc (createKey k (dn_version c)) (depth + 1) (Some nodeId) s dev)
      as (He' & x' & Hx').
    split.
    + eapply extends_trans; eassumption.
    + exists (x ++ x'). now rewrite Hx', Hx, app_assoc.
Qed.

(** C5: when [buildNodeRecursive] is called on a key that the node table
    already holds, the visit keeps the key sequence of the table, leaves
    the identity fields (id, name, version, depth, parent, vulnerability
    count, dev flag) of the node untouched, appends one edge when a parent
    is given, and changes no node but the parent, whose [children] list
    gains the key at its end unless it holds it; the recursion into the
    children then only appends to [children] lists and to the edge list,
    whatever node was in the table before. *)
Theorem first_seen_wins dep nodeId depth parent ns es dev node :
  map_get ns nodeId = Some node ->
  let st1 := visit_node dep nodeId depth parent (ns, es) dev in
  let st2 := buildNodeRecursive dep nodeId depth parent (ns, es) dev in
  map_keys (fst st1) = map_keys ns /\
  (exists node1, map_get (fst st1) nodeId = Some node1 /\
                 same_identity node node1) /\
  match truthy_str parent with
  | None => st1 = (ns, es)
  | Some p =>
      snd st1 = es ++ [mkEdge p nodeId] /\
      (forall k, k <> p -> map_get (fst st1) k = map_get ns k) /\
      (forall pn, map_get ns p = Some pn ->
         exists pn', map_get (fst st1) p = Some pn' /\ same_identity pn pn' /\
           gn_children pn' =
             if includes (gn_children pn) nodeId then gn_children pn
             else gn_children pn ++ [nodeId])
  end /\
  (exists node2, map_get (fst st2) nodeId = Some node2 /\
                 same_identity node node2) /\
  (forall k n, map_get ns k = Some n ->
     exists n', map_get (fst st2) k = Some n' /\ same_identity n n' /\
                exists extra, gn_children n' = gn_children n ++ extra) /\
  exists extra, snd st2 = es ++ extra.
Proof.
  intros Hget st1 st2.
  assert (Hhas : map_has ns nodeId = true) by (eapply map_get_Some_has, Hget).
  assert (Hcr : created dep nodeId depth parent ns dev = ns).
  { unfold created. now rewrite Hhas. }
  destruct (build_extends dep nodeId depth parent (ns, es) dev) as (He2 & Hx2).
  pose proof (visit_node_extends dep nodeId depth parent (ns, es) dev) as He1.
  fold st1 in He1. fold st2 in He2, Hx2. simpl in He1, He2, Hx2.
  split; [|split; [|split; [|split; [|split]]]].
  - unfold st1. rewrite visit_node_keys. simpl. unfold add_key.
    apply map_has_In, includes_In in Hhas. now rewrite Hhas.
  - destruct (He1 _ _ Hget) as (n1 & Hn1 & Hs1 & _). eauto.
  - unfold st1. rewrite visit_node_cases, Hcr.
    destruct (truthy_str parent) as [p|]; [|reflexivity]. simpl.
    split; [reflexivity|]. split.
    + intros k Hk. destruct (map_get ns p) as [pn|]; [|reflexivity].
      destruct (includes (gn_children pn) nodeId); [reflexivity|].
      apply map_get_set_other. congruence.
    + intros pn Hp. rewrite Hp.
      destruct (includes (gn_children pn) nodeId).
      * exists pn. split; [assumption|]. split;
          [apply same_identity_refl | reflexivity].
      * exists (push_child pn nodeId). rewrite map_get_set_same.
        split; [reflexivity|]. split; [|reflexivity].
        unfold same_identity. simpl. tauto.
  - destruct (He2 _ _ Hget) as (n2 & Hn2 & Hs2 & _). eauto.
  - exact He2.
  - exact Hx2.
Qed.

(** ** Well-formedness of the graph *)

Arguments visit_node : simpl never.

Lemma map_get_set {V : Type} (m : JsMap V) k k' v :
  map_get (map_set m k v) k' = if str_eqb k k' then Some v else map_get m k'.
Proof.
  destruct (str_eqb k k') eqn:E.
  - apply str_eqb_eq in E. subst. apply map_get_set_same.
  - apply str_eqb_neq in E. now apply map_get_set_other.
Qed.

Lemma map_set_NoDup {V : Type} (m : JsMap V) k v :
  NoDup (map_keys m) -> NoDup (map_keys (map_set m k v)).
Proof. intros H. rewrite map_keys_set. now apply add_key_NoDup. Qed.

Lemma createKey_nonempty name version : createKey name version <> [].
Proof. unfold createKey. destruct name; discriminate. Qed.

Lemma truthy_str_Some s : s <> [] -> truthy_str (Some s) = Some s.
Proof. destruct s; [congruence | reflexivity]. Qed.

Lemma reachable_mono rs rs' ns ns' k :
  incl rs rs' -> extends ns ns' -> reachable rs ns k -> reachable rs' ns' k.
Proof.
  intros Hrs Hext H. induction H as [r Hr | p n c Hp IH Hget Hin].
  - apply reach_root. now apply Hrs.
  - destruct (Hext _ _ Hget) as (n' & Hget' & _ & extra & Hc).
    apply reach_child with (p := p) (n := n'); auto.
    rewrite Hc. apply in_or_app. now left.
Qed.

(** Where the nodes of the table come from after a visit. *)
Lemma visit_node_lookup dep nodeId depth parent ns es dev k n' :
  map_get (fst (visit_node dep nodeId depth parent (ns, es) dev)) k = Some n' ->
  exists base,
    (map_get ns k = Some base \/
     (k = nodeId /\ gn_children base = [] /\ map_has ns nodeId = false)) /\
    (n' = base \/
     (n' = push_child base nodeId /\ truthy_str parent = Some k)).
Proof.
  rewrite visit_node_cases.
  assert (Hcr : forall n1, map_get (created dep nodeId depth parent ns dev) k
                           = Some n1 ->
                map_get ns k = Some n1 \/
                (k = nodeId /\ gn_children n1 = [] /\ map_has ns nodeId = false)).
  { unfold created. intros n1. destruct (map_has ns nodeId) eqn:E; [auto|].
    rewrite map_get_set. destruct (str_eqb nodeId k) eqn:Ek; [|auto].
    apply str_eqb_eq in Ek. intros [= <-]. right. auto. }
  destruct (truthy_str parent) as [p|]; simpl.
  - destruct (map_get (created dep nodeId depth parent ns dev) p) as [pn|] eqn:Ep.
    + destruct (includes (gn_children pn) nodeId).
      * intros H. exists n'. auto.
      * rewrite map_get_set. destruct (str_eqb p k) eqn:Ek.
        -- apply str_eqb_eq in Ek. subst k. intros [= <-].
           exists pn. auto.
        -- intros H. exists n'. auto.
    + intros H. exists n'. auto.
  - intros H. exists n'. auto.
Qed.

Lemma visit_node_has dep nodeId depth parent st dev :
  map_has (fst (visit_node dep nodeId depth parent st dev)) nodeId = true.
Proof.
  apply map_has_In. rewrite visit_node_keys. apply add_key_In. now right.
Qed.

Lemma visit_node_child dep nodeId depth parent ns es dev p :
  truthy_str parent = Some p ->
  map_has ns p = true ->
  exists pn, map_get (fst (visit_node dep nodeId depth parent (ns, es) dev)) p
             = Some pn /\ In nodeId (gn_children pn).
Proof.
  intros Hp Hhas. rewrite visit_node_cases, Hp. simpl.
  pose proof (extends_has _ _ p (created_extends dep nodeId depth parent ns dev)
                Hhas) as Hhas1.
  apply map_has_get in Hhas1 as (pn & Hpn). rewrite Hpn.
  destruct (includes (gn_children pn) nodeId) eqn:E.
  - exists pn. split; [assumption|]. now apply includes_In.
  - exists (push_child pn nodeId). rewrite map_get_set_same.
    split; [reflexivity|]. simpl. apply in_or_app. right. now left.
Qed.

Lemma visit_node_inv rs dep nodeId depth parent ns es dev :
  build_inv rs ns es ->
  link_ok rs ns nodeId parent ->
  build_inv rs (fst (visit_node dep nodeId depth parent (ns, es) dev))
    (snd (visit_node dep nodeId depth parent (ns, es) dev)).
Proof.
  intros (Hnd & Hch & Hed & Hre) Hlink.
  pose proof (visit_node_extends dep nodeId depth parent (ns, es) dev) as Hext.
  pose proof (visit_node_has dep nodeId depth parent (ns, es) dev) as Hself.
  simpl in Hext.
  split; [|split; [|split]].
  - rewrite visit_node_keys. now apply add_key_NoDup.
  - intros k n' c Hget Hin.
    apply visit_node_lookup in Hget as (base & Hbase & Hn').
    assert (Hc : In c (gn_children base) \/ c = nodeId).
    { destruct Hn' as [->|[-> _]]; [auto|]. simpl in Hin.
      apply in_app_or in Hin as [H|[H|[]]]; auto. }
    destruct Hc as [Hc| ->]; [|exact Hself].
    destruct Hbase as [Hbase|(_ & Hnil & _)].
    + eapply extends_has; [exact Hext|]. eapply Hch; eassumption.
    + rewrite Hnil in Hc. destruct Hc.
  - intros e He. rewrite visit_node_edges in He. simpl in He.
    apply in_app_or in He as [He|He].
    + destruct (Hed _ He). split; eapply extends_has; eauto.
    + unfold link_ok in Hlink. destruct (truthy_str parent) as [p|]; [|destruct He].
      destruct He as [<-|[]]. simpl. split; [|exact Hself].
      eapply extends_has; eauto.
  - intros k Hk. apply map_has_In in Hk. rewrite visit_node_keys in Hk.
    apply add_key_In in Hk as [Hk| ->].
    + apply reachable_mono with (rs := rs) (ns := ns); auto using incl_refl.
      apply Hre. now apply map_has_In.
    + unfold link_ok in Hlink. destruct (truthy_str parent) as [p|] eqn:Ep.
      * destruct (visit_node_child dep nodeId depth parent ns es dev p Ep Hlink)
          as (pn & Hpn & Hin).
        apply reach_child with (p := p) (n := pn); auto.
        apply reachable_mono with (rs := rs) (ns := ns); auto using incl_refl.
      * now apply reach_root.
Qed.

Lemma build_preserves_inv rs :
  forall dep nodeId depth parent st dev,
    nodeId <> [] ->
    build_inv rs (fst st) (snd st) ->
    link_ok rs (fst st) nodeId parent ->
    build_inv rs (fst (buildNodeRecursive dep nodeId depth parent st dev))
      (snd (buildNodeRecursive dep nodeId depth parent st dev)).
Proof.
  induction dep using DependencyNode_induction;
    intros nodeId depth parent [ns es] dev Hne Hinv Hlink;
    rewrite buildNodeRecursive_eq; simpl in *.
  - now apply visit_node_inv.
  - pose proof (@visit_node_inv rs (mkDependencyNode n v r (Some deps)) nodeId
                  depth parent ns es dev Hinv Hlink) as Hv.
    pose proof (visit_node_has (mkDependencyNode n v r (Some deps)) nodeId
                  depth parent (ns, es) dev) as Hself.
    revert Hv Hself.
    generalize (visit_node (mkDependencyNode n v r (Some deps)) nodeId depth
                  parent (ns, es) dev).
    induction H as [|[k c] deps Hc Hdeps IH]; intros s Hs Hself; simpl;
      [assumption|].
    simpl in Hc. apply IH.
    + apply Hc; auto using createKey_nonempty.
      unfold link_ok. now rewrite truthy_str_Some.
    + eapply extends_has; [|exact Hself]. apply build_extends.
Qed.

Lemma build_inv_roots rs r ns es :
  build_inv rs ns es -> build_inv (rs ++ [r]) ns es.
Proof.
  intros (Hnd & Hch & Hed & Hre). repeat split; auto; try (now apply Hed).
  intros k Hk. apply reachable_mono with (rs := rs) (ns := ns); auto.
  - apply incl_appl, incl_refl.
  - apply extends_refl.
Qed.

Lemma buildRoots_inv l g :
  build_inv (roots g) (nodes g) (edges g) ->
  build_inv (roots (buildRoots l g)) (nodes (buildRoots l g))
    (edges (buildRoots l g)).
Proof.
  revert g; induction l as [|[k c] l IH]; intros g Hinv; simpl; [assumption|].
  pose proof (@build_preserves_inv (roots g ++ [createKey k (dn_version c)]) c
                (createKey k (dn_version c)) 0 None (nodes g, edges g) false
                (@createKey_nonempty _ _)) as Hb.
  destruct (buildNodeRecursive c (createKey k (dn_version c)) 0 None
              (nodes g, edges g) false) as [ns es].
  apply IH. simpl in *. apply Hb.
  - now apply build_inv_roots.
  - unfold link_ok. simpl. apply in_or_app. right. now left.
Qed.

(** C6: every graph produced by [buildGraph] is well formed: the ids in
    the [children] list of every node are keys of the node table, both
    endpoints of every edge are keys of the node table, and the target of
    every edge is reachable from a root along [children] links. *)
Theorem buildGraph_well_formed (tree : DependencyTree) :
  graph_well_formed (buildGraph tree).
Proof.
  assert (Hinv : build_inv (roots (buildGraph tree)) (nodes (buildGraph tree))
                   (edges (buildGraph tree))).
  { unfold buildGraph. apply buildRoots_inv. simpl.
    split; [constructor|]. split; [discriminate|]. split.
    - intros e [].
    - discriminate. }
  destruct Hinv as (Hnd & Hch & Hed & Hre).
  split; [|split].
  - intros k n c Hin Hc. eapply Hch; [|exact Hc].
    apply In_map_get_NoDup; eassumption.
  - exact Hed.
  - intros e He. apply Hre. now apply Hed.
Qed.

(** ** The children lists hold no id twice *)

(** A property of the node table that every visit keeps is kept by the
    whole construction. *)
Lemma build_table_invariant (I : JsMap GraphNode -> Prop) :
  (forall dep nodeId depth parent ns es dev,
     I ns -> I (fst (visit_node dep nodeId depth parent (ns, es) dev))) ->
  forall dep nodeId depth parent st dev,
    I (fst st) -> I (fst (buildNodeRecursive dep nodeId depth parent st dev)).
Proof.
  intros Hvisit.
  induction dep using DependencyNode_induction;
    intros nodeId depth parent [ns es] dev HI; rewrite buildNodeRecursive_eq;
    simpl.
  - now apply Hvisit.
  - pose proof (Hvisit (mkDependencyNode n v r (Some deps)) nodeId depth
                  parent ns es dev HI) as Hv.
    revert Hv.
    generalize (visit_node (mkDependencyNode n v r (Some deps)) nodeId depth
                  parent (ns, es) dev).
    induction H as [|[k c] deps Hc Hdeps IH]; intros s Hs; simpl;
      [assumption|].
    apply IH. simpl in Hc. now apply Hc.
Qed.

Lemma buildRoots_table_invariant (I : JsMap GraphNode -> Prop) :
  (forall dep nodeId depth parent ns es dev,
     I ns -> I (fst (visit_node dep nodeId depth parent (ns, es) dev))) ->
  forall l g, I (nodes g) -> I (nodes (buildRoots l g)).
Proof.
  intros Hvisit. induction l as [|[k c] l IH]; intros g HI; simpl;
    [assumption|].
  pose proof (build_table_invariant I Hvisit c (createKey k (dn_version c)) 0
                None (nodes g, edges g) false HI) as Hb.
  destruct (buildNodeRecursive c (createKey k (dn_version c)) 0 None
              (nodes g, edges g) false) as [ns es].
  now apply IH.
Qed.

Lemma visit_node_children_NoDup dep nodeId depth parent ns es dev :
  (forall k n, map_get ns k = Some n -> NoDup (gn_children n)) ->
  forall k n,
    map_get (fst (visit_node dep nodeId depth parent (ns, es) dev)) k = Some n ->
    NoDup (gn_children n).
Proof.
  intros Hns. rewrite visit_node_cases.
  assert (Hcr : forall k n,
            map_get (created dep nodeId depth parent ns dev) k = Some n ->
            NoDup (gn_children n)).
  { unfold created. destruct (map_has ns nodeId); [exact Hns|].
    intros k n. rewrite map_get_set. destruct (str_eqb nodeId k).
    - intros [= <-]. constructor.
    - apply Hns. }
  destruct (truthy_str parent) as [p|]; [|exact Hcr]. simpl.
  destruct (map_get (created dep nodeId depth parent ns dev) p) as [pn|] eqn:Ep;
    [|exact Hcr].
  destruct (includes (gn_children pn) nodeId) eqn:Ei; [exact Hcr|].
  intros k n. rewrite map_get_set. destruct (str_eqb p k); [|apply Hcr].
  intros [= <-]. simpl.
  pose proof (add_key_NoDup (gn_children pn) nodeId (Hcr _ _ Ep)) as Hnd.
  unfold add_key in Hnd. now rewrite Ei in Hnd.
Qed.

(** In a graph made by [buildGraph] no [children] list repeats an id. *)
Lemma buildGraph_children_NoDup tree k n :
  map_get (nodes (buildGraph tree)) k = Some n -> NoDup (gn_children n).
Proof.
  revert k n. unfold buildGraph.
  apply (buildRoots_table_invariant
           (fun ns => forall k n, map_get ns k = Some n ->
                                  NoDup (gn_children n))).
  - intros dep nodeId depth parent ns es dev.
    apply visit_node_children_NoDup.
  - discriminate.
Qed.

(* ===================================================================== *)
(** * Properties: path enumeration                                        *)
(* ===================================================================== *)

Lemma findPathsRecursive_eq fuel g id target path :
  findPathsRecursive (S fuel) g id target path =
  match map_get (nodes g) id with
  | None => Some []
  | Some node => findChildren fuel g target path (gn_children node) []
  end.
Proof.
  simpl. destruct (map_get (nodes g) id) as [node|]; [|reflexivity].
  generalize (@nil (list jsstring)) at 2 3.
  induction (gn_children node) as [|c l IH]; intros acc; simpl; [reflexivity|].
  destruct (map_get (nodes g) c) as [cn|]; [|apply IH].
  destruct (str_eqb (gn_name cn) target); [apply IH|].
  destruct (findPathsRecursive fuel g c target (path ++ [c])); [apply IH|].
  reflexivity.
Qed.

Lemma findChildren_cons fuel g target path c l acc :
  findChildren fuel g target path (c :: l) acc =
  match visit_entry fuel g target path c with
  | Some sub => findChildren fuel g target path l (acc ++ sub)
  | None => None
  end.
Proof.
  unfold visit_entry. simpl.
  destruct (map_get (nodes g) c) as [cn|]; [|now rewrite app_nil_r].
  destruct (str_eqb (gn_name cn) target); reflexivity.
Qed.

Lemma findRoots_eq fuel g target l acc :
  findRoots fuel g target l acc = findChildren fuel g target [] l acc.
Proof.
  revert acc; induction l as [|r l IH]; intros acc; simpl; [reflexivity|].
  destruct (map_get (nodes g) r) as [rn|]; [|apply IH].
  destruct (str_eqb (gn_name rn) target); [apply IH|].
  destruct (findPathsRecursive fuel g r target [r]); [apply IH|reflexivity].
Qed.

Lemma rank_ok_sound g rank :
  rank_ok g rank = true ->
  forall k n c n',
    map_get (nodes g) k = Some n -> In c (gn_children n) ->
    map_get (nodes g) c = Some n' -> rank c < rank k.
Proof.
  unfold rank_ok. rewrite forallb_forall. intros H k n c n' Hk Hc Hc'.
  apply map_get_In in Hk as (k' & Hin & ->).
  specialize (H _ Hin). simpl in H. rewrite forallb_forall in H.
  specialize (H _ Hc). rewrite Hc' in H. now apply Nat.ltb_lt.
Qed.

(** ** Termination on acyclic graphs *)

Lemma findChildren_terminates g target rank :
  rank_ok g rank = true ->
  forall fuel path l acc,
    (forall c n, In c l -> map_get (nodes g) c = Some n -> rank c < fuel) ->
    exists ps, findChildren fuel g target path l acc = Some ps.
Proof.
  intros Hrank. induction fuel as [|fuel IHf]; intros path l;
    induction l as [|c l IHl]; intros acc Hl; try (simpl; eauto; fail).
  - rewrite findChildren_cons. unfold visit_entry.
    destruct (map_get (nodes g) c) as [cn|] eqn:Ec.
    + exfalso. specialize (Hl c cn (or_introl eq_refl) Ec). lia.
    + apply IHl. intros; eapply Hl; eauto. now right.
  - rewrite findChildren_cons. unfold visit_entry.
    assert (Hl' : forall c0 n, In c0 l -> map_get (nodes g) c0 = Some n ->
                               rank c0 < S fuel).
    { intros; eapply Hl; eauto. now right. }
    destruct (map_get (nodes g) c) as [cn|] eqn:Ec; [|now apply IHl].
    destruct (str_eqb (gn_name cn) target); [now apply IHl|].
    rewrite findPathsRecursive_eq, Ec.
    destruct (IHf (path ++ [c]) (gn_children cn) []) as (sub & Hsub).
    + intros c0 n0 Hin Hget.
      pose proof (rank_ok_sound g rank Hrank c cn c0 n0 Ec Hin Hget).
      specialize (Hl c cn (or_introl eq_refl) Ec). lia.
    + rewrite Hsub. now apply IHl.
Qed.

Lemma findChildren_fuel_mono g target :
  forall fuel path l acc ps,
    findChildren fuel g target path l acc = Some ps ->
    findChildren (S fuel) g target path l acc = Some ps.
Proof.
  induction fuel as [|fuel IHf]; intros path l;
    induction l as [|c l IHl]; intros acc ps; try (simpl; auto; fail);
    rewrite !findChildren_cons; unfold visit_entry;
    destruct (map_get (nodes g) c) as [cn|] eqn:Ec; try apply IHl;
    destruct (str_eqb (gn_name cn) target); try apply IHl.
  - simpl. discriminate.
  - rewrite (findPathsRecursive_eq (S fuel)), findPathsRecursive_eq, Ec.
    destruct (findChildren fuel g target (path ++ [c]) (gn_children cn) [])
      as [sub|] eqn:Es; [|discriminate].
    rewrite (IHf _ _ _ _ Es). apply IHl.
Qed.

Lemma findChildren_fuel_le g target fuel fuel' path l acc ps :
  fuel <= fuel' ->
  findChildren fuel g target path l acc = Some ps ->
  findChildren fuel' g target path l acc = Some ps.
Proof.
  induction 1 as [|fuel' Hle IH]; [auto|].
  intros H. now apply findChildren_fuel_mono, IH.
Qed.

(** ** What the traversal returns *)

Lemma ForallOrdPairs_app {A : Type} (R : A -> A -> Prop) (l1 l2 : list A) :
  ForallOrdPairs R l1 -> ForallOrdPairs R l2 ->
  (forall a b, In a l1 -> In b l2 -> R a b) ->
  ForallOrdPairs R (l1 ++ l2).
Proof.
  intros H1 H2 Hx. induction H1 as [|a l1 Ha H1 IH]; simpl; [assumption|].
  constructor.
  - apply Forall_app. split; [assumption|].
    apply Forall_forall. intros b Hb. apply Hx; simpl; auto.
  - apply IH. intros a' b Ha' Hb. apply Hx; simpl; auto.
Qed.

Lemma ForallOrdPairs_NoDup {A : Type} (R : A -> A -> Prop) (l : list A) :
  ForallOrdPairs R l -> (forall x, In x l -> ~ R x x) -> NoDup l.
Proof.
  induction 1 as [|a l Ha H IH]; intros Hirr; constructor.
  - intros Hin. rewrite Forall_forall in Ha.
    apply (Hirr a); simpl; auto.
  - apply IH. intros x Hx. apply Hirr. now right.
Qed.

Lemma siblings_snoc g path c n :
  map_get (nodes g) c = Some n -> siblings g (path ++ [c]) = gn_children n.
Proof. intros H. unfold siblings. now rewrite rev_unit, H. Qed.

Lemma entry_spec_0 g target : entry_spec g target 0.
Proof.
  intros path c sub. unfold visit_entry.
  destruct (map_get (nodes g) c) as [n|] eqn:Ec.
  - destruct (str_eqb (gn_name n) target) eqn:En; [|discriminate].
    apply str_eqb_eq in En. intros [= <-]. split; [|repeat constructor].
    intros p. simpl. split.
    + intros [<-|[]]. exists []. split; [|reflexivity].
      now apply descends_here with (n := n).
    + intros (rest & Hd & ->). left. inversion Hd; subst; [reflexivity|].
      congruence.
  - intros [= <-]. split; [|constructor].
    intros p. split; [intros []|]. intros (rest & Hd & _).
    inversion Hd; subst; congruence.
Qed.

Lemma entry_spec_S g target fuel :
  children_spec g target fuel -> entry_spec g target (S fuel).
Proof.
  intros Hch path c sub. unfold visit_entry.
  destruct (map_get (nodes g) c) as [n|] eqn:Ec.
  - destruct (str_eqb (gn_name n) target) eqn:En.
    + apply str_eqb_eq in En. intros [= <-]. split; [|repeat constructor].
      intros p. simpl. split.
      * intros [<-|[]]. exists []. split; [|reflexivity].
        now apply descends_here with (n := n).
      * intros (rest & Hd & ->). left. inversion Hd; subst; [reflexivity|].
        congruence.
    + apply str_eqb_neq in En. rewrite findPathsRecursive_eq, Ec. intros Hf.
      destruct (Hch _ _ _ _ Hf) as (sub' & -> & Hmem & Hord). simpl.
      split.
      * intros p. rewrite Hmem. split.
        -- intros (c' & rest' & Hin & Hd & ->). exists (c' :: rest').
           split; [now apply descends_step with (n := n)|].
           now rewrite <- app_assoc.
        -- intros (rest & Hd & ->). inversion Hd; subst; [congruence|].
           exists c0, rest0. rewrite <- app_assoc.
           replace n with n0 by congruence. auto.
      * apply (Hord []). simpl. now apply siblings_snoc.
  - intros [= <-]. split; [|constructor].
    intros p. split; [intros []|]. intros (rest & Hd & _).
    inversion Hd; subst; congruence.
Qed.

Lemma children_of_entry g target fuel :
  entry_spec g target fuel -> children_spec g target fuel.
Proof.
  intros Hen path l. induction l as [|c l IH]; intros acc ps.
  - simpl. intros [= <-]. exists []. rewrite app_nil_r.
    split; [reflexivity|]. split; [|constructor].
    intros p. split; [intros []|]. now intros (c & rest & [] & _).
  - rewrite findChildren_cons.
    destruct (visit_entry fuel g target path c) as [sub_c|] eqn:Ev;
      [|discriminate].
    intros Hf. destruct (IH _ _ Hf) as (sub_r & -> & Hmem & Hord).
    destruct (Hen _ _ _ Ev) as (Hmem_c & Hord_c).
    exists (sub_c ++ sub_r). split; [now rewrite app_assoc|]. split.
    + intros p. rewrite in_app_iff, Hmem, Hmem_c. split.
      * intros [(rest & Hd & ->)|(c' & rest & Hin & Hd & ->)].
        -- exists c, rest. simpl. auto.
        -- exists c', rest. simpl. auto.
      * intros (c' & rest & [<-|Hin] & Hd & ->); [left|right]; eauto.
    + intros l0 Hsib. apply ForallOrdPairs_app; [assumption| |].
      * apply (Hord (l0 ++ [c])). now rewrite <- app_assoc.
      * intros p q Hp Hq. apply Hmem_c in Hp as (rest & _ & ->).
        apply Hmem in Hq as (c' & rest' & Hin & _ & ->).
        apply in_split in Hin as (la & lb & ->).
        exists path, c, c', rest, rest'. split; [reflexivity|].
        split; [reflexivity|]. rewrite Hsib. now exists l0, la, lb.
Qed.

Lemma children_spec_all g target fuel : children_spec g target fuel.
Proof.
  apply children_of_entry. induction fuel as [|fuel IH].
  - apply entry_spec_0.
  - apply entry_spec_S, children_of_entry, IH.
Qed.

Lemma descends_target g target k rest :
  descends g target k rest ->
  exists k' n, map_get (nodes g) k' = Some n /\ gn_name n = target.
Proof. induction 1; eauto. Qed.

Lemma dfs_before_irrefl g p :
  NoDup (roots g) ->
  (forall k n, map_get (nodes g) k = Some n -> NoDup (gn_children n)) ->
  ~ dfs_before g p p.
Proof.
  intros Hr Hc (pre & x & y & sp & sq & Hp & Hq & l1 & l2 & l3 & Hl).
  rewrite Hp in Hq. apply app_inv_head in Hq. injection Hq as <- _.
  assert (Hnd : NoDup (siblings g pre)).
  { unfold siblings. destruct (rev pre) as [|k ?]; [assumption|].
    destruct (map_get (nodes g) k) as [n|] eqn:E; [eauto | constructor]. }
  rewrite Hl in Hnd. apply NoDup_remove_2 in Hnd. apply Hnd.
  apply in_or_app. right. apply in_or_app. right. now left.
Qed.

(** C2 (amended): on a graph whose [children] links form no cycle,
    [findDependencyPath] terminates and returns exactly the id sequences
    that lead from a root to the first node named [packageName] on their
    way (the traversal does not descend below a match), in traversal
    order: roots in declaration order, children in list order. A name no
    node carries yields the empty list, and the paths are all different
    when neither the root list nor a [children] list repeats an id. *)
Theorem findDependencyPath_first_match (g : DependencyGraph)
    (packageName : jsstring) (rank : jsstring -> nat) :
  rank_ok g rank = true ->
  exists fuel ps,
    (forall fuel', fuel <= fuel' ->
       findDependencyPath fuel' g packageName = Some ps) /\
    (forall p, In p ps <-> first_match_path g packageName p) /\
    ForallOrdPairs (dfs_before g) ps /\
    ((forall k n, map_get (nodes g) k = Some n -> gn_name n <> packageName) ->
     ps = []) /\
    (NoDup (roots g) ->
     (forall k n, map_get (nodes g) k = Some n -> NoDup (gn_children n)) ->
     NoDup ps).
Proof.
  intros Hrank. set (fuel := S (list_max (map rank (roots g)))).
  destruct (findChildren_terminates g packageName rank Hrank fuel [] (roots g) [])
    as (ps & Hps).
  { intros c n Hin _. unfold fuel.
    assert (H : list_max (map rank (roots g)) <= list_max (map rank (roots g)))
      by lia.
    apply list_max_le in H. rewrite Forall_forall in H.
    specialize (H (rank c) (in_map rank _ _ Hin)). lia. }
  destruct (children_spec_all g packageName fuel _ _ _ _ Hps)
    as (sub & Hsub & Hmem & Hord).
  simpl in Hsub. subst sub.
  assert (Hmem' : forall p, In p ps <-> first_match_path g packageName p).
  { intros p. rewrite Hmem. unfold first_match_path. split.
    - intros (c & rest & Hin & Hd & ->). exists c, rest. auto.
    - intros (r & rest & -> & Hin & Hd). exists r, rest. auto. }
  assert (Hord' : ForallOrdPairs (dfs_before g) ps) by now apply (Hord []).
  exists fuel, ps. split; [|split; [|split; [|split]]].
  - intros fuel' Hle. unfold findDependencyPath. rewrite findRoots_eq.
    eapply findChildren_fuel_le; eassumption.
  - exact Hmem'.
  - exact Hord'.
  - intros Hnone. destruct ps as [|p ps]; [reflexivity|]. exfalso.
    destruct (proj1 (Hmem' p) (or_introl eq_refl)) as (r & rest & _ & _ & Hd).
    apply descends_target in Hd as (k' & n & Hget & Hname).
    exact (Hnone _ _ Hget Hname).
  - intros Hr Hc. apply ForallOrdPairs_NoDup with (R := dfs_before g);
      [assumption|].
    intros p _. now apply dfs_before_irrefl.
Qed.

(** C2 (as stated): refuted twice. In the graph of [nested_tree] the
    node [a@2] lies below the root [a@1] of the same name, and its path
    [a@1; a@2] is not returned. In the graph of [cyclic_tree], built from
    a finite tree, the links [a@1 -> b@1 -> a@1] form a cycle and the
    search for a name that no node carries exhausts every call stack
    instead of returning the empty list. *)
Lemma findDependencyPath_counterexample :
  ~ finds_all_target_paths (buildGraph nested_tree) (js "a") /\
  (forall fuel,
     findDependencyPath fuel (buildGraph cyclic_tree) (js "c") = None).
Proof.
  split.
  - intros (fuel & ps & Hf & Hall).
    assert (Hps : ps = [[js "a@1"]]).
    { vm_compute in Hf. now injection Hf as <-. }
    assert (Ht : target_path (buildGraph nested_tree) (js "a")
                   [js "a@1"; js "a@2"]).
    { exists (js "a@1"), [js "a@2"],
        (mkGraphNode (js "a@2") (js "a") (js "2") 1 (Some (js "a@1")) [] 0
           false).
      split; [reflexivity|]. split; [now left|]. split.
      - apply walk_step
          with (n := mkGraphNode (js "a@1") (js "a") (js "1") 0 None
                       [js "a@2"] 0 false);
          [reflexivity | now left |].
        eapply walk_end. reflexivity.
      - split; reflexivity. }
    apply Hall in Ht. rewrite Hps in Ht. destruct Ht as [H|[]].
    discriminate H.
  - assert (H : forall fuel path,
              findPathsRecursive fuel (buildGraph cyclic_tree) (js "a@1")
                (js "c") path = None /\
              findPathsRecursive fuel (buildGraph cyclic_tree) (js "b@1")
                (js "c") path = None).
    { induction fuel as [|fuel IH]; intros path; [split; reflexivity|].
      rewrite !findPathsRecursive_eq.
      change (map_get (nodes (buildGraph cyclic_tree)) (js "a@1"))
        with (Some (mkGraphNode (js "a@1") (js "a") (js "1") 0 None
                      [js "b@1"] 0 false)).
      change (map_get (nodes (buildGraph cyclic_tree)) (js "b@1"))
        with (Some (mkGraphNode (js "b@1") (js "b") (js "1") 1
                      (Some (js "a@1")) [js "a@1"] 0 false)).
      cbn [gn_children]. rewrite !findChildren_cons. unfold visit_entry.
      change (map_get (nodes (buildGraph cyclic_tree)) (js "a@1"))
        with (Some (mkGraphNode (js "a@1") (js "a") (js "1") 0 None
                      [js "b@1"] 0 false)).
      change (map_get (nodes (buildGraph cyclic_tree)) (js "b@1"))
        with (Some (mkGraphNode (js "b@1") (js "b") (js "1") 1
                      (Some (js "a@1")) [js "a@1"] 0 false)).
      cbn [gn_name].
      change (str_eqb (js "a") (js "c")) with false.
      change (str_eqb (js "b") (js "c")) with false.
      cbv iota.
      destruct (IH (path ++ [js "b@1"])) as [_ ->].
      destruct (IH (path ++ [js "a@1"])) as [-> _].
      split; reflexivity. }
    intros fuel. unfold findDependencyPath. rewrite findRoots_eq.
    change (roots (buildGraph cyclic_tree)) with [js "a@1"].
    rewrite findChildren_cons. unfold visit_entry.
    change (map_get (nodes (buildGraph cyclic_tree)) (js "a@1"))
      with (Some (mkGraphNode (js "a@1") (js "a") (js "1") 0 None
                    [js "b@1"] 0 false)).
    cbn [gn_name]. change (str_eqb (js "a") (js "c")) with false. cbv iota.
    now destruct (H fuel ([] ++ [js "a@1"])) as [-> _].
Qed.

(** On the diamond of the specification the search for [package-b]
    returns its two paths, one under each root. *)
Lemma findDependencyPath_first_match_witness :
  rank_ok (buildGraph diamond_tree) diamond_rank = true /\
  exists fuel ps,
    findDependencyPath fuel (buildGraph diamond_tree) (js "package-b")
      = Some ps /\
    (forall p, In p ps <->
       first_match_path (buildGraph diamond_tree) (js "package-b") p).
Proof.
  split; [reflexivity|].
  destruct (findDependencyPath_first_match (buildGraph diamond_tree)
              (js "package-b") diamond_rank eq_refl)
    as (fuel & ps & Hf & Hmem & _).
  exists fuel, ps. split; [apply Hf; apply Nat.le_refl | exact Hmem].
Defined.

(* ===================================================================== *)
(** * Properties: termination of the builder on the object graph          *)
(* ===================================================================== *)















(* ===================================================================== *)
(** * Properties: identity canonicalizer                                  *)
(* ===================================================================== *)

Lemma split_on_no_sep sep s : ~ In sep s -> split_on sep s = [s].
Proof.
  induction s as [|c s IH]; intros Hni; simpl; [reflexivity|].
  destruct (N.eqb c sep) eqn:E.
  - apply N.eqb_eq in E. exfalso. apply Hni. now left.
  - rewrite IH; [reflexivity|]. intros H. apply Hni. now right.
Qed.

Lemma split_on_two sep a b :
  ~ In sep a -> ~ In sep b -> split_on sep (a ++ sep :: b) = [a; b].
Proof.
  intros Ha Hb. induction a as [|c a IH]; simpl.
  - rewrite N.eqb_refl. now rewrite split_on_no_sep.
  - destruct (N.eqb c sep) eqn:E.
    + apply N.eqb_eq in E. exfalso. apply Ha. now left.
    + rewrite IH; [reflexivity|]. intros H. apply Ha. now right.
Qed.






(* ===================================================================== *)
(** * Properties: vulnerability embedding                                 *)
(* ===================================================================== *)

Section Embedding.
Context {P : Platform}.



End Embedding.

(* ===================================================================== *)
(** * Properties: rendering                                               *)
(* ===================================================================== *)

Section Rendering.
Context {P : Platform}.

(** C8: two renderings of the same scan result with the same options and
    vulnerability attachment disabled, whatever identifiers and dates the
    two runs draw, end alike: both throw the same error or both return,
    with identical [components] and [dependencies] arrays (CycloneDX),
    identical [packages] and [relationships] arrays (SPDX), and documents
    that differ in the serial number (document namespace) and the
    timestamp only. *)
Theorem rendering_deterministic (scanResult : ScanResult)
    (options : SbomGenerateOptions) (uuid1 uuid2 : jsstring)
    (generatedAt1 generatedAt2 : Date) :
  truthy_bool (o_attachVulnerabilities options) = false ->
  same_outcome
    (fun bom1 bom2 =>
       components bom1 = components bom2 /\
       dependencies bom1 = dependencies bom2 /\
       bom2 = with_serial (js "urn:uuid:" ++ uuid2) (toISOString generatedAt2)
                bom1)
    (buildCycloneDxBom uuid1 scanResult generatedAt1 options)
    (buildCycloneDxBom uuid2 scanResult generatedAt2 options) /\
  same_outcome
    (fun doc1 doc2 =>
       packages doc1 = packages doc2 /\
       relationships doc1 = relationships doc2 /\
       doc2 = with_namespace (js "urn:uuid:" ++ uuid2)
                (toISOString generatedAt2) doc1)
    (buildSpdxDocument uuid1 scanResult generatedAt1 options)
    (buildSpdxDocument uuid2 scanResult generatedAt2 options).
Proof.
  intros Hoff. split.
  - unfold buildCycloneDxBom.
    destruct (buildRootComponent (sr_dependencies scanResult) options)
      as [rc|e]; [|reflexivity]. cbn [bind].
    destruct (buildPackageMetadataMap (dt_packages (sr_dependencies scanResult)))
      as [pm|e]; [|reflexivity]. cbn [bind].
    destruct (buildDependencyGraph (sr_dependencies scanResult))
      as [g|e]; [|reflexivity]. cbn [bind same_outcome].
    rewrite Hoff. auto.
  - unfold buildSpdxDocument.
    destruct (buildPackageMetadataMap (dt_packages (sr_dependencies scanResult)))
      as [pm|e]; [|reflexivity]. cbn [bind].
    destruct (buildDependencyGraph (sr_dependencies scanResult))
      as [g|e]; [|reflexivity]. cbn [bind].
    destruct (buildSpdxPackages (sr_dependencies scanResult) (byKey pm) options)
      as [ps|e]; [|reflexivity]. cbn [bind].
    destruct (buildSpdxRelationships (sr_dependencies scanResult) (byBomRef pm)
                g options) as [rs|e]; [|reflexivity]. cbn [bind same_outcome].
    rewrite Hoff. auto.
Qed.
End Rendering.

(* ===================================================================== *)
(** * Properties: the package table and the SPDX renderer                 *)
(* ===================================================================== *)

Lemma map_set_absent {V : Type} (m : JsMap V) k v :
  map_has m k = false -> map_set m k v = m ++ [(k, v)].
Proof.
  unfold map_has. induction m as [|[k0 v0] m IH]; simpl; [reflexivity|].
  destruct (str_eqb k0 k); [discriminate|]. intros H. now rewrite IH.
Qed.

Lemma recordPackage_Ok acc p pm :
  recordPackage acc p = Ok pm ->
  exists ref,
    createBomRef (pi_name p) (pi_version p) = Ok ref /\
    byKey pm =
      map_set (byKey acc) (pkg_key p)
        (mkPackageMetadata p ref (createSpdxRef (pi_name p) (pi_version p))).
Proof.
  unfold recordPackage.
  destruct (createBomRef (pi_name p) (pi_version p)) as [ref|e];
    [|discriminate].
  cbn [bind]. intros [= <-]. exists ref. auto.
Qed.

Lemma packageMap_keys pkgs :
  forall acc pm,
    foldM recordPackage pkgs acc = Ok pm ->
    map_keys (byKey pm) =
    fold_left add_key (map pkg_key pkgs) (map_keys (byKey acc)).
Proof.
  induction pkgs as [|p pkgs IH]; intros acc pm; simpl.
  - now intros [= <-].
  - destruct (recordPackage acc p) as [acc'|e] eqn:E; [|discriminate].
    cbn [bind]. intros H. rewrite (IH _ _ H).
    apply recordPackage_Ok in E as (ref & _ & ->). now rewrite map_keys_set.
Qed.


Lemma packageMap_infos pkgs :
  forall acc pm,
    NoDup (map_keys (byKey acc) ++ map pkg_key pkgs) ->
    foldM recordPackage pkgs acc = Ok pm ->
    map info (map_values (byKey pm)) =
    map info (map_values (byKey acc)) ++ pkgs.
Proof.
  induction pkgs as [|p pkgs IH]; intros acc pm Hnd; simpl.
  - intros [= <-]. now rewrite app_nil_r.
  - destruct (recordPackage acc p) as [acc'|e] eqn:E; [|discriminate].
    cbn [bind]. intros H.
    apply recordPackage_Ok in E as (ref & _ & Hk).
    assert (Habs : map_has (byKey acc) (pkg_key p) = false).
    { apply map_has_false. intros Hin.
      apply NoDup_remove_2 in Hnd. apply Hnd, in_or_app. now left. }
    rewrite map_set_absent in Hk by assumption.
    assert (Hnd' : NoDup (map_keys (byKey acc') ++ map pkg_key pkgs)).
    { rewrite Hk. unfold map_keys. rewrite map_app. simpl.
      rewrite <- app_assoc. exact Hnd. }
    rewrite (IH _ _ Hnd' H), Hk. unfold map_values. rewrite !map_app. simpl.
    now rewrite <- app_assoc.
Qed.




(** ** The dependency map of the renderers never misses a key *)

Lemma traverseNode_eq node graph :
  traverseNode node graph =
  (nodeRef <- createBomRef (dn_name node) (dn_version node) ;;
   let graph1 :=
     if negb (map_has graph nodeRef) then map_set graph nodeRef []
     else graph in
   match dn_dependencies node with
   | None => Ok graph1
   | Some deps => traverseChildren deps nodeRef graph1
   end).
Proof.
  destruct node as [n v r [deps|]]; simpl; [|reflexivity].
  destruct (createBomRef n v) as [nodeRef|e]; [|reflexivity]. cbn [bind].
  generalize (if negb (map_has graph nodeRef) then map_set graph nodeRef []
              else graph).
  induction deps as [|[k c] deps IH]; intros g; simpl; [reflexivity|].
  destruct (createBomRef (dn_name c) (dn_version c)); [|reflexivity].
  cbn [bind]. destruct (graph_add g nodeRef a); [|reflexivity]. cbn [bind].
  destruct (traverseNode c a0); [|reflexivity]. cbn [bind]. apply IH.
Qed.


Lemma map_has_set {V : Type} (m : JsMap V) k k' v :
  map_has m k' = true -> map_has (map_set m k v) k' = true.
Proof.
  intros H. apply map_has_In. rewrite map_keys_set. apply add_key_In.
  left. now apply map_has_In.
Qed.




Section SpdxRenderer.
Context {P : Platform}.



(** ** The flag of the generation result *)

Lemma buildSpdxAnnotations_unresolved vulns pm d :
  (forall v, In v vulns -> resolves pm v = false) ->
  buildSpdxAnnotations vulns pm d = [].
Proof.
  intros H. unfold buildSpdxAnnotations.
  induction vulns as [|v vulns IH]; [reflexivity|]. cbn [flat_map].
  pose proof (H v (or_introl eq_refl)) as Hv. unfold resolves in Hv.
  apply map_get_None_has in Hv. rewrite Hv, IH; [reflexivity|].
  intros v' Hv'. apply H. now right.
Qed.

(** C10: in every generation result the flag [embeddedVulnerabilities]
    is true exactly when [attachVulnerabilities] was requested and the
    scan has at least one finding, whatever the format and whether or not
    a finding resolves to a package: an SPDX document none of whose
    findings matches a package has an empty [annotations] array, flag
    true or not, and a CycloneDX document carries the [vulnerabilities]
    key exactly when the flag is true, so none when attachment is
    requested and the scan has no finding. *)
Theorem embeddedVulnerabilities_flag (projectPath : jsstring)
    (options : SbomGenerateOptions) (scanResult : ScanResult)
    (generatedAt : Date) (uuid : jsstring) (res : SbomGenerationResult) :
  generateSbom projectPath options scanResult generatedAt uuid = Ok res ->
  (embeddedVulnerabilities res = true <->
   truthy_bool (o_attachVulnerabilities options) = true /\
   sr_vulnerabilities scanResult <> []) /\
  (forall doc,
     res_document res = SpdxDocumentOf doc ->
     (forall v p,
        In v (sr_vulnerabilities scanResult) ->
        In p (dt_packages (sr_dependencies scanResult)) ->
        createKey (v_package v) (v_version v) <> pkg_key p) ->
     annotations doc = []) /\
  (forall bom,
     res_document res = CycloneDxDocument bom ->
     (vulnerabilities bom = None <-> embeddedVulnerabilities res = false) /\
     (sr_vulnerabilities scanResult = [] ->
      embeddedVulnerabilities res = false /\ vulnerabilities bom = None)).
Proof.
  unfold generateSbom.
  set (format := match o_format options with Some f => f | None => cyclonedx end).
  set (flag := truthy_bool (o_attachVulnerabilities options)
               && Nat.ltb 0 (length (sr_vulnerabilities scanResult))).
  assert (Hflag : flag = true <->
            truthy_bool (o_attachVulnerabilities options) = true /\
            sr_vulnerabilities scanResult <> []).
  { unfold flag. rewrite andb_true_iff, Nat.ltb_lt.
    destruct (sr_vulnerabilities scanResult); simpl; split;
      intros [? ?]; split; auto; try lia; congruence. }
  destruct format.
  - destruct (buildCycloneDxBom uuid scanResult generatedAt options)
      as [bom|e] eqn:Eb; [|discriminate]. cbn [bind].
    intros [= <-]. cbn [embeddedVulnerabilities res_document].
    split; [exact Hflag|]. split; [discriminate|].
    intros bom' [= <-].
    unfold buildCycloneDxBom in Eb.
    destruct (buildRootComponent (sr_dependencies scanResult) options);
      [|discriminate]. cbn [bind] in Eb.
    destruct (buildPackageMetadataMap
                (dt_packages (sr_dependencies scanResult)));
      [|discriminate]. cbn [bind] in Eb.
    destruct (buildDependencyGraph (sr_dependencies scanResult));
      [|discriminate]. cbn [bind] in Eb.
    injection Eb as <-. cbn [vulnerabilities]. fold flag.
    assert (Hnone : (if flag
                     then Some (buildCycloneDxVulnerabilities
                                  (sr_vulnerabilities scanResult) (byKey a0))
                     else None) = None <-> flag = false).
    { destruct flag; split; congruence. }
    split; [exact Hnone|]. intros Hempty.
    assert (Hf : flag = false).
    { unfold flag. rewrite Hempty. apply andb_false_r. }
    split; [exact Hf | now apply Hnone].
  - destruct (buildSpdxDocument uuid scanResult generatedAt options)
      as [doc|e] eqn:Ed; [|discriminate]. cbn [bind].
    intros [= <-]. cbn [embeddedVulnerabilities res_document].
    split; [exact Hflag|]. split; [|discriminate].
    intros doc' [= <-] Hno.
    unfold buildSpdxDocument, buildPackageMetadataMap in Ed.
    destruct (foldM recordPackage (dt_packages (sr_dependencies scanResult))
                (mkPackageMetadataMap [] [])) as [pm|] eqn:Epm;
      [|discriminate]. cbn [bind] in Ed.
    destruct (buildDependencyGraph (sr_dependencies scanResult));
      [|discriminate]. cbn [bind] in Ed.
    destruct (buildSpdxPackages (sr_dependencies scanResult) (byKey pm) options);
      [|discriminate]. cbn [bind] in Ed.
    destruct (buildSpdxRelationships (sr_dependencies scanResult) (byBomRef pm)
                a options); [|discriminate]. cbn [bind] in Ed.
    injection Ed as <-. cbn [annotations].
    destruct (truthy_bool (o_attachVulnerabilities options)); [|reflexivity].
    apply buildSpdxAnnotations_unresolved. intros v Hv.
    unfold resolves. apply map_has_false.
    rewrite (packageMap_keys _ _ _ Epm). simpl. intros Hin.
    apply fold_add_key_In in Hin as [[]|Hin].
    apply in_map_iff in Hin as (p & Hp & Hin). symmetry in Hp.
    exact (Hno v p Hv Hin Hp).
Qed.
End SpdxRenderer.

(* ===================================================================== *)
(** * The properties on the example inputs                                *)
(* ===================================================================== *)

(** Visiting [package-b@2.0.0] a third time, now at depth 7 under
    [package-c] and as a dev dependency, leaves the node as the first
    visit made it. *)
Lemma first_seen_wins_witness :
  exists node,
    map_get (nodes (buildGraph diamond_tree)) (js "package-b@2.0.0")
      = Some node /\
    exists node2,
      map_get
        (fst (buildNodeRecursive (leaf "package-b" "2.0.0")
                (js "package-b@2.0.0") 7 (Some (js "package-c@1.0.0"))
                (nodes (buildGraph diamond_tree),
                 edges (buildGraph diamond_tree)) true))
        (js "package-b@2.0.0") = Some node2 /\
      same_identity node node2 /\ gn_depth node2 = 1.
Proof.
  eexists. split; [vm_compute; reflexivity|].
  destruct (first_seen_wins (leaf "package-b" "2.0.0") (js "package-b@2.0.0")
              7 (Some (js "package-c@1.0.0"))
              (nodes (buildGraph diamond_tree))
              (edges (buildGraph diamond_tree)) true _ eq_refl)
    as (_ & _ & _ & (node2 & Hget & Hsame) & _).
  exists node2. split; [exact Hget|]. split; [exact Hsame|].
  now destruct Hsame as (_ & _ & _ & -> & _).
Defined.



Lemma rendering_deterministic_witness :
  truthy_bool (o_attachVulnerabilities (cyclonedx_options false)) = false /\
  same_outcome
    (fun bom1 bom2 =>
       components bom1 = components bom2 /\
       dependencies bom1 = dependencies bom2 /\
       bom2 = with_serial (js "urn:uuid:" ++ js "second")
                (@toISOString example_platform
                   (js "2024-02-02T00:00:00.000Z")) bom1)
    (@buildCycloneDxBom example_platform (js "first")
       (demo_scan [demo_finding "lodash" "4.17.21"])
       (js "2024-02-01T00:00:00.000Z") (cyclonedx_options false))
    (@buildCycloneDxBom example_platform (js "second")
       (demo_scan [demo_finding "lodash" "4.17.21"])
       (js "2024-02-02T00:00:00.000Z") (cyclonedx_options false)).
Proof.
  split; [reflexivity|].
  exact (proj1 (@rendering_deterministic example_platform
                  (demo_scan [demo_finding "lodash" "4.17.21"])
                  (cyclonedx_options false) (js "first") (js "second")
                  (js "2024-02-01T00:00:00.000Z")
                  (js "2024-02-02T00:00:00.000Z") eq_refl)).
Defined.

(** An SPDX result with attachment requested and one finding, on a
    package that is not in the project: the flag is true and the
    [annotations] array is empty. *)
Lemma embeddedVulnerabilities_flag_witness :
  exists res,
    @generateSbom example_platform (js "/tmp/project") (spdx_options true)
      (demo_scan [demo_finding "left-pad" "1.0.0"])
      (js "2024-02-01T00:00:00.000Z") (js "uuid") = Ok res /\
    embeddedVulnerabilities res = true /\
    forall doc, res_document res = SpdxDocumentOf doc -> annotations doc = [].
Proof.
  destruct (@generateSbom example_platform (js "/tmp/project")
              (spdx_options true)
              (demo_scan [demo_finding "left-pad" "1.0.0"])
              (js "2024-02-01T00:00:00.000Z") (js "uuid")) as [res|e] eqn:E;
    [|vm_compute in E; discriminate E].
  exists res. split; [reflexivity|].
  destruct (@embeddedVulnerabilities_flag example_platform _ _ _ _ _ _ E)
    as (Hflag & Hspdx & _).
  split.
  - apply Hflag. split; [reflexivity | discriminate].
  - intros doc Hdoc. apply (Hspdx doc Hdoc).
    intros v p [<-|[]] [<-|[<-|[]]]; vm_compute; discriminate.
Defined.

(* ===================================================================== *)
(** * Further properties of the graph builder                             *)
(* ===================================================================== *)

Lemma app_sep_inj (a : N) (l1 l1' l2 l2' : jsstring) :
  ~ In a l2 -> ~ In a l2' ->
  l1 ++ a :: l2 = l1' ++ a :: l2' -> l1 = l1' /\ l2 = l2'.
Proof.
  intros H2 H2'. revert l1'.
  induction l1 as [|x l1 IH]; intros [|y l1']; simpl; intros E.
  - injection E as ->. auto.
  - injection E as -> ->. exfalso. apply H2, in_or_app. right. now left.
  - injection E as -> <-. exfalso. apply H2', in_or_app. right. now left.
  - injection E as -> E. destruct (IH _ E) as [-> ->]. auto.
Qed.

Lemma createKey_inj (name version name' version' : jsstring) :
  ~ In 64%N version -> ~ In 64%N version' ->
  createKey name version = createKey name' version' ->
  name = name' /\ version = version'.
Proof. intros Hv Hv'. unfold createKey. simpl. now apply app_sep_inj. Qed.

(** X1: the dedup key determines the name and the version when the
    versions hold no [@]: two packages with such versions have the same
    key exactly when they have the same name and the same version. *)
Theorem createKey_injective (name version name' version' : jsstring) :
  ~ In 64%N version -> ~ In 64%N version' ->
  (createKey name version = createKey name' version' <->
   name = name' /\ version = version').
Proof.
  intros Hv Hv'. split; [now apply createKey_inj|]. now intros [-> ->].
Qed.

Lemma createKey_injective_witness :
  ~ In 64%N (js "4.17.21") /\ ~ In 64%N (js "4.17.20") /\
  createKey (js "lodash") (js "4.17.21")
    <> createKey (js "lodash") (js "4.17.20").
Proof.
  assert (H : ~ In 64%N (js "4.17.21")) by (simpl; intuition discriminate).
  assert (H' : ~ In 64%N (js "4.17.20")) by (simpl; intuition discriminate).
  split; [exact H|]. split; [exact H'|]. intros E.
  apply (createKey_injective (js "lodash") (js "4.17.21") (js "lodash")
           (js "4.17.20") H H') in E.
  destruct E as [_ E]. discriminate E.
Defined.

(** X2: when every mapping files its nodes under their names and no
    version holds an [@], the node table has exactly as many nodes as the
    tree has distinct (name, version) pairs. *)
Theorem buildGraph_size (tree : DependencyTree) :
  well_keyed_forest (dt_dependencies tree) = true ->
  (forall n v, In (n, v) (forest_pairs (dt_dependencies tree)) ->
     ~ In 64%N v) ->
  length (nodes (buildGraph tree)) =
  length (nodup pair_eq_dec (forest_pairs (dt_dependencies tree))).
Proof.
  intros Hk Hv.
  replace (length (nodes (buildGraph tree)))
    with (length (map_keys (nodes (buildGraph tree))))
    by (unfold map_keys; apply length_map).
  rewrite buildGraph_keys, well_keyed_forest_ids by assumption.
  apply length_distinct_map_inj.
  intros [n v] [n' v'] Hp Hq E. simpl in E.
  destruct (createKey_inj n v n' v' (Hv _ _ Hp) (Hv _ _ Hq) E)
    as [-> ->].
  reflexivity.
Qed.

Lemma buildGraph_size_witness :
  well_keyed_forest (dt_dependencies diamond_tree) = true /\
  length (nodes (buildGraph diamond_tree)) =
  length (nodup pair_eq_dec (forest_pairs (dt_dependencies diamond_tree))).
Proof.
  split; [reflexivity|].
  apply (buildGraph_size diamond_tree); [reflexivity|].
  intros n v Hin. simpl in Hin.
  repeat (destruct Hin as [[= <- <-]|Hin];
          [simpl; intuition discriminate|]).
  destruct Hin.
Defined.

(** ** Which nodes a call creates, and with which fields *)

Lemma visit_node_origin dep nodeId depth parent ns es dev k n :
  map_get (fst (visit_node dep nodeId depth parent (ns, es) dev)) k = Some n ->
  (exists n0, map_get ns k = Some n0 /\ same_identity n0 n) \/
  (k = nodeId /\ map_has ns nodeId = false /\
   gn_id n = nodeId /\ gn_name n = dn_name dep /\
   gn_version n = dn_version dep /\ gn_depth n = depth /\
   gn_parent n = parent /\ gn_vulnerabilities n = 0 /\
   gn_isDevDependency n = dev).
Proof.
  rewrite visit_node_cases.
  assert (Hcr : forall n1,
            map_get (created dep nodeId depth parent ns dev) k = Some n1 ->
            (exists n0, map_get ns k = Some n0 /\ same_identity n0 n1) \/
            (k = nodeId /\ map_has ns nodeId = false /\
             gn_id n1 = nodeId /\ gn_name n1 = dn_name dep /\
             gn_version n1 = dn_version dep /\ gn_depth n1 = depth /\
             gn_parent n1 = parent /\ gn_vulnerabilities n1 = 0 /\
             gn_isDevDependency n1 = dev)).
  { unfold created. intros n1. destruct (map_has ns nodeId) eqn:E.
    - intros H. left. exists n1. split; [assumption|].
      apply same_identity_refl.
    - rewrite map_get_set. destruct (str_eqb nodeId k) eqn:Ek.
      + apply str_eqb_eq in Ek. subst k. intros [= <-]. right. simpl.
        repeat split; assumption.
      + intros H. left. exists n1. split; [assumption|].
        apply same_identity_refl. }
  destruct (truthy_str parent) as [p|]; simpl; [|apply Hcr].
  destruct (map_get (created dep nodeId depth parent ns dev) p) as [pn|] eqn:Ep;
    [|apply Hcr].
  destruct (includes (gn_children pn) nodeId); [apply Hcr|].
  rewrite map_get_set. destruct (str_eqb p k) eqn:Ek; [|apply Hcr].
  apply str_eqb_eq in Ek. subst k. intros [= <-].
  destruct (Hcr _ Ep) as [(n0 & Hn0 & Hs)|Hnew].
  - left. exists n0. split; [assumption|].
    eapply same_identity_trans; [exact Hs|]. unfold same_identity. simpl.
    tauto.
  - right. simpl. exact Hnew.
Qed.

(** A reflexive and transitive relation between node tables that every
    visit with the flag [dev] establishes holds between the table before
    and the table after a whole call with that flag. *)
Lemma build_table_relation (R : JsMap GraphNode -> JsMap GraphNode -> Prop)
    (dev : bool) :
  (forall ns, R ns ns) ->
  (forall ns1 ns2 ns3, R ns1 ns2 -> R ns2 ns3 -> R ns1 ns3) ->
  (forall dep nodeId depth parent ns es,
     R ns (fst (visit_node dep nodeId depth parent (ns, es) dev))) ->
  forall dep nodeId depth parent st,
    R (fst st) (fst (buildNodeRecursive dep nodeId depth parent st dev)).
Proof.
  intros Hrefl Htrans Hvisit.
  induction dep using DependencyNode_induction;
    intros nodeId depth parent [ns es]; rewrite buildNodeRecursive_eq; simpl.
  - apply Hvisit.
  - pose proof (Hvisit (mkDependencyNode n v r (Some deps)) nodeId depth
                  parent ns es) as Hv.
    revert Hv.
    generalize (visit_node (mkDependencyNode n v r (Some deps)) nodeId depth
                  parent (ns, es) dev).
    induction H as [|[k c] deps Hc Hdeps IH]; intros s Hs; simpl;
      [assumption|].
    apply IH. eapply Htrans; [exact Hs|]. simpl in Hc. apply Hc.
Qed.

Lemma buildRoots_table_relation
    (R : JsMap GraphNode -> JsMap GraphNode -> Prop) :
  (forall ns, R ns ns) ->
  (forall ns1 ns2 ns3, R ns1 ns2 -> R ns2 ns3 -> R ns1 ns3) ->
  (forall dep nodeId depth parent ns es,
     R ns (fst (visit_node dep nodeId depth parent (ns, es) false))) ->
  forall l g, R (nodes g) (nodes (buildRoots l g)).
Proof.
  intros Hrefl Htrans Hvisit. induction l as [|[k c] l IH]; intros g; simpl;
    [apply Hrefl|].
  pose proof (build_table_relation R false Hrefl Htrans Hvisit c
                (createKey k (dn_version c)) 0 None (nodes g, edges g)) as Hb.
  destruct (buildNodeRecursive c (createKey k (dn_version c)) 0 None
              (nodes g, edges g) false) as [ns es].
  eapply Htrans; [exact Hb|]. apply (IH (mkDependencyGraph ns es _)).
Qed.

Lemma flagged_since_refl dev ns : flagged_since dev ns ns.
Proof.
  intros k n H. left. exists n. split; [assumption|].
  apply same_identity_refl.
Qed.

Lemma flagged_since_trans dev ns1 ns2 ns3 :
  flagged_since dev ns1 ns2 -> flagged_since dev ns2 ns3 ->
  flagged_since dev ns1 ns3.
Proof.
  intros H12 H23 k n H.
  destruct (H23 _ _ H) as [(n2 & Hn2 & Hs2)|Hnew]; [|now right].
  destruct (H12 _ _ Hn2) as [(n1 & Hn1 & Hs1)|(Hid & Hv & Hd)].
  - left. exists n1. split; [assumption|].
    eapply same_identity_trans; eassumption.
  - right. destruct Hs2 as (-> & _ & _ & _ & _ & -> & ->). auto.
Qed.

Lemma visit_node_flagged dev dep nodeId depth parent ns es :
  flagged_since dev ns (fst (visit_node dep nodeId depth parent (ns, es) dev)).
Proof.
  intros k n H. apply visit_node_origin in H as [Hold|Hnew]; [now left|].
  right. destruct Hnew as (-> & _ & -> & _ & _ & _ & _ & -> & ->). auto.
Qed.

(** X3: the dev flag given to a call of [buildNodeRecursive] is the flag
    of every node the call creates, at any depth below it, each with a
    vulnerability count of 0; the nodes that were in the table keep their
    own. [buildGraph] passes [false]: every node of its graphs is filed
    under its own id, is not a dev dependency and counts no
    vulnerability. *)
Theorem dev_flag_propagates :
  (forall dep nodeId depth parent st dev k n,
     map_get (fst (buildNodeRecursive dep nodeId depth parent st dev)) k
       = Some n ->
     (exists n0, map_get (fst st) k = Some n0 /\ same_identity n0 n) \/
     (gn_id n = k /\ gn_vulnerabilities n = 0 /\
      gn_isDevDependency n = dev)) /\
  (forall tree k n,
     map_get (nodes (buildGraph tree)) k = Some n ->
     gn_id n = k /\ gn_vulnerabilities n = 0 /\
     gn_isDevDependency n = false).
Proof.
  split.
  - intros dep nodeId depth parent st dev.
    apply (build_table_relation (flagged_since dev) dev
             (flagged_since_refl dev) (flagged_since_trans dev)
             (visit_node_flagged dev)).
  - intros tree k n H. unfold buildGraph in H.
    destruct (buildRoots_table_relation (flagged_since false)
                (flagged_since_refl false) (flagged_since_trans false)
                (visit_node_flagged false) (dt_dependencies tree)
                (mkDependencyGraph [] [] []) k n H)
      as [(n0 & Hn0 & _)|Hnew]; [discriminate Hn0 | exact Hnew].
Qed.

(** ** Parent links *)

Lemma visit_node_parent_links rs dep nodeId depth parent ns es dev :
  parent_links_ok rs ns ->
  call_ok rs ns nodeId depth parent ->
  parent_links_ok rs (fst (visit_node dep nodeId depth parent (ns, es) dev)).
Proof.
  intros Hinv Hcall k n Hget.
  pose proof (visit_node_extends dep nodeId depth parent (ns, es) dev) as Hext.
  simpl in Hext.
  apply visit_node_origin in Hget as [(n0 & Hn0 & Hs)|Hnew].
  - specialize (Hinv _ _ Hn0).
    destruct Hs as (_ & _ & _ & -> & -> & _).
    destruct (gn_parent n0) as [p|]; [|exact Hinv].
    destruct Hinv as (Hd & pn & Hpn & Hin). split; [exact Hd|].
    destruct (Hext _ _ Hpn) as (pn' & Hpn' & _ & extra & Hc).
    exists pn'. split; [exact Hpn'|]. rewrite Hc. apply in_or_app. now left.
  - destruct Hnew as (-> & _ & _ & _ & _ & -> & -> & _).
    unfold call_ok in Hcall. destruct parent as [p|]; [|exact Hcall].
    destruct Hcall as (Hp & Hd & Hhas). split; [exact Hd|].
    apply (visit_node_child dep nodeId depth (Some p) ns es dev p);
      [now apply truthy_str_Some | exact Hhas].
Qed.

Lemma build_parent_links rs :
  forall dep nodeId depth parent st dev,
    nodeId <> [] ->
    parent_links_ok rs (fst st) ->
    call_ok rs (fst st) nodeId depth parent ->
    parent_links_ok rs (fst (buildNodeRecursive dep nodeId depth parent st dev)).
Proof.
  induction dep using DependencyNode_induction;
    intros nodeId depth parent [ns es] dev Hne Hinv Hcall;
    rewrite buildNodeRecursive_eq; simpl in *.
  - now apply visit_node_parent_links.
  - pose proof (visit_node_parent_links rs
                  (mkDependencyNode n v r (Some deps)) nodeId depth parent ns
                  es dev Hinv Hcall) as Hv.
    pose proof (visit_node_has (mkDependencyNode n v r (Some deps)) nodeId
                  depth parent (ns, es) dev) as Hself.
    revert Hv Hself.
    generalize (visit_node (mkDependencyNode n v r (Some deps)) nodeId depth
                  parent (ns, es) dev).
    induction H as [|[k c] deps Hc Hdeps IH]; intros s Hs Hself; simpl;
      [assumption|].
    simpl in Hc. apply IH.
    + apply Hc; auto using createKey_nonempty.
      unfold call_ok. split; [assumption|]. split; [lia | assumption].
    + eapply extends_has; [|exact Hself]. apply build_extends.
Qed.

Lemma parent_links_roots rs r ns :
  parent_links_ok rs ns -> parent_links_ok (rs ++ [r]) ns.
Proof.
  intros H k n Hget. specialize (H _ _ Hget).
  destruct (gn_parent n); [exact H|]. destruct H as [Hd Hin].
  split; [exact Hd|]. apply in_or_app. now left.
Qed.

Lemma buildRoots_parent_links l g :
  parent_links_ok (roots g) (nodes g) ->
  parent_links_ok (roots (buildRoots l g)) (nodes (buildRoots l g)).
Proof.
  revert g; induction l as [|[k c] l IH]; intros g Hinv; simpl; [assumption|].
  pose proof (build_parent_links (roots g ++ [createKey k (dn_version c)]) c
                (createKey k (dn_version c)) 0 None (nodes g, edges g) false
                (createKey_nonempty _ _)) as Hb.
  destruct (buildNodeRecursive c (createKey k (dn_version c)) 0 None
              (nodes g, edges g) false) as [ns es].
  apply IH. simpl in *. apply Hb.
  - now apply parent_links_roots.
  - split; [reflexivity|]. apply in_or_app. right. now left.
Qed.

(** X4: in every graph of [buildGraph] the parent link and the depth of
    a node agree with the graph: a node without a parent has depth 0 and
    is one of the roots; a node with a parent has a positive depth, its
    parent is a node of the table, and it is among the [children] of that
    parent. So the nodes [getDirectDependencies] returns are roots. *)
Theorem buildGraph_parent_links (tree : DependencyTree) :
  parent_links_ok (roots (buildGraph tree)) (nodes (buildGraph tree)) /\
  (forall n, In n (getDirectDependencies (buildGraph tree)) ->
     gn_parent n = None /\ In (gn_id n) (roots (buildGraph tree))).
Proof.
  assert (Hinv : parent_links_ok (roots (buildGraph tree))
                   (nodes (buildGraph tree))).
  { unfold buildGraph. apply buildRoots_parent_links. intros k n.
    discriminate. }
  split; [exact Hinv|].
  intros n Hin. unfold getDirectDependencies in Hin.
  apply filter_In in Hin as [Hin Hd]. apply Nat.eqb_eq in Hd.
  unfold map_values in Hin. apply in_map_iff in Hin as ([k n'] & <- & Hin).
  simpl in *.
  assert (Hget : map_get (nodes (buildGraph tree)) k = Some n').
  { apply In_map_get_NoDup; [|exact Hin]. rewrite buildGraph_keys.
    apply distinct_NoDup. }
  assert (Hid : gn_id n' = k).
  { unfold buildGraph in Hget.
    destruct (buildRoots_table_relation (flagged_since false)
                (flagged_since_refl false) (flagged_since_trans false)
                (visit_node_flagged false) (dt_dependencies tree)
                (mkDependencyGraph [] [] []) k n' Hget)
      as [(n0 & Hn0 & _)|(Hid & _)]; [discriminate Hn0 | exact Hid]. }
  specialize (Hinv _ _ Hget). rewrite Hid.
  destruct (gn_parent n') as [p|]; [lia|]. destruct Hinv. auto.
Qed.

(** ** Edges and children *)

Lemma distinct_snoc l x : distinct (l ++ [x]) = add_key (distinct l) x.
Proof. unfold distinct. now rewrite fold_left_app. Qed.

Lemma targets_from_snoc p es e :
  targets_from p (es ++ [e]) =
  targets_from p es ++ (if str_eqb (from e) p then [to e] else []).
Proof.
  unfold targets_from. rewrite filter_app, map_app. simpl.
  now destruct (str_eqb (from e) p).
Qed.

Lemma targets_from_absent (ns : JsMap GraphNode) es p :
  (forall e, In e es -> map_has ns (from e) = true) ->
  map_has ns p = false -> targets_from p es = [].
Proof.
  intros Hfrom Habs. unfold targets_from.
  induction es as [|e es IH]; [reflexivity|]. simpl.
  destruct (str_eqb (from e) p) eqn:E.
  - apply str_eqb_eq in E. specialize (Hfrom e (or_introl eq_refl)).
    congruence.
  - apply IH. intros e' He'. apply Hfrom. now right.
Qed.

Lemma visit_node_parent_children dep nodeId depth parent ns es dev p pn :
  truthy_str parent = Some p ->
  map_get ns p = Some pn ->
  exists pn',
    map_get (fst (visit_node dep nodeId depth parent (ns, es) dev)) p
      = Some pn' /\
    gn_children pn' = add_key (gn_children pn) nodeId.
Proof.
  intros Hp Hget. rewrite visit_node_cases, Hp. simpl.
  assert (Hcr : map_get (created dep nodeId depth parent ns dev) p = Some pn).
  { unfold created. destruct (map_has ns nodeId) eqn:E; [assumption|].
    rewrite map_get_set_other; [assumption|]. intros ->.
    apply map_get_Some_has in Hget. congruence. }
  rewrite Hcr. unfold add_key.
  destruct (includes (gn_children pn) nodeId).
  - exists pn. auto.
  - exists (push_child pn nodeId). rewrite map_get_set_same. auto.
Qed.

Lemma visit_node_children_targets dep nodeId depth parent ns es dev :
  children_are_targets ns es ->
  link_ok [nodeId] ns nodeId parent ->
  children_are_targets
    (fst (visit_node dep nodeId depth parent (ns, es) dev))
    (snd (visit_node dep nodeId depth parent (ns, es) dev)).
Proof.
  intros (Hch & Hfrom) Hlink.
  pose proof (visit_node_extends dep nodeId depth parent (ns, es) dev) as Hext.
  simpl in Hext. unfold link_ok in Hlink. split.
  - intros q qn Hq. rewrite visit_node_edges. simpl.
    destruct (truthy_str parent) as [p|] eqn:Ep.
    + rewrite targets_from_snoc. simpl.
      destruct (str_eqb p q) eqn:Epq.
      * apply str_eqb_eq in Epq. subst q.
        apply map_has_get in Hlink as (pn & Hpn).
        destruct (visit_node_parent_children dep nodeId depth parent ns es dev
                    p pn Ep Hpn) as (pn' & Hpn' & Hc).
        rewrite Hq in Hpn'. injection Hpn' as <-.
        rewrite Hc, (Hch _ _ Hpn). now rewrite distinct_snoc.
      * rewrite app_nil_r.
        apply visit_node_lookup in Hq as (base & Hbase & Hn').
        destruct Hn' as [->|(_ & Hpar)];
          [|rewrite Ep in Hpar; injection Hpar as ->;
            rewrite str_eqb_refl in Epq; discriminate].
        destruct Hbase as [Hold|(-> & Hnil & Habs)]; [now apply Hch|].
        rewrite Hnil. now rewrite (targets_from_absent ns es nodeId Hfrom Habs).
    + rewrite app_nil_r.
      apply visit_node_lookup in Hq as (base & Hbase & Hn').
      destruct Hn' as [->|(_ & Hpar)]; [|rewrite Ep in Hpar; discriminate].
      destruct Hbase as [Hold|(-> & Hnil & Habs)]; [now apply Hch|].
      rewrite Hnil. now rewrite (targets_from_absent ns es nodeId Hfrom Habs).
  - intros e He. rewrite visit_node_edges in He. simpl in He.
    apply in_app_or in He as [He|He].
    + eapply extends_has; [exact Hext|]. now apply Hfrom.
    + destruct (truthy_str parent) as [p|]; [|destruct He].
      destruct He as [<-|[]]. simpl. eapply extends_has; eauto.
Qed.

Lemma build_children_targets :
  forall dep nodeId depth parent st dev,
    nodeId <> [] ->
    children_are_targets (fst st) (snd st) ->
    link_ok [nodeId] (fst st) nodeId parent ->
    children_are_targets
      (fst (buildNodeRecursive dep nodeId depth parent st dev))
      (snd (buildNodeRecursive dep nodeId depth parent st dev)).
Proof.
  induction dep using DependencyNode_induction;
    intros nodeId depth parent [ns es] dev Hne Hinv Hlink;
    rewrite buildNodeRecursive_eq; simpl in *.
  - now apply visit_node_children_targets.
  - pose proof (visit_node_children_targets
                  (mkDependencyNode n v r (Some deps)) nodeId depth parent ns
                  es dev Hinv Hlink) as Hv.
    pose proof (visit_node_has (mkDependencyNode n v r (Some deps)) nodeId
                  depth parent (ns, es) dev) as Hself.
    revert Hv Hself.
    generalize (visit_node (mkDependencyNode n v r (Some deps)) nodeId depth
                  parent (ns, es) dev).
    induction H as [|[k c] deps Hc Hdeps IH]; intros s Hs Hself; simpl;
      [assumption|].
    simpl in Hc. apply IH.
    + apply Hc; auto using createKey_nonempty.
      unfold link_ok. now rewrite truthy_str_Some.
    + eapply extends_has; [|exact Hself]. apply build_extends.
Qed.

Lemma buildRoots_children_targets l g :
  children_are_targets (nodes g) (edges g) ->
  children_are_targets (nodes (buildRoots l g)) (edges (buildRoots l g)).
Proof.
  revert g; induction l as [|[k c] l IH]; intros g Hinv; simpl; [assumption|].
  pose proof (build_children_targets c (createKey k (dn_version c)) 0 None
                (nodes g, edges g) false (createKey_nonempty _ _) Hinv) as Hb.
  destruct (buildNodeRecursive c (createKey k (dn_version c)) 0 None
              (nodes g, edges g) false) as [ns es].
  apply IH. simpl in *. apply Hb. unfold link_ok. simpl. now left.
Qed.

(** X5: in every graph of [buildGraph] the [children] list of a node is
    the list of the distinct targets of the edges that leave it, in the
    order in which the edges first name them, and every edge leaves a node
    of the table: a child link exists exactly where an edge does. *)
Theorem buildGraph_children_are_targets (tree : DependencyTree) :
  children_are_targets (nodes (buildGraph tree)) (edges (buildGraph tree)) /\
  (forall p pn c,
     map_get (nodes (buildGraph tree)) p = Some pn ->
     (In c (gn_children pn) <-> In (mkEdge p c) (edges (buildGraph tree)))).
Proof.
  assert (Hinv : children_are_targets (nodes (buildGraph tree))
                   (edges (buildGraph tree))).
  { unfold buildGraph. apply buildRoots_children_targets. split.
    - discriminate.
    - intros e []. }
  split; [exact Hinv|].
  intros p pn c Hp. rewrite (proj1 Hinv _ _ Hp), distinct_In.
  unfold targets_from. rewrite in_map_iff. split.
  - intros ([f t] & <- & He). apply filter_In in He as [He Hf].
    simpl in Hf. apply str_eqb_eq in Hf. simpl in *. now subst f.
  - intros He. exists (mkEdge p c). split; [reflexivity|].
    apply filter_In. split; [assumption|]. simpl. apply str_eqb_refl.
Qed.

(** ** The number of edges and the roots *)

Lemma build_edges_length :
  forall dep nodeId depth parent st dev,
    nodeId <> [] ->
    length (snd (buildNodeRecursive dep nodeId depth parent st dev))
    + match truthy_str parent with Some _ => 0 | None => 1 end
    = length (snd st) + tree_size dep.
Proof.
  induction dep using DependencyNode_induction;
    intros nodeId depth parent [ns es] dev Hne;
    rewrite buildNodeRecursive_eq, tree_size_eq; cbn [dn_dependencies snd].
  - rewrite visit_node_edges. simpl.
    destruct (truthy_str parent); rewrite length_app; simpl; lia.
  - assert (Hv : length (snd (visit_node (mkDependencyNode n v r (Some deps))
                               nodeId depth parent (ns, es) dev))
                 + match truthy_str parent with Some _ => 0 | None => 1 end
                 = length es + 1).
    { rewrite visit_node_edges. simpl.
      destruct (truthy_str parent); rewrite length_app; simpl; lia. }
    revert Hv.
    generalize (visit_node (mkDependencyNode n v r (Some deps)) nodeId depth
                  parent (ns, es) dev).
    enough (Hloop : forall s,
              length (snd (buildChildren deps nodeId depth s dev))
              = length (snd s) + forest_size deps).
    { intros s Hs. rewrite Hloop. lia. }
    induction H as [|[k c] deps Hc Hdeps IH]; intros s; simpl; [lia|].
    rewrite IH. simpl in Hc.
    specialize (Hc (createKey k (dn_version c)) (depth + 1) (Some nodeId) s
                  dev (createKey_nonempty _ _)).
    rewrite truthy_str_Some in Hc by assumption. cbv iota in Hc.
    unfold jsstring in *. lia.
Qed.

Lemma buildRoots_edges_roots l g :
  length (edges (buildRoots l g)) + length l
  = length (edges g) + forest_size l /\
  roots (buildRoots l g) =
  roots g ++ map (fun kc => createKey (fst kc) (dn_version (snd kc))) l.
Proof.
  revert g; induction l as [|[k c] l IH]; intros g; simpl.
  - split; [lia | now rewrite app_nil_r].
  - pose proof (build_edges_length c (createKey k (dn_version c)) 0 None
                  (nodes g, edges g) false (createKey_nonempty _ _)) as Hb.
    destruct (buildNodeRecursive c (createKey k (dn_version c)) 0 None
                (nodes g, edges g) false) as [ns es].
    destruct (IH (mkDependencyGraph ns es
                    (roots g ++ [createKey k (dn_version c)]))) as [He Hr].
    simpl in *. split; [lia|]. now rewrite Hr, <- app_assoc.
Qed.

(** X6: [buildGraph] records one root per entry of the top-level mapping,
    in order, under the id made of the mapping key and the version of the
    node, and one edge per node occurrence of the tree below the top
    level: the edge list, which keeps duplicates, has as many entries as
    the tree has occurrences that are not top-level entries. *)
Theorem buildGraph_roots_and_edges (tree : DependencyTree) :
  roots (buildGraph tree) =
    map (fun kc => createKey (fst kc) (dn_version (snd kc)))
      (dt_dependencies tree) /\
  length (edges (buildGraph tree)) + length (dt_dependencies tree) =
    forest_size (dt_dependencies tree).
Proof.
  unfold buildGraph.
  destruct (buildRoots_edges_roots (dt_dependencies tree)
              (mkDependencyGraph [] [] [])) as [He Hr].
  split; [exact Hr | exact He].
Qed.

(** ** The query layer *)

Lemma filter_partition_perm {A : Type} (f : A -> bool) (l : list A) :
  Permutation (filter f l ++ filter (fun x => negb (f x)) l) l.
Proof.
  induction l as [|a l IH]; simpl; [constructor|].
  destruct (f a); simpl.
  - now constructor.
  - apply Permutation_sym, Permutation_cons_app, Permutation_sym, IH.
Qed.


(* ===================================================================== *)
(** * Properties: the visualizer                                          *)
(* ===================================================================== *)

Lemma renderTreeNode_eq fuel g nodeId depth prefix lines maxDepth sv hv :
  renderTreeNode (S fuel) g nodeId depth prefix lines maxDepth sv hv =
  if exceeds depth maxDepth then Some lines
  else
    match map_get (nodes g) nodeId with
    | None => Some lines
    | Some node =>
        renderChildren fuel g (length (gn_children node)) 0
          (gn_children node) depth prefix
          (lines ++ [prefix ++ tree_label sv hv node]) maxDepth sv hv
    end.
Proof.
  simpl. destruct (exceeds depth maxDepth); [reflexivity|].
  destruct (map_get (nodes g) nodeId) as [node|]; [|reflexivity].
  match goal with
  | |- ?loop 0 (gn_children node) ?acc0 = _ =>
      enough (Hloop : forall l i acc,
                loop i l acc =
                renderChildren fuel g (length (gn_children node)) i l depth
                  prefix acc maxDepth sv hv) by apply Hloop
  end.
  induction l as [|c l IH]; intros i acc; simpl; [reflexivity|].
  destruct (renderTreeNode fuel g c (depth + 1)
              (prefix ++ (if Nat.eqb i (length (gn_children node) - 1)
                          then last_branch else mid_branch))
              acc maxDepth sv hv); [apply IH | reflexivity].
Qed.

Lemma renderChildren_fuel_mono g maxDepth sv hv :
  forall fuel total i l depth prefix acc res,
    renderChildren fuel g total i l depth prefix acc maxDepth sv hv
      = Some res ->
    renderChildren (S fuel) g total i l depth prefix acc maxDepth sv hv
      = Some res.
Proof.
  induction fuel as [|fuel IHf]; intros total i l;
    revert i; induction l as [|c l IHl]; intros i depth prefix acc res;
    try (simpl; auto; fail).
  - simpl. discriminate.
  - cbn [renderChildren].
    destruct (renderTreeNode (S fuel) g c (depth + 1)
                (prefix ++ (if Nat.eqb i (total - 1) then last_branch
                            else mid_branch)) acc maxDepth sv hv)
      as [acc'|] eqn:E; [|discriminate].
    intros H.
    assert (E' : renderTreeNode (S (S fuel)) g c (depth + 1)
                   (prefix ++ (if Nat.eqb i (total - 1) then last_branch
                               else mid_branch)) acc maxDepth sv hv
                 = Some acc').
    { rewrite renderTreeNode_eq in *.
      destruct (exceeds (depth + 1) maxDepth); [assumption|].
      destruct (map_get (nodes g) c); [|assumption]. now apply IHf. }
    rewrite E'. now apply IHl.
Qed.

Lemma renderRoots_fuel_mono g maxDepth sv hv fuel :
  forall l lines res,
    renderRoots fuel g l lines maxDepth sv hv = Some res ->
    renderRoots (S fuel) g l lines maxDepth sv hv = Some res.
Proof.
  induction l as [|r l IH]; intros lines res; [auto|]. cbn [renderRoots].
  destruct (renderTreeNode fuel g r 0 [] lines maxDepth sv hv) as [lines'|]
    eqn:E; [|discriminate].
  intros H.
  assert (E' : renderTreeNode (S fuel) g r 0 [] lines maxDepth sv hv
               = Some lines').
  { destruct fuel as [|fuel]; [discriminate E|].
    rewrite renderTreeNode_eq in *.
    destruct (exceeds 0 maxDepth); [assumption|].
    destruct (map_get (nodes g) r); [|assumption].
    now apply renderChildren_fuel_mono. }
  rewrite E'. now apply IH.
Qed.

Lemma renderRoots_fuel_le g maxDepth sv hv fuel fuel' l lines res :
  fuel <= fuel' ->
  renderRoots fuel g l lines maxDepth sv hv = Some res ->
  renderRoots fuel' g l lines maxDepth sv hv = Some res.
Proof.
  induction 1 as [|fuel' Hle IH]; [auto|]. intros H.
  now apply renderRoots_fuel_mono, IH.
Qed.

(** With a finite [maxDepth] the rendering returns on any graph. *)
Lemma renderTreeNode_bounded g m sv hv :
  forall fuel nodeId depth prefix lines,
    Z.to_nat (m + 1 - Z.of_nat depth) < fuel ->
    exists res,
      renderTreeNode fuel g nodeId depth prefix lines (Some m) sv hv
        = Some res.
Proof.
  induction fuel as [|fuel IH]; intros nodeId depth prefix lines Hf; [lia|].
  rewrite renderTreeNode_eq.
  destruct (exceeds depth (Some m)) eqn:Ex; [eauto|].
  destruct (map_get (nodes g) nodeId) as [node|]; [|eauto].
  simpl in Ex. apply Z.ltb_ge in Ex.
  generalize (lines ++ [prefix ++ tree_label sv hv node]).
  generalize 0. generalize (length (gn_children node)).
  induction (gn_children node) as [|c l IHl]; intros total i acc; simpl;
    [eauto|].
  destruct (IH c (depth + 1)
              (prefix ++ (if Nat.eqb i (total - 1) then last_branch
                          else mid_branch)) acc) as (acc' & ->); [lia|].
  apply IHl.
Qed.

(** With an acyclic graph the rendering returns whatever [maxDepth]. *)
Lemma renderTreeNode_acyclic g rank maxDepth sv hv :
  rank_ok g rank = true ->
  forall fuel nodeId depth prefix lines,
    (forall n, map_get (nodes g) nodeId = Some n -> S (rank nodeId) < fuel) ->
    0 < fuel ->
    exists res,
      renderTreeNode fuel g nodeId depth prefix lines maxDepth sv hv
        = Some res.
Proof.
  intros Hrank.
  induction fuel as [|fuel IH]; intros nodeId depth prefix lines Hf Hpos;
    [lia|].
  rewrite renderTreeNode_eq.
  destruct (exceeds depth maxDepth); [eauto|].
  destruct (map_get (nodes g) nodeId) as [node|] eqn:En; [|eauto].
  specialize (Hf node eq_refl).
  assert (Hch : forall c n', In c (gn_children node) ->
                  map_get (nodes g) c = Some n' -> rank c < rank nodeId).
  { intros c n' Hin Hc. eapply rank_ok_sound; eauto. }
  revert Hch.
  generalize (lines ++ [prefix ++ tree_label sv hv node]).
  generalize 0. generalize (length (gn_children node)).
  induction (gn_children node) as [|c l IHl]; intros total i acc Hch; simpl;
    [eauto|].
  destruct (IH c (depth + 1)
              (prefix ++ (if Nat.eqb i (total - 1) then last_branch
                          else mid_branch)) acc) as (acc' & ->).
  - intros n' Hn'. specialize (Hch c n' (or_introl eq_refl) Hn'). lia.
  - lia.
  - apply IHl. intros c' n' Hin. apply Hch. now right.
Qed.

(** What a rendering appends. *)
Lemma renderTreeNode_lines g maxDepth sv hv :
  forall fuel nodeId depth prefix lines res,
    renderTreeNode fuel g nodeId depth prefix lines maxDepth sv hv
      = Some res ->
    exists new,
      res = lines ++ new /\
      Forall (tree_line g maxDepth sv hv depth prefix) new.
Proof.
  induction fuel as [|fuel IH]; intros nodeId depth prefix lines res;
    [discriminate|].
  rewrite renderTreeNode_eq.
  destruct (exceeds depth maxDepth) eqn:Ex.
  { intros [= <-]. exists []. now rewrite app_nil_r. }
  destruct (map_get (nodes g) nodeId) as [node|] eqn:En.
  2: { intros [= <-]. exists []. now rewrite app_nil_r. }
  assert (Hown : tree_line g maxDepth sv hv depth prefix
                   (prefix ++ tree_label sv hv node)).
  { exists [], node. split; [constructor|]. simpl.
    rewrite Nat.add_0_r. split; [assumption|]. split; [|reflexivity].
    eapply map_get_In_values, En. }
  enough (Hloop : forall l total i acc res',
            renderChildren fuel g total i l depth prefix acc maxDepth sv hv
              = Some res' ->
            exists new,
              res' = acc ++ new /\
              Forall (tree_line g maxDepth sv hv depth prefix) new).
  { intros H. destruct (Hloop _ _ _ _ _ H) as (new & -> & Hnew).
    exists ((prefix ++ tree_label sv hv node) :: new).
    split; [now rewrite <- app_assoc|]. now constructor. }
  induction l as [|c l IHl]; intros total i acc res'; simpl.
  { intros [= <-]. exists []. now rewrite app_nil_r. }
  destruct (renderTreeNode fuel g c (depth + 1)
              (prefix ++ (if Nat.eqb i (total - 1) then last_branch
                          else mid_branch)) acc maxDepth sv hv)
    as [acc'|] eqn:E; [|discriminate].
  intros H. destruct (IH _ _ _ _ _ E) as (new1 & -> & H1).
  destruct (IHl _ _ _ _ H) as (new2 & -> & H2).
  exists (new1 ++ new2). split; [now rewrite app_assoc|].
  apply Forall_app. split; [|assumption].
  eapply Forall_impl; [|exact H1].
  intros line (cs & nd & Hcs & Hd & Hin & ->).
  exists ((if Nat.eqb i (total - 1) then last_branch else mid_branch) :: cs), nd.
  split.
  - constructor; [|assumption]. unfold is_connector.
    destruct (Nat.eqb i (total - 1)); auto.
  - split; [|split; [assumption|]].
    + simpl. replace (depth + S (length cs)) with (depth + 1 + length cs)
        by lia. assumption.
    + simpl. now rewrite <- !app_assoc.
Qed.

Lemma renderRoots_lines g maxDepth sv hv fuel :
  forall l lines res,
    renderRoots fuel g l lines maxDepth sv hv = Some res ->
    exists new,
      res = lines ++ new /\ Forall (tree_line g maxDepth sv hv 0 []) new.
Proof.
  induction l as [|r l IH]; intros lines res; simpl.
  { intros [= <-]. exists []. now rewrite app_nil_r. }
  destruct (renderTreeNode fuel g r 0 [] lines maxDepth sv hv) as [lines'|]
    eqn:E; [|discriminate].
  intros H. destruct (renderTreeNode_lines _ _ _ _ _ _ _ _ _ _ E)
    as (new1 & -> & H1).
  destruct (IH _ _ H) as (new2 & -> & H2).
  exists (new1 ++ new2). split; [now rewrite app_assoc|].
  apply Forall_app. auto.
Qed.

Lemma renderRoots_bounded g m sv hv fuel :
  Z.to_nat (m + 1) < fuel ->
  forall l lines,
    exists res, renderRoots fuel g l lines (Some m) sv hv = Some res.
Proof.
  intros Hf. induction l as [|r l IH]; intros lines; simpl; [eauto|].
  destruct (renderTreeNode_bounded g m sv hv fuel r 0 [] lines) as (res & ->);
    [simpl; rewrite Z.sub_0_r; exact Hf|].
  apply IH.
Qed.

Lemma renderRoots_acyclic g rank maxDepth sv hv fuel :
  rank_ok g rank = true ->
  S (list_max (map rank (roots g))) < fuel ->
  forall l lines,
    incl l (roots g) ->
    exists res, renderRoots fuel g l lines maxDepth sv hv = Some res.
Proof.
  intros Hrank Hf. induction l as [|r l IH]; intros lines Hincl; simpl;
    [eauto|].
  destruct (renderTreeNode_acyclic g rank maxDepth sv hv Hrank fuel r 0 []
              lines) as (res & ->).
  - intros n _.
    assert (H : list_max (map rank (roots g)) <= list_max (map rank (roots g)))
      by lia.
    apply list_max_le in H. rewrite Forall_forall in H.
    specialize (H (rank r) (in_map rank _ _ (Hincl r (or_introl eq_refl)))).
    lia.
  - lia.
  - apply IH. intros x Hx. apply Hincl. now right.
Qed.

(** X8: with a finite [maxDepth], [visualizeAsTree] returns on every
    graph, cyclic or not, with a call stack of at most [maxDepth + 2]
    frames. Every line of the text is the label of a node of the table
    behind one branch connector (['└── '] or ['├── ']) per level of its
    depth, which is at most [maxDepth]; the continuation strings are
    never written. A negative [maxDepth] gives the empty text. *)
Theorem visualizeAsTree_bounded (g : DependencyGraph)
    (options : VisualizationOptions) (m : Z) :
  vo_maxDepth options = Some m ->
  exists lines,
    (forall fuel, Z.to_nat (m + 1) < fuel ->
       visualizeAsTree fuel g options = Some (join [10%N] lines)) /\
    Forall
      (tree_line g (Some m)
         (match vo_showVersions options with Some b => b | None => true end)
         (vo_highlightVulnerabilities options) 0 [])
      lines /\
    ((m < 0)%Z -> lines = []).
Proof.
  intros Hm.
  set (sv := match vo_showVersions options with Some b => b | None => true end).
  set (hv := vo_highlightVulnerabilities options).
  destruct (renderRoots_bounded g m sv hv (S (Z.to_nat (m + 1)))
              (Nat.lt_succ_diag_r _) (roots g) []) as (lines & Hlines).
  destruct (renderRoots_lines _ _ _ _ _ _ _ _ Hlines) as (new & Hnew & Hall).
  simpl in Hnew. subst new.
  exists lines. split; [|split].
  - intros fuel Hf. unfold visualizeAsTree. rewrite Hm. fold sv hv.
    rewrite (renderRoots_fuel_le g (Some m) sv hv (S (Z.to_nat (m + 1))) fuel
               (roots g) [] lines); [reflexivity | lia | exact Hlines].
  - exact Hall.
  - intros Hneg. destruct lines as [|line lines]; [reflexivity|].
    inversion Hall as [|? ? (cs & nd & _ & Hd & _) _]; subst.
    simpl in Hd. apply Z.ltb_ge in Hd. lia.
Qed.

Lemma visualizeAsTree_bounded_witness :
  vo_maxDepth (mkVisualizationOptions tree_format (Some 1%Z) None None)
    = Some 1%Z /\
  exists lines,
    visualizeAsTree 3 (buildGraph cyclic_tree)
      (mkVisualizationOptions tree_format (Some 1%Z) None None)
    = Some (join [10%N] lines) /\
    Forall (tree_line (buildGraph cyclic_tree) (Some 1%Z) true None 0 [])
      lines.
Proof.
  split; [reflexivity|].
  destruct (visualizeAsTree_bounded (buildGraph cyclic_tree)
              (mkVisualizationOptions tree_format (Some 1%Z) None None) 1
              eq_refl) as (lines & Hrun & Hall & _).
  exists lines. split; [|exact Hall]. apply Hrun. simpl. lia.
Defined.

(** X9: on a graph whose [children] links form no cycle,
    [visualizeAsTree] returns whatever [maxDepth] is, [Infinity]
    included, and its lines have the same shape: a node label behind one
    branch connector per level of depth. *)
Theorem visualizeAsTree_acyclic (g : DependencyGraph)
    (options : VisualizationOptions) (rank : jsstring -> nat) :
  rank_ok g rank = true ->
  exists lines,
    (forall fuel, S (list_max (map rank (roots g))) < fuel ->
       visualizeAsTree fuel g options = Some (join [10%N] lines)) /\
    Forall
      (tree_line g (vo_maxDepth options)
         (match vo_showVersions options with Some b => b | None => true end)
         (vo_highlightVulnerabilities options) 0 [])
      lines.
Proof.
  intros Hrank.
  set (sv := match vo_showVersions options with Some b => b | None => true end).
  set (hv := vo_highlightVulnerabilities options).
  set (fuel0 := S (S (list_max (map rank (roots g))))).
  destruct (renderRoots_acyclic g rank (vo_maxDepth options) sv hv fuel0 Hrank
              (Nat.lt_succ_diag_r _) (roots g) [] (incl_refl _))
    as (lines & Hlines).
  destruct (renderRoots_lines _ _ _ _ _ _ _ _ Hlines) as (new & Hnew & Hall).
  simpl in Hnew. subst new.
  exists lines. split; [|exact Hall].
  intros fuel Hf. unfold visualizeAsTree. fold sv hv.
  rewrite (renderRoots_fuel_le g (vo_maxDepth options) sv hv fuel0 fuel
             (roots g) [] lines); [reflexivity | unfold fuel0; lia
                                   | exact Hlines].
Qed.

Lemma visualizeAsTree_acyclic_witness :
  rank_ok (buildGraph diamond_tree) diamond_rank = true /\
  exists lines,
    visualizeAsTree 3 (buildGraph diamond_tree)
      (mkVisualizationOptions tree_format None (Some false) None)
    = Some (join [10%N] lines) /\
    Forall (tree_line (buildGraph diamond_tree) None false None 0 []) lines.
Proof.
  split; [reflexivity|].
  destruct (visualizeAsTree_acyclic (buildGraph diamond_tree)
              (mkVisualizationOptions tree_format None (Some false) None)
              diamond_rank eq_refl) as (lines & Hrun & Hall).
  exists lines. split; [|exact Hall]. apply Hrun. vm_compute. lia.
Defined.

(** ** The summary and the DOT view of a built graph *)

Lemma filter_none {A : Type} (f : A -> bool) (l : list A) :
  (forall x, In x l -> f x = false) -> filter f l = [].
Proof.
  induction l as [|a l IH]; intros H; simpl; [reflexivity|].
  rewrite (H a (or_introl eq_refl)). apply IH. intros x Hx. apply H.
  now right.
Qed.

Lemma buildGraph_entry_flags tree k n :
  In (k, n) (nodes (buildGraph tree)) ->
  gn_id n = k /\ gn_vulnerabilities n = 0 /\ gn_isDevDependency n = false.
Proof.
  intros Hin.
  assert (Hget : map_get (nodes (buildGraph tree)) k = Some n).
  { apply In_map_get_NoDup; [|exact Hin]. rewrite buildGraph_keys.
    apply distinct_NoDup. }
  unfold buildGraph in Hget.
  destruct (buildRoots_table_relation (flagged_since false)
              (flagged_since_refl false) (flagged_since_trans false)
              (visit_node_flagged false) (dt_dependencies tree)
              (mkDependencyGraph [] [] []) k n Hget)
    as [(n0 & Hn0 & _)|Hnew]; [discriminate Hn0 | exact Hnew].
Qed.

(** X10: the summary of a graph made by [buildGraph]: its "Transitive
    dependencies" count, which the code obtains by subtraction, is the
    number of nodes [getTransitiveDependencies] returns, and its "Dev
    dependencies" and "Packages with vulnerabilities" counts are always
    0, since [buildGraph] sets neither field. *)
Theorem printSummary_buildGraph (tree : DependencyTree) :
  printSummary (buildGraph tree) =
  join [10%N]
    [js "Dependency Graph Summary";
     js "========================";
     js "Total packages: " ++ decimal (length (nodes (buildGraph tree)));
     js "Direct dependencies: "
       ++ decimal (length (getDirectDependencies (buildGraph tree)));
     js "Transitive dependencies: "
       ++ decimal (length (getTransitiveDependencies (buildGraph tree)));
     js "Dev dependencies: 0";
     js "Packages with vulnerabilities: 0"].
Proof.
  unfold printSummary.
  assert (Hflags : forall n, In n (map_values (nodes (buildGraph tree))) ->
            gn_vulnerabilities n = 0 /\ gn_isDevDependency n = false).
  { intros n Hin. unfold map_values in Hin.
    apply in_map_iff in Hin as ([k n'] & <- & Hin).
    now destruct (buildGraph_entry_flags tree k n' Hin) as (_ & ? & ?). }
  rewrite (filter_none gn_isDevDependency) by (intros n Hn; apply Hflags, Hn).
  rewrite (filter_none (fun n => Nat.ltb 0 (gn_vulnerabilities n))).
  2: { intros n Hn. destruct (Hflags n Hn) as [-> _]. reflexivity. }
  assert (Hsub : length (nodes (buildGraph tree))
                 - length (filter (fun n => Nat.eqb (gn_depth n) 0)
                             (map_values (nodes (buildGraph tree))))
                 = length (getTransitiveDependencies (buildGraph tree))).
  { pose proof (filter_partition_perm (fun n => Nat.eqb (gn_depth n) 0)
                  (map_values (nodes (buildGraph tree)))) as Hp.
    apply Permutation_length in Hp. rewrite length_app in Hp.
    unfold map_values in Hp at 3. rewrite length_map in Hp.
    unfold getTransitiveDependencies.
    rewrite (filter_ext (fun node => Nat.ltb 0 (gn_depth node))
               (fun n => negb (Nat.eqb (gn_depth n) 0))).
    - unfold jsstring in *. lia.
    - intros n. destruct (gn_depth n); reflexivity. }
  rewrite Hsub. reflexivity.
Qed.

(** X11: the DOT view of a graph made by [buildGraph] declares one node
    per node of the table, each drawn black and solid (never red or
    dashed), then one arrow per edge, duplicates included, between two
    declared nodes: [|nodes| + |edges| + 4] lines in all. *)
Theorem visualizeAsDot_buildGraph (tree : DependencyTree)
    (options : VisualizationOptions) :
  visualizeAsDot (buildGraph tree) options =
  join [10%N]
    ([js "digraph dependencies {"; js "  rankdir=LR;";
      js "  node [shape=box];"]
     ++ map (fun '(id, node) => plain_dot_node_line options id node)
          (nodes (buildGraph tree))
     ++ map dot_edge_line (edges (buildGraph tree))
     ++ [js "}"]) /\
  length (visualizeAsDot_lines (buildGraph tree) options) =
    length (nodes (buildGraph tree)) + length (edges (buildGraph tree)) + 4 /\
  (forall e, In e (edges (buildGraph tree)) ->
     map_has (nodes (buildGraph tree)) (from e) = true /\
     map_has (nodes (buildGraph tree)) (to e) = true).
Proof.
  split; [|split].
  - unfold visualizeAsDot, visualizeAsDot_lines. do 2 f_equal.
    f_equal. apply map_ext_in. intros [id node] Hin.
    destruct (buildGraph_entry_flags tree id node Hin) as (_ & Hv & Hd).
    unfold dot_node_line, plain_dot_node_line. now rewrite Hv, Hd.
  - unfold visualizeAsDot_lines. rewrite !length_app, !length_map. simpl.
    lia.
  - assert (Hinv : build_inv (roots (buildGraph tree))
                     (nodes (buildGraph tree)) (edges (buildGraph tree))).
    { unfold buildGraph. apply buildRoots_inv. simpl.
      split; [constructor|]. split; [discriminate|]. split.
      - intros e [].
      - discriminate. }
    apply Hinv.
Qed.

(* ===================================================================== *)
(** * Further properties of the identity canonicalizer                    *)
(* ===================================================================== *)

Lemma replace_runs_allowed b s :
  forallb spdx_allowed (replace_runs b s) = true.
Proof.
  revert b; induction s as [|c s IH]; intros b; simpl; [reflexivity|].
  destruct (spdx_allowed c) eqn:E; simpl.
  - now rewrite E, IH.
  - destruct b; [apply IH|]. simpl. apply IH.
Qed.

Lemma collapse_dashes_allowed b s :
  forallb spdx_allowed s = true ->
  forallb spdx_allowed (collapse_dashes b s) = true.
Proof.
  revert b; induction s as [|c s IH]; intros b; simpl; [reflexivity|].
  intros H. apply andb_true_iff in H as [Hc Hs].
  destruct (N.eqb c 45) eqn:E.
  - destruct b; [now apply IH|]. simpl. now apply IH.
  - simpl. rewrite Hc. now apply IH.
Qed.

Lemma collapse_dashes_head b s :
  match collapse_dashes b s with
  | c :: _ => N.eqb c 45 = true -> b = false
  | [] => True
  end.
Proof.
  destruct s as [|c s]; simpl; [exact I|].
  destruct (N.eqb c 45) eqn:E.
  - destruct b; [|auto]. clear E c.
    induction s as [|c s IH]; simpl; [exact I|].
    destruct (N.eqb c 45) eqn:E; [exact IH|]. congruence.
  - congruence.
Qed.

Lemma no_double_dash_cons c d r :
  no_double_dash (c :: d :: r) =
  negb (N.eqb c 45 && N.eqb d 45) && no_double_dash (d :: r).
Proof. reflexivity. Qed.

Lemma collapse_dashes_no_double b s :
  no_double_dash (collapse_dashes b s) = true.
Proof.
  revert b; induction s as [|c s IH]; intros b; [reflexivity|].
  cbn [collapse_dashes]. destruct (N.eqb c 45) eqn:E.
  - destruct b; [apply IH|].
    pose proof (collapse_dashes_head true s) as Hh.
    pose proof (IH true) as Hn.
    destruct (collapse_dashes true s) as [|d r] eqn:Er; [reflexivity|].
    rewrite no_double_dash_cons, Hn.
    destruct (N.eqb d 45) eqn:Ed; [specialize (Hh eq_refl); discriminate|].
    now rewrite andb_false_r.
  - pose proof (IH false) as Hn.
    destruct (collapse_dashes false s) as [|d r] eqn:Er; [reflexivity|].
    rewrite no_double_dash_cons, Hn, E. reflexivity.
Qed.

Lemma replace_runs_clean b s :
  forallb spdx_allowed s = true -> replace_runs b s = s.
Proof.
  revert b; induction s as [|c s IH]; intros b; simpl; [reflexivity|].
  intros H. apply andb_true_iff in H as [Hc Hs]. rewrite Hc.
  now rewrite IH.
Qed.

Lemma collapse_dashes_clean s :
  no_double_dash s = true -> collapse_dashes false s = s.
Proof.
  induction s as [|c s IH]; [reflexivity|]. intros H.
  cbn [collapse_dashes]. destruct (N.eqb c 45) eqn:E.
  - apply N.eqb_eq in E as Ec. rewrite <- Ec at 1.
    f_equal. destruct s as [|d s']; [reflexivity|].
    rewrite no_double_dash_cons, E in H.
    apply andb_true_iff in H as [Hd Hs]. simpl in Hd.
    apply negb_true_iff in Hd. cbn [collapse_dashes]. rewrite Hd.
    f_equal. specialize (IH Hs). cbn [collapse_dashes] in IH.
    rewrite Hd in IH. now injection IH.
  - f_equal. apply IH. destruct s as [|d s']; [reflexivity|].
    rewrite no_double_dash_cons in H. now apply andb_true_iff in H as [_ ?].
Qed.

Lemma replace_runs_nonempty s1 s2 :
  replace_runs false (s1 ++ 45%N :: s2) <> [].
Proof.
  assert (H : forall b, replace_runs b (s1 ++ 45%N :: s2) <> []).
  { induction s1 as [|c s1 IH]; intros b; simpl; [discriminate|].
    destruct (spdx_allowed c); [discriminate|].
    destruct b; [apply IH | discriminate]. }
  apply H.
Qed.

Lemma collapse_dashes_nonempty s :
  s <> [] -> collapse_dashes false s <> [].
Proof.
  destruct s as [|c s]; [congruence|]. intros _. simpl.
  destruct (N.eqb c 45); discriminate.
Qed.

(** X12: an SPDX element id is always [SPDXRef-] followed by a non-empty
    string over [A-Za-z0-9-.] without two ['-'] in a row; and when the
    name and the version are such strings themselves (with no ['-'] at
    the end of the name or at the start of the version), the id is
    [SPDXRef-<name>-<version>] letter for letter. *)
Theorem createSpdxRef_well_formed (name version : jsstring) :
  (exists base,
     createSpdxRef name version = js "SPDXRef-" ++ base /\
     base <> [] /\
     forallb spdx_allowed base = true /\
     no_double_dash base = true) /\
  (forallb spdx_allowed (name ++ js "-" ++ version) = true ->
   no_double_dash (name ++ js "-" ++ version) = true ->
   createSpdxRef name version = js "SPDXRef-" ++ name ++ js "-" ++ version).
Proof.
  unfold createSpdxRef. split.
  - eexists. split; [reflexivity|]. split; [|split].
    + apply collapse_dashes_nonempty. apply replace_runs_nonempty.
    + apply collapse_dashes_allowed, replace_runs_allowed.
    + apply collapse_dashes_no_double.
  - intros Ha Hd. now rewrite replace_runs_clean, collapse_dashes_clean.
Qed.

Local Open Scope N_scope.

Ltac div_lia := zify; Z.to_euclidean_division_equations; lia.

Lemma hex_digit_inj d d' :
  d < 16 -> d' < 16 -> hex_digit d = hex_digit d' -> d = d'.
Proof.
  unfold hex_digit. intros Hd Hd'.
  destruct (d <? 10) eqn:E; destruct (d' <? 10) eqn:E';
    try apply N.ltb_lt in E; try apply N.ltb_ge in E;
    try apply N.ltb_lt in E'; try apply N.ltb_ge in E'; lia.
Qed.

Lemma hex_pair_inj b b' :
  b < 256 -> b' < 256 ->
  hex_digit (b / 16) = hex_digit (b' / 16) ->
  hex_digit (b mod 16) = hex_digit (b' mod 16) -> b = b'.
Proof.
  intros Hb Hb' H1 H2.
  apply hex_digit_inj in H1; [|div_lia|div_lia].
  apply hex_digit_inj in H2; [|div_lia|div_lia].
  div_lia.
Qed.

Lemma percent_app_inj b b' t t' :
  b < 256 -> b' < 256 ->
  percent b ++ t = percent b' ++ t' -> b = b' /\ t = t'.
Proof.
  intros Hb Hb' E. unfold percent in E. cbn [app] in E.
  assert (H1 : hex_digit (b / 16) = hex_digit (b' / 16)) by congruence.
  assert (H2 : hex_digit (b mod 16) = hex_digit (b' mod 16)) by congruence.
  split; [now apply hex_pair_inj | congruence].
Qed.

Lemma cons_inj {A : Type} (a a' : A) l l' :
  a :: l = a' :: l' -> a = a' /\ l = l'.
Proof. intros E. now injection E. Qed.

Ltac split_ltb :=
  repeat match goal with
         | H : (_ <? _) = true |- _ => apply N.ltb_lt in H
         | H : (_ <? _) = false |- _ => apply N.ltb_ge in H
         end.

Lemma utf8_cases x :
  x < 1114112 ->
  (x < 128 /\ utf8 x = [x]) \/
  (128 <= x < 2048 /\ utf8 x = [192 + x / 64; 128 + x mod 64]) \/
  (2048 <= x < 65536 /\
   utf8 x = [224 + x / 4096; 128 + (x / 64) mod 64; 128 + x mod 64]) \/
  (65536 <= x /\
   utf8 x = [240 + x / 262144; 128 + (x / 4096) mod 64;
             128 + (x / 64) mod 64; 128 + x mod 64]).
Proof.
  intros Hx. unfold utf8.
  destruct (x <? 128) eqn:E1; [|destruct (x <? 2048) eqn:E2;
    [|destruct (x <? 65536) eqn:E3]]; split_ltb; auto 6.
Qed.

Lemma utf8_bytes x : x < 1114112 -> Forall (fun b => b < 256) (utf8 x).
Proof.
  intros Hx.
  assert (H6 : x mod 64 < 64) by now apply N.mod_lt.
  assert (H6' : (x / 64) mod 64 < 64) by now apply N.mod_lt.
  assert (H6'' : (x / 4096) mod 64 < 64) by now apply N.mod_lt.
  destruct (utf8_cases x Hx) as [[H ->]|[[H ->]|[[H ->]|[H ->]]]];
    repeat constructor; try lia.
  - assert (x / 64 < 32) by (apply N.Div0.div_lt_upper_bound; lia). lia.
  - assert (x / 4096 < 16) by (apply N.Div0.div_lt_upper_bound; lia). lia.
  - assert (x / 262144 < 5) by (apply N.Div0.div_lt_upper_bound; lia). lia.
Qed.

(** The first octet tells the number of octets. *)
Lemma utf8_head x x' b t t' :
  x < 1114112 -> x' < 1114112 ->
  utf8 x = b :: t -> utf8 x' = b :: t' -> length t = length t'.
Proof.
  intros Hx Hx'.
  assert (x < 2048 -> x / 64 < 32) by
    (intros; apply N.Div0.div_lt_upper_bound; lia).
  assert (x' < 2048 -> x' / 64 < 32) by
    (intros; apply N.Div0.div_lt_upper_bound; lia).
  assert (x < 65536 -> x / 4096 < 16) by
    (intros; apply N.Div0.div_lt_upper_bound; lia).
  assert (x' < 65536 -> x' / 4096 < 16) by
    (intros; apply N.Div0.div_lt_upper_bound; lia).
  destruct (utf8_cases x Hx) as [[H3 ->]|[[H3 ->]|[[H3 ->]|[H3 ->]]]];
  destruct (utf8_cases x' Hx') as [[H4 ->]|[[H4 ->]|[[H4 ->]|[H4 ->]]]];
  intros E E'; apply cons_inj in E as [E <-]; apply cons_inj in E' as [E' <-];
  try reflexivity; exfalso; div_lia.
Qed.

Lemma utf8_inj x x' :
  x < 1114112 -> x' < 1114112 -> utf8 x = utf8 x' -> x = x'.
Proof.
  intros Hx Hx'.
  pose proof (N.div_mod' x 64) as D1. pose proof (N.div_mod' x' 64) as D1'.
  pose proof (N.div_mod' (x / 64) 64) as D2.
  pose proof (N.div_mod' (x' / 64) 64) as D2'.
  pose proof (N.div_mod' (x / 4096) 64) as D3.
  pose proof (N.div_mod' (x' / 4096) 64) as D3'.
  pose proof (N.Div0.div_div x 64 64) as D4.
  pose proof (N.Div0.div_div x' 64 64) as D4'.
  pose proof (N.Div0.div_div x 4096 64) as D5.
  pose proof (N.Div0.div_div x' 4096 64) as D5'.
  change (64 * 64) with 4096 in *. change (4096 * 64) with 262144 in *.
  destruct (utf8_cases x Hx) as [[C ->]|[[C ->]|[[C ->]|[C ->]]]];
  destruct (utf8_cases x' Hx') as [[C' ->]|[[C' ->]|[[C' ->]|[C' ->]]]];
  intros E; try discriminate E;
  repeat (apply cons_inj in E as [? E]); lia.
Qed.

Lemma flat_percent_inj bs bs' r r' :
  Forall (fun b => b < 256) bs -> Forall (fun b => b < 256) bs' ->
  length bs = length bs' ->
  flat_map percent bs ++ r = flat_map percent bs' ++ r' ->
  bs = bs' /\ r = r'.
Proof.
  intros Hb. revert bs'.
  induction Hb as [|b bs Hb _ IH]; intros [|b' bs'] Hb' Hl E;
    try discriminate Hl.
  - auto.
  - inversion Hb' as [|? ? Hb0 Hbs]; subst.
    cbn [flat_map] in E. rewrite <- !app_assoc in E.
    apply percent_app_inj in E as [-> E]; [|assumption|assumption].
    destruct (IH bs' Hbs) as [-> ->]; auto.
Qed.

Lemma utf8_percent_head x r :
  exists t, flat_map percent (utf8 x) ++ r = 37 :: t.
Proof.
  unfold utf8.
  destruct (x <? 128); [|destruct (x <? 2048); [|destruct (x <? 65536)]];
    eexists; reflexivity.
Qed.

Lemma utf8_percent_inj x x' r r' :
  x < 1114112 -> x' < 1114112 ->
  flat_map percent (utf8 x) ++ r = flat_map percent (utf8 x') ++ r' ->
  x = x' /\ r = r'.
Proof.
  intros Hx Hx' E.
  pose proof (utf8_bytes x Hx) as Hb. pose proof (utf8_bytes x' Hx') as Hb'.
  destruct (utf8 x) as [|b t] eqn:U.
  { destruct (utf8_cases x Hx) as [[_ H]|[[_ H]|[[_ H]|[_ H]]]];
      rewrite U in H; discriminate H. }
  destruct (utf8 x') as [|b' t'] eqn:U'.
  { destruct (utf8_cases x' Hx') as [[_ H]|[[_ H]|[[_ H]|[_ H]]]];
      rewrite U' in H; discriminate H. }
  assert (Eb : b = b').
  { cbn [flat_map] in E. rewrite <- !app_assoc in E.
    apply percent_app_inj in E as [Eb _]; [exact Eb| |].
    - now inversion Hb.
    - now inversion Hb'. }
  subst b'.
  pose proof (utf8_head _ _ _ _ _ Hx Hx' U U') as Hl.
  apply flat_percent_inj in E as [E ->]; [|assumption|assumption|simpl; lia].
  split; [|reflexivity]. apply utf8_inj; [assumption|assumption|congruence].
Qed.

Lemma hex_digit_alnum d : d < 16 -> is_alnum (hex_digit d) = true.
Proof.
  intros Hd.
  assert (H : In d [0;1;2;3;4;5;6;7;8;9;10;11;12;13;14;15]).
  { simpl. lia. }
  simpl in H.
  repeat (destruct H as [<-|H]; [reflexivity|]). destruct H.
Qed.

Lemma percent_safe b : b < 256 -> forallb uri_safe (percent b) = true.
Proof.
  intros Hb. unfold percent, uri_safe, is_unreserved. cbn [forallb].
  rewrite !hex_digit_alnum.
  - reflexivity.
  - now apply N.mod_lt.
  - apply N.Div0.div_lt_upper_bound. lia.
Qed.

Lemma flat_percent_safe bs :
  Forall (fun b => b < 256) bs ->
  forallb uri_safe (flat_map percent bs) = true.
Proof.
  induction 1 as [|b bs Hb _ IH]; [reflexivity|].
  cbn [flat_map]. rewrite forallb_app, percent_safe, IH; auto.
Qed.

Lemma surrogate_range lo hi c :
  in_range lo hi c = true -> lo <= c <= hi.
Proof.
  unfold in_range. intros H. apply andb_true_iff in H as [H1 H2].
  apply N.leb_le in H1, H2. lia.
Qed.

Lemma Ok_inj {A : Type} (a b : A) : Ok a = Ok b -> a = b.
Proof. intros E. now injection E. Qed.

Lemma encodeURIComponent_safe s e :
  valid_units s -> encodeURIComponent s = Ok e ->
  forallb uri_safe e = true.
Proof.
  remember (length s) as n eqn:Hn. revert s e Hn.
  induction n as [n IH] using lt_wf_ind. intros s e Hn Hv.
  destruct s as [|c s]; cbn [encodeURIComponent].
  { intros E. apply Ok_inj in E. now subst e. }
  inversion Hv as [|? ? Hc Hs]; subst.
  destruct (is_unreserved c) eqn:Eu.
  - destruct (encodeURIComponent s) as [r|] eqn:Er; [|discriminate].
    intros E. apply Ok_inj in E. subst e.
    cbn [forallb]. unfold uri_safe at 1. rewrite Eu.
    cbn [orb andb].
    eapply (IH (length s)); [simpl; lia|reflexivity|eassumption|eassumption].
  - destruct (is_high_surrogate c) eqn:Eh.
    + destruct s as [|d s]; [discriminate|].
      destruct (is_low_surrogate d) eqn:El; [|discriminate].
      destruct (encodeURIComponent s) as [r|] eqn:Er; [|discriminate].
      intros E. apply Ok_inj in E. subst e.
      apply surrogate_range in Eh, El.
      rewrite forallb_app, flat_percent_safe.
      * inversion Hs; subst.
        eapply (IH (length s));
          [simpl; lia|reflexivity|eassumption|eassumption].
      * apply utf8_bytes. lia.
    + destruct (is_low_surrogate c); [discriminate|].
      destruct (encodeURIComponent s) as [r|] eqn:Er; [|discriminate].
      intros E. apply Ok_inj in E. subst e.
      rewrite forallb_app, flat_percent_safe.
      * eapply (IH (length s));
          [simpl; lia|reflexivity|eassumption|eassumption].
      * apply utf8_bytes. lia.
Qed.

Lemma encodeURIComponent_step s e :
  encodeURIComponent s = Ok e -> enc_step s e.
Proof.
  destruct s as [|c s]; cbn [encodeURIComponent].
  { intros E. apply Ok_inj in E. subst e. constructor. }
  destruct (is_unreserved c) eqn:Eu.
  - destruct (encodeURIComponent s) as [r|] eqn:Er; [|discriminate].
    intros E. apply Ok_inj in E. subst e. now constructor.
  - destruct (is_high_surrogate c) eqn:Eh.
    + destruct s as [|d s]; [discriminate|].
      destruct (is_low_surrogate d) eqn:El; [|discriminate].
      destruct (encodeURIComponent s) as [r|] eqn:Er; [|discriminate].
      intros E. apply Ok_inj in E. subst e.
      apply surrogate_range in Eh, El. now constructor.
    + destruct (is_low_surrogate c) eqn:El; [discriminate|].
      destruct (encodeURIComponent s) as [r|] eqn:Er; [|discriminate].
      intros E. apply Ok_inj in E. subst e. now constructor.
Qed.

Lemma encodeURIComponent_inj s s' e :
  valid_units s -> valid_units s' ->
  encodeURIComponent s = Ok e -> encodeURIComponent s' = Ok e -> s = s'.
Proof.
  remember (length s) as n eqn:Hn. revert s s' e Hn.
  induction n as [n IH] using lt_wf_ind. intros s s' e Hn Hv Hv' He He'. unfold valid_units in *.
  apply encodeURIComponent_step in He, He'.
  revert Hn Hv.
  destruct He as [|c s r Hu Hr|c d s r Hu Hc Hd Hr|c s r Hu Hh Hl Hr];
    intros Hn Hv.
  - remember (@nil N) as e eqn:Ee.
    revert Hv'.
    destruct He' as [|c' s' r' Hu' Hr'|c' d' s' r' Hu' Hc' Hd' Hr'
                    |c' s' r' Hu' Hh' Hl' Hr']; intros Hv'.
    + reflexivity.
    + discriminate Ee.
    + destruct (utf8_percent_head
                  (65536 + (c' - 55296) * 1024 + (d' - 56320)) r') as (t & Ht).
      rewrite Ht in Ee. discriminate Ee.
    + destruct (utf8_percent_head c' r') as (t & Ht).
      rewrite Ht in Ee. discriminate Ee.
  - remember (c :: r) as e eqn:Ee.
    revert Hv'.
    destruct He' as [|c' s' r' Hu' Hr'|c' d' s' r' Hu' Hc' Hd' Hr'
                    |c' s' r' Hu' Hh' Hl' Hr']; intros Hv'.
    + discriminate Ee.
    + apply cons_inj in Ee as [-> ->]. f_equal.
      apply Forall_cons_iff in Hv as [_ Hv], Hv' as [_ Hv'].
      eapply (IH (length s)); [rewrite Hn; simpl; lia|reflexivity| | |eassumption|eassumption];
        assumption.
    + destruct (utf8_percent_head
                  (65536 + (c' - 55296) * 1024 + (d' - 56320)) r') as (t & Ht).
      rewrite Ht in Ee. apply cons_inj in Ee as [<- _]. discriminate Hu.
    + destruct (utf8_percent_head c' r') as (t & Ht).
      rewrite Ht in Ee. apply cons_inj in Ee as [<- _]. discriminate Hu.
  - remember (flat_map percent
                (utf8 (65536 + (c - 55296) * 1024 + (d - 56320))) ++ r)
      as e eqn:Ee.
    revert Hv'.
    destruct He' as [|c' s' r' Hu' Hr'|c' d' s' r' Hu' Hc' Hd' Hr'
                    |c' s' r' Hu' Hh' Hl' Hr']; intros Hv'.
    + destruct (utf8_percent_head
                  (65536 + (c - 55296) * 1024 + (d - 56320)) r) as (t & Ht).
      rewrite Ht in Ee. discriminate Ee.
    + destruct (utf8_percent_head
                  (65536 + (c - 55296) * 1024 + (d - 56320)) r) as (t & Ht).
      rewrite Ht in Ee. apply cons_inj in Ee as [-> _]. discriminate Hu'.
    + apply utf8_percent_inj in Ee as [Ecp ->]; [|lia|lia].
      assert (c' = c /\ d' = d) as [-> ->] by lia. do 2 f_equal.
      apply Forall_cons_iff in Hv as [_ Hv], Hv' as [_ Hv'].
      apply Forall_cons_iff in Hv as [_ Hv], Hv' as [_ Hv'].
      eapply (IH (length s)); [rewrite Hn; simpl; lia|reflexivity| | |eassumption|eassumption];
        assumption.
    + apply Forall_cons_iff in Hv' as [Hc0 _].
      apply utf8_percent_inj in Ee as [Ecp _]; lia.
  - remember (flat_map percent (utf8 c) ++ r) as e eqn:Ee.
    apply Forall_cons_iff in Hv as [Hc Hv].
    revert Hv'.
    destruct He' as [|c' s' r' Hu' Hr'|c' d' s' r' Hu' Hc' Hd' Hr'
                    |c' s' r' Hu' Hh' Hl' Hr']; intros Hv'.
    + destruct (utf8_percent_head c r) as (t & Ht).
      rewrite Ht in Ee. discriminate Ee.
    + destruct (utf8_percent_head c r) as (t & Ht).
      rewrite Ht in Ee. apply cons_inj in Ee as [-> _]. discriminate Hu'.
    + apply utf8_percent_inj in Ee as [Ecp _]; lia.
    + apply Forall_cons_iff in Hv' as [Hc' Hv'].
      apply utf8_percent_inj in Ee as [-> ->]; [|lia|lia]. f_equal.
      eapply (IH (length s)); [rewrite Hn; simpl; lia|reflexivity| | |eassumption|eassumption];
        assumption.
Qed.

Lemma app_first_sep_inj (a : N) (l1 l1' l2 l2' : jsstring) :
  ~ In a l1 -> ~ In a l1' ->
  l1 ++ a :: l2 = l1' ++ a :: l2' -> l1 = l1' /\ l2 = l2'.
Proof.
  revert l1'. induction l1 as [|x l1 IH]; intros [|y l1'] H1 H1' E;
    cbn [app] in E; apply cons_inj in E as [Ex E].
  - auto.
  - exfalso. apply H1'. now left.
  - exfalso. apply H1. now left.
  - subst y. destruct (IH l1') as [-> ->]; auto.
    + intros H. apply H1. now right.
    + intros H. apply H1'. now right.
Qed.

Lemma uri_safe_not_in e c :
  forallb uri_safe e = true -> uri_safe c = false -> ~ In c e.
Proof.
  intros He Hc Hin. rewrite forallb_forall in He.
  specialize (He c Hin). congruence.
Qed.

Lemma split_on_cons_sep sep a b :
  ~ In sep a -> split_on sep (a ++ sep :: b) = a :: split_on sep b.
Proof.
  intros Ha. induction a as [|c a IH]; simpl.
  - now rewrite N.eqb_refl.
  - destruct (N.eqb c sep) eqn:E.
    + apply N.eqb_eq in E. exfalso. apply Ha. now left.
    + rewrite IH; [reflexivity|]. intros H. apply Ha. now right.
Qed.

(** The two shapes of a reference. *)
Lemma createBomRef_body name version ref :
  valid_units name -> plain_name name ->
  createBomRef name version = Ok ref ->
  exists body,
    ref = js "pkg:npm/" ++ body ++ js "@" ++ version /\
    ~ In 64 body /\
    ((startsWith name 64 = false /\ encodeURIComponent name = Ok body /\
      ~ In 47 body) \/
     (exists scope pkg es ep,
        name = js "@" ++ scope ++ js "/" ++ pkg /\
        valid_units (64 :: scope) /\ valid_units pkg /\
        encodeURIComponent (64 :: scope) = Ok es /\
        encodeURIComponent pkg = Ok ep /\
        body = es ++ 47 :: ep /\ ~ In 47 es /\ ~ In 47 ep)).
Proof.
  intros Hv [Hs|(scope & pkg & -> & Hsc & Hpk)]; unfold createBomRef.
  - rewrite Hs.
    destruct (encodeURIComponent name) as [e|] eqn:Ee; [|discriminate].
    intros E. apply Ok_inj in E. subst ref.
    pose proof (encodeURIComponent_safe _ _ Hv Ee) as Hsafe.
    exists e. split; [reflexivity|]. split.
    + now apply (uri_safe_not_in e 64 Hsafe).
    + left. split; [reflexivity|]. split; [reflexivity|].
      now apply (uri_safe_not_in e 47 Hsafe).
  - change (js "@" ++ scope ++ js "/" ++ pkg)
      with ((64 :: scope) ++ 47 :: pkg) in *.
    change (startsWith ((64 :: scope) ++ 47 :: pkg) 64) with true.
    cbv iota. rewrite split_on_two; [|intros [H|H]; [discriminate|auto]|auto].
    cbn [nth]. apply Forall_app in Hv as [Hv1 Hv2].
    apply Forall_cons_iff in Hv2 as [_ Hv2].
    destruct (encodeURIComponent (64 :: scope)) as [es|] eqn:Es;
      [|discriminate].
    destruct (encodeURIComponent pkg) as [ep|] eqn:Ep; [|discriminate].
    cbn [bind]. intros E. apply Ok_inj in E. subst ref.
    pose proof (encodeURIComponent_safe _ _ Hv1 Es) as Hs1.
    pose proof (encodeURIComponent_safe _ _ Hv2 Ep) as Hs2.
    exists (es ++ 47 :: ep). split; [|split].
    + now rewrite <- !app_assoc.
    + intros Hin. apply in_app_or in Hin as [Hin|[Hin|Hin]].
      * now apply (uri_safe_not_in es 64 Hs1).
      * discriminate Hin.
      * now apply (uri_safe_not_in ep 64 Hs2).
    + right. exists scope, pkg, es, ep.
      repeat split; try assumption; try reflexivity.
      * now apply (uri_safe_not_in es 47 Hs1).
      * now apply (uri_safe_not_in ep 47 Hs2).
Qed.

(** X13: a package reference determines the package. For names that are
    well-formed strings and are unscoped or of the form [@scope/pkg] with
    one [/], two calls of [createBomRef] that return the same reference
    were given the same name and the same version: percent-encoding loses
    nothing, and the first [@] of the reference is the one before the
    version. *)
Theorem createBomRef_injective (name version name' version' ref : jsstring) :
  valid_units name -> valid_units name' ->
  plain_name name -> plain_name name' ->
  createBomRef name version = Ok ref ->
  createBomRef name' version' = Ok ref ->
  name = name' /\ version = version'.
Proof.
  intros Hv Hv' Hp Hp' Hr Hr'.
  destruct (createBomRef_body _ _ _ Hv Hp Hr) as (b & -> & Hat & Hb).
  destruct (createBomRef_body _ _ _ Hv' Hp' Hr') as (b' & E & Hat' & Hb').
  apply app_inv_head in E.
  apply app_first_sep_inj in E as [-> ->]; [|assumption|assumption].
  split; [|reflexivity].
  destruct Hb as [(_ & He & H47)|(sc & pk & es & ep & -> & V1 & V2 & Es & Ep
                                  & Eb & Hes & Hep)];
  destruct Hb' as [(_ & He' & H47')|(sc' & pk' & es' & ep' & -> & V1' & V2' & Es'
                                     & Ep' & Eb' & Hes' & Hep')].
  - eapply encodeURIComponent_inj; eassumption.
  - exfalso. apply H47. rewrite Eb'. apply in_or_app. right. now left.
  - exfalso. apply H47'. rewrite Eb. apply in_or_app. right. now left.
  - rewrite Eb in Eb'.
    apply app_first_sep_inj in Eb' as [-> ->]; [|assumption|assumption].
    assert (E1 : 64 :: sc = 64 :: sc')
      by (eapply encodeURIComponent_inj; eassumption).
    assert (E2 : pk = pk') by (eapply encodeURIComponent_inj; eassumption).
    apply cons_inj in E1 as [_ ->]. now subst pk'.
Qed.

Lemma createBomRef_injective_witness :
  createBomRef (js "@babel/core") (js "7.0.0")
    = Ok (js "pkg:npm/%40babel/core@7.0.0") /\
  (js "@babel/core" = js "@babel/core" /\ js "7.0.0" = js "7.0.0").
Proof.
  split; [reflexivity|].
  apply (createBomRef_injective (js "@babel/core") (js "7.0.0")
           (js "@babel/core") (js "7.0.0") (js "pkg:npm/%40babel/core@7.0.0")).
  - repeat constructor.
  - repeat constructor.
  - right. exists (js "babel"), (js "core"). split; [reflexivity|].
    split; vm_compute; intuition discriminate.
  - right. exists (js "babel"), (js "core"). split; [reflexivity|].
    split; vm_compute; intuition discriminate.
  - reflexivity.
  - reflexivity.
Defined.

(** X14: of a scoped name [createBomRef] reads the first two segments
    between [/] only: whatever follows a second [/] does not reach the
    reference, and a scope without a [/] gives the reference of the same
    scope with an empty package name. *)
Theorem createBomRef_ignores_tail (scope pkg rest version : jsstring) :
  ~ In 47 scope -> ~ In 47 pkg ->
  createBomRef (js "@" ++ scope ++ js "/" ++ pkg ++ js "/" ++ rest) version =
  createBomRef (js "@" ++ scope ++ js "/" ++ pkg) version /\
  (pkg = [] -> createBomRef (js "@" ++ scope) version =
               createBomRef (js "@" ++ scope ++ js "/" ++ pkg) version).
Proof.
  intros Hs Hp.
  assert (Hs' : ~ In 47 (64 :: scope)).
  { intros [H|H]; [discriminate|auto]. }
  unfold createBomRef.
  change (js "@" ++ scope ++ js "/" ++ pkg ++ js "/" ++ rest)
    with ((64 :: scope) ++ 47 :: pkg ++ 47 :: rest).
  change (js "@" ++ scope ++ js "/" ++ pkg)
    with ((64 :: scope) ++ 47 :: pkg).
  change (js "@" ++ scope) with (64 :: scope).
  change (startsWith ((64 :: scope) ++ 47 :: pkg ++ 47 :: rest) 64) with true.
  change (startsWith ((64 :: scope) ++ 47 :: pkg) 64) with true.
  change (startsWith (64 :: scope) 64) with true. cbv iota.
  rewrite !split_on_cons_sep by assumption.
  rewrite (split_on_no_sep 47 pkg Hp), (split_on_no_sep 47 _ Hs').
  split; [reflexivity|]. now intros ->.
Qed.

Lemma createBomRef_ignores_tail_witness :
  createBomRef (js "@a/b/c") (js "1") = createBomRef (js "@a/b") (js "1") /\
  createBomRef (js "@a/b") (js "1") = Ok (js "pkg:npm/%40a/b@1").
Proof.
  split; [|reflexivity].
  apply (createBomRef_ignores_tail (js "a") (js "b") (js "c") (js "1"));
    vm_compute; intuition discriminate.
Defined.

Local Close Scope N_scope.

(* ===================================================================== *)
(** * Further properties of the SBOM generator                            *)
(* ===================================================================== *)


Lemma map_keys_set_extends {V : Type} (m : JsMap V) k v :
  exists extra, map_keys (map_set m k v) = map_keys m ++ extra /\
                forall x, In x extra -> x = k.
Proof.
  rewrite map_keys_set. unfold add_key. destruct (includes (map_keys m) k).
  - exists []. rewrite app_nil_r. split; [reflexivity|]. intros x [].
  - exists [k]. split; [reflexivity|]. intros x [<-|[]]. reflexivity.
Qed.

Lemma deps_closed_add_key g r pending :
  deps_closed g pending ->
  (pending = None \/ pending = Some r) ->
  deps_closed (if negb (map_has g r) then map_set g r [] else g) None.
Proof.
  intros [Hnd Hcl] Hp. destruct (map_has g r) eqn:E; cbn [negb].
  - split; [assumption|]. intros k ds Hk. destruct (Hcl k ds Hk) as [H1 H2].
    split; [assumption|]. intros d Hd.
    destruct (H2 d Hd) as [H|H]; [now left|].
    left. destruct Hp as [->| ->]; [discriminate|]. now injection H as ->.
  - split.
    + rewrite map_keys_set. now apply add_key_NoDup.
    + intros k ds Hk. destruct (str_eqb_eq r k) as [_ Heq].
      destruct (str_eqb r k) eqn:Ek.
      * apply str_eqb_eq in Ek. subst k. rewrite map_get_set_same in Hk.
        injection Hk as <-. split; [constructor|]. intros d [].
      * apply str_eqb_neq in Ek. rewrite map_get_set_other in Hk by assumption.
        destruct (Hcl k ds Hk) as [H1 H2]. split; [assumption|].
        intros d Hd. left. destruct (H2 d Hd) as [H|H].
        -- now apply map_has_set.
        -- destruct Hp as [->| ->]; [discriminate|]. injection H as ->.
           eapply map_get_Some_has, map_get_set_same.
Qed.

Lemma graph_add_closed g k x g' :
  deps_closed g None -> graph_add g k x = Ok g' ->
  deps_closed g' (Some x) /\ map_keys g' = map_keys g /\
  map_has g' k = true.
Proof.
  intros [Hnd Hcl]. unfold graph_add.
  destruct (map_get g k) as [deps|] eqn:Ek; [|discriminate].
  intros E. injection E as <-.
  assert (Hk : map_has g k = true) by (eapply map_get_Some_has; eauto).
  assert (Hkeys : map_keys (map_set g k (set_add deps x)) = map_keys g)
    by now apply map_keys_set_present.
  split; [|split; [assumption|now apply map_has_set]].
  split; [now rewrite Hkeys|].
  intros k' ds Hk'. destruct (str_eqb k k') eqn:E.
  - apply str_eqb_eq in E. subst k'. rewrite map_get_set_same in Hk'.
    injection Hk' as <-. destruct (Hcl k deps Ek) as [H1 H2]. split.
    + now apply add_key_NoDup.
    + intros d Hd. apply add_key_In in Hd as [Hd| ->]; [|now right].
      left. apply map_has_set. destruct (H2 d Hd) as [H|H];
        [assumption|discriminate].
  - apply str_eqb_neq in E. rewrite map_get_set_other in Hk' by assumption.
    destruct (Hcl k' ds Hk') as [H1 H2]. split; [assumption|].
    intros d Hd. left. apply map_has_set.
    destruct (H2 d Hd) as [H|H]; [assumption|discriminate].
Qed.

Lemma forest_pairs_cons k c l :
  forest_pairs ((k, c) :: l) = tree_pairs c ++ forest_pairs l.
Proof. reflexivity. Qed.

(** What one call of [traverseNode] does to the dependency map. *)
Lemma traverseNode_closed :
  forall t g g' r,
    createBomRef (dn_name t) (dn_version t) = Ok r ->
    traverseNode t g = Ok g' ->
    (deps_closed g None \/ deps_closed g (Some r)) ->
    deps_closed g' None /\
    (exists extra, map_keys g' = map_keys g ++ extra /\
                   forall k, In k extra -> ref_of (tree_pairs t) k) /\
    (forall k, ref_of (tree_pairs t) k -> map_has g' k = true).
Proof.
  induction t using DependencyNode_induction; intros g g' ref Href;
    rewrite traverseNode_eq; cbn [dn_name dn_version dn_dependencies] in *;
    rewrite Href; cbn [bind]; intros Hrun Hcl;
    set (g1 := if negb (map_has g ref) then map_set g ref [] else g) in *.
  all: assert (Hg1 : deps_closed g1 None)
    by (destruct Hcl as [Hcl|Hcl];
        [apply (deps_closed_add_key g ref None Hcl); auto
        |apply (deps_closed_add_key g ref (Some ref) Hcl); auto]).
  all: assert (Hself : map_has g1 ref = true)
    by (unfold g1; destruct (map_has g ref) eqn:E; cbn [negb];
        [assumption | eapply map_get_Some_has, map_get_set_same]).
  all: assert (Hext : exists extra, map_keys g1 = map_keys g ++ extra /\
                        forall k, In k extra -> k = ref)
    by (unfold g1; destruct (negb (map_has g ref));
        [apply map_keys_set_extends
        | exists []; rewrite app_nil_r; split; [reflexivity|intros ? []]]).
  - injection Hrun as <-. split; [assumption|]. split.
    + destruct Hext as (extra & He & Hx). exists extra. split; [assumption|].
      intros k Hk. apply Hx in Hk. subst k. exists n, v. split; [now left|assumption].
    + intros k (n0 & v0 & [[= <- <-]|[]] & Hk).
      rewrite Href in Hk. now injection Hk as <-.
  - enough (Hloop : forall g0 g2,
              traverseChildren deps ref g0 = Ok g2 ->
              deps_closed g0 None -> map_has g0 ref = true ->
              deps_closed g2 None /\
              (exists extra, map_keys g2 = map_keys g0 ++ extra /\
                 forall k, In k extra -> ref_of (forest_pairs deps) k) /\
              (forall k, map_has g0 k = true -> map_has g2 k = true) /\
              (forall k, ref_of (forest_pairs deps) k -> map_has g2 k = true)).
    { destruct (Hloop g1 g' Hrun Hg1 Hself) as (Hc & (e2 & He2 & Hx2) & Hm & Hall).
      split; [assumption|]. split.
      - destruct Hext as (e1 & He1 & Hx1). exists (e1 ++ e2).
        split; [now rewrite He2, He1, app_assoc|].
        intros k Hk. apply in_app_or in Hk as [Hk|Hk].
        + apply Hx1 in Hk. subst k. exists n, v. split; [now left|assumption].
        + destruct (Hx2 k Hk) as (n0 & v0 & Hin & Hr).
          exists n0, v0. split; [now right|assumption].
      - intros k (n0 & v0 & [[= <- <-]|Hin] & Hk).
        + rewrite Href in Hk. injection Hk as <-. now apply Hm.
        + apply Hall. now exists n0, v0. }
    clear Hrun Hg1 Hself Hext g1 Hcl g g'.
    induction H as [|[k c] deps Hc Hdeps IH]; intros g0 g2 Hrun Hcl Hself.
    + injection Hrun as <-. split; [assumption|]. split.
      * exists []. rewrite app_nil_r. split; [reflexivity|intros ? []].
      * split; [auto|]. intros k (n0 & v0 & [] & _).
    + cbn [traverseChildren] in Hrun. cbn [snd] in Hc.
      destruct (createBomRef (dn_name c) (dn_version c)) as [childRef|] eqn:Ec;
        [|discriminate]. cbn [bind] in Hrun.
      destruct (graph_add g0 ref childRef) as [ga|] eqn:Ea; [|discriminate].
      cbn [bind] in Hrun.
      destruct (traverseNode c ga) as [gc|] eqn:Et; [|discriminate].
      cbn [bind] in Hrun.
      destruct (graph_add_closed _ _ _ _ Hcl Ea) as (Hca & Hka & Hsa).
      destruct (Hc ga gc childRef eq_refl Et (or_intror Hca))
        as (Hcc & (e1 & He1 & Hx1) & Hall1).
      assert (Hmono1 : forall x, map_has g0 x = true -> map_has gc x = true).
      { intros x Hk. apply map_has_In. rewrite He1, Hka.
        apply in_or_app. left. now apply map_has_In. }
      destruct (IH gc g2 Hrun Hcc (Hmono1 _ Hself))
        as (Hc2 & (e2 & He2 & Hx2) & Hm2 & Hall2).
      split; [assumption|]. split; [|split].
      * exists (e1 ++ e2). split; [now rewrite He2, He1, Hka, app_assoc|].
        intros k0 Hk0. rewrite forest_pairs_cons.
        apply in_app_or in Hk0 as [Hk0|Hk0].
        -- destruct (Hx1 k0 Hk0) as (n0 & v0 & Hin & Hr).
           exists n0, v0. split; [apply in_or_app; now left|assumption].
        -- destruct (Hx2 k0 Hk0) as (n0 & v0 & Hin & Hr).
           exists n0, v0. split; [apply in_or_app; now right|assumption].
      * auto.
      * intros k0 (n0 & v0 & Hin & Hr). rewrite forest_pairs_cons in Hin.
        apply in_app_or in Hin as [Hin|Hin].
        -- apply Hm2, Hall1. now exists n0, v0.
        -- apply Hall2. now exists n0, v0.
Qed.

Lemma buildDependencyGraph_closed tree g :
  buildDependencyGraph tree = Ok g ->
  deps_closed g None /\
  exists rootRef rest,
    createBomRef (dt_name tree) (dt_version tree) = Ok rootRef /\
    map_keys g = rootRef :: rest /\
    (forall k, In k rest -> ref_of (forest_pairs (dt_dependencies tree)) k) /\
    (forall k, ref_of (forest_pairs (dt_dependencies tree)) k ->
       In k (map_keys g)).
Proof.
  unfold buildDependencyGraph.
  destruct (createBomRef (dt_name tree) (dt_version tree)) as [rootRef|] eqn:Er;
    [|discriminate]. cbn [bind]. intros Hrun.
  enough (Hloop : forall l g0 g2,
            foldM (traverseRoot rootRef) (map_values l) g0 = Ok g2 ->
            deps_closed g0 None -> map_has g0 rootRef = true ->
            deps_closed g2 None /\
            (exists extra, map_keys g2 = map_keys g0 ++ extra /\
               forall k, In k extra -> ref_of (forest_pairs l) k) /\
            (forall k, ref_of (forest_pairs l) k -> map_has g2 k = true)).
  { assert (H0 : deps_closed (map_set [] rootRef (@nil jsstring)) None).
    { split; [repeat constructor; intros []|]. intros k ds Hk. simpl in Hk.
      destruct (str_eqb rootRef k); [|discriminate]. injection Hk as <-.
      split; [constructor|intros d []]. }
    assert (H1 : map_has (map_set [] rootRef (@nil jsstring)) rootRef = true).
    { unfold map_has. simpl. now rewrite str_eqb_refl. }
    destruct (Hloop _ _ _ Hrun H0 H1) as (Hc & (extra & He & Hx) & Hall).
    split; [assumption|]. exists rootRef, extra.
    split; [reflexivity|]. split; [exact He|]. split; [exact Hx|].
    intros k Hk. now apply map_has_In, Hall. }
  clear Hrun g.
  induction l as [|[k c] l IH]; intros g0 g2 Hrun Hcl Hself.
  - injection Hrun as <-. split; [assumption|]. split.
    + exists []. rewrite app_nil_r. split; [reflexivity|intros ? []].
    + intros k (n0 & v0 & [] & _).
  - cbn [map_values map snd foldM] in Hrun. unfold traverseRoot at 1 in Hrun.
    destruct (createBomRef (dn_name c) (dn_version c)) as [childRef|] eqn:Ec;
      [|discriminate]. cbn [bind] in Hrun.
    destruct (graph_add g0 rootRef childRef) as [ga|] eqn:Ea; [|discriminate].
    cbn [bind] in Hrun.
    destruct (traverseNode c ga) as [gc|] eqn:Et; [|discriminate].
    cbn [bind] in Hrun.
    destruct (graph_add_closed _ _ _ _ Hcl Ea) as (Hca & Hka & Hsa).
    destruct (traverseNode_closed c ga gc childRef Ec Et (or_intror Hca))
      as (Hcc & (e1 & He1 & Hx1) & Hall1).
    assert (Hmono1 : forall k, map_has g0 k = true -> map_has gc k = true).
    { intros k0 Hk. apply map_has_In. rewrite He1, Hka.
      apply in_or_app. left. now apply map_has_In. }
    destruct (IH gc g2 Hrun Hcc (Hmono1 _ Hself))
      as (Hc2 & (e2 & He2 & Hx2) & Hall2).
    assert (Hmono2 : forall k, map_has gc k = true -> map_has g2 k = true).
    { intros k0 Hk. apply map_has_In. rewrite He2.
      apply in_or_app. left. now apply map_has_In. }
    split; [assumption|]. split.
    + exists (e1 ++ e2). split; [now rewrite He2, He1, Hka, app_assoc|].
      intros k0 Hk0. rewrite forest_pairs_cons.
      apply in_app_or in Hk0 as [Hk0|Hk0].
      * destruct (Hx1 k0 Hk0) as (n0 & v0 & Hin & Hr).
        exists n0, v0. split; [apply in_or_app; now left|assumption].
      * destruct (Hx2 k0 Hk0) as (n0 & v0 & Hin & Hr).
        exists n0, v0. split; [apply in_or_app; now right|assumption].
    + intros k0 (n0 & v0 & Hin & Hr). rewrite forest_pairs_cons in Hin.
      apply in_app_or in Hin as [Hin|Hin].
      * apply Hmono2, Hall1. now exists n0, v0.
      * apply Hall2. now exists n0, v0.
Qed.



Lemma collapse_replace b' b s :
  (b' = true -> b = true) ->
  collapse_dashes b (replace_runs b' s) = dash_runs b s.
Proof.
  revert b' b. induction s as [|c s IH]; intros b' b Hb; [reflexivity|].
  cbn [replace_runs dash_runs]. destruct (spdx_allowed c) eqn:Ea.
  - cbn [collapse_dashes andb]. destruct (N.eqb c 45) eqn:E5; cbn [negb].
    + destruct b; rewrite (IH false true); auto; discriminate.
    + now rewrite (IH false false).
  - cbn [andb]. destruct b'.
    + rewrite (Hb eq_refl). now apply IH.
    + cbn [collapse_dashes]. change (N.eqb 45 45) with true. cbv iota.
      destruct b; now rewrite (IH true true).
Qed.

Lemma dash_runs_sep b l1 l2 :
  dash_runs b (l1 ++ 45%N :: l2) = dash_runs b (l1 ++ 64%N :: l2).
Proof.
  revert b. induction l1 as [|c l1 IH]; intros b.
  - reflexivity.
  - cbn [app dash_runs].
    destruct (spdx_allowed c && negb (N.eqb c 45)); [now rewrite IH|].
    destruct b; now rewrite IH.
Qed.

Lemma createSpdxRef_key name version :
  createSpdxRef name version =
  js "SPDXRef-" ++ dash_runs false (createKey name version).
Proof.
  unfold createSpdxRef, createKey.
  rewrite collapse_replace by discriminate.
  f_equal. apply dash_runs_sep.
Qed.

(** X15: the SPDX id is a function of the dedup key: two packages with
    the same key [name@version] get the same id, however the key splits
    into a name and a version, because the sanitizer turns the [@] of the
    key and the [-] of the id into the same run. *)
Theorem createSpdxRef_respects_key (name version name' version' : jsstring) :
  createKey name version = createKey name' version' ->
  createSpdxRef name version = createSpdxRef name' version'.
Proof. intros E. now rewrite !createSpdxRef_key, E. Qed.

Lemma createSpdxRef_respects_key_witness :
  createKey (js "a@1") (js "2") = createKey (js "a") (js "1@2") /\
  createSpdxRef (js "a@1") (js "2") = createSpdxRef (js "a") (js "1@2").
Proof.
  split; [reflexivity|].
  apply (createSpdxRef_respects_key (js "a@1") (js "2") (js "a") (js "1@2")).
  reflexivity.
Defined.

Lemma recordPackage_inv acc p pm :
  recordPackage acc p = Ok pm ->
  exists ref,
    createBomRef (pi_name p) (pi_version p) = Ok ref /\
    byKey pm =
      map_set (byKey acc) (pkg_key p)
        (mkPackageMetadata p ref (createSpdxRef (pi_name p) (pi_version p)))
    /\
    byBomRef pm =
      map_set (byBomRef acc) ref
        (mkPackageMetadata p ref (createSpdxRef (pi_name p) (pi_version p))).
Proof.
  unfold recordPackage.
  destruct (createBomRef (pi_name p) (pi_version p)) as [ref|e];
    [|discriminate].
  cbn [bind]. intros [= <-]. exists ref. auto.
Qed.

(** Every record of the two tables describes a package of the list. *)
Lemma packageMap_members pkgs :
  forall acc pm,
    foldM recordPackage pkgs acc = Ok pm ->
    (forall k m, In (k, m) (byKey pm) ->
       In (k, m) (byKey acc) \/
       (In (info m) pkgs /\ k = pkg_key (info m) /\ metadata_ok m)) /\
    (forall k m, In (k, m) (byBomRef pm) ->
       In (k, m) (byBomRef acc) \/
       (In (info m) pkgs /\ k = bomRef m /\ metadata_ok m)).
Proof.
  induction pkgs as [|p pkgs IH]; intros acc pm; simpl.
  - intros [= <-]. auto.
  - destruct (recordPackage acc p) as [acc'|e] eqn:E; [|discriminate].
    cbn [bind]. intros H. destruct (IH _ _ H) as [IH1 IH2].
    apply recordPackage_inv in E as (ref & Href & Hk & Hb).
    split; intros k m Hin.
    + destruct (IH1 k m Hin) as [Hacc|(Hi & Hkk & Hok)].
      * rewrite Hk in Hacc.
        apply map_set_entries in Hacc as [Hacc|[-> ->]]; [auto|].
        right. split; [now left|]. split; [reflexivity|].
        split; [reflexivity | exact Href].
      * right. split; [now right|]. auto.
    + destruct (IH2 k m Hin) as [Hacc|(Hi & Hkk & Hok)].
      * rewrite Hb in Hacc.
        apply map_set_entries in Hacc as [Hacc|[-> ->]]; [auto|].
        right. split; [now left|]. split; [reflexivity|].
        split; [reflexivity | exact Href].
      * right. split; [now right|]. auto.
Qed.

Lemma buildPackageMetadataMap_members pkgs pm :
  buildPackageMetadataMap pkgs = Ok pm ->
  (forall k m, In (k, m) (byKey pm) ->
     In (info m) pkgs /\ k = pkg_key (info m) /\ metadata_ok m) /\
  (forall k m, In (k, m) (byBomRef pm) ->
     In (info m) pkgs /\ k = bomRef m /\ metadata_ok m) /\
  map_keys (byKey pm) = distinct (map pkg_key pkgs).
Proof.
  intros H. unfold buildPackageMetadataMap in H.
  destruct (packageMap_members _ _ _ H) as [H1 H2].
  split; [|split].
  - intros k m Hin. destruct (H1 k m Hin) as [[]|Hr]. exact Hr.
  - intros k m Hin. destruct (H2 k m Hin) as [[]|Hr]. exact Hr.
  - now rewrite (packageMap_keys _ _ _ H).
Qed.

Lemma add_key_length ks k : length (add_key ks k) <= S (length ks).
Proof.
  unfold add_key. destruct (includes ks k); [lia|].
  rewrite length_app. simpl. lia.
Qed.

Lemma fold_add_key_length l ks :
  length (fold_left add_key l ks) <= length ks + length l.
Proof.
  revert ks. induction l as [|k l IH]; intros ks; simpl; [lia|].
  specialize (IH (add_key ks k)). pose proof (add_key_length ks k). lia.
Qed.

Lemma map_get_In_entry {V : Type} (m : JsMap V) k v :
  map_get m k = Some v -> In (k, v) m.
Proof.
  intros H. apply map_get_In in H as (k' & Hin & ->). exact Hin.
Qed.

Lemma map_keys_In_entry {V : Type} (m : JsMap V) k :
  In k (map_keys m) -> exists v, In (k, v) m.
Proof.
  unfold map_keys. intros H. apply in_map_iff in H as ([k' v] & <- & Hin).
  now exists v.
Qed.

Section Documents.
Context {P : Platform}.

(** X16: the [dependencies] section of a CycloneDX document is closed.
    Its entries have pairwise different refs; the first is the reference
    of the tree's own name and version (which is the bom-ref of the root
    component when the options override neither), the others are
    references of packages of the tree, and every package of the tree has
    an entry; no [dependsOn] list repeats a ref, and every ref in one is
    the ref of an entry. *)
Theorem cyclonedx_dependencies_closed (uuid : jsstring)
    (scanResult : ScanResult) (generatedAt : Date)
    (options : SbomGenerateOptions) (bom : CycloneDxBom) :
  buildCycloneDxBom uuid scanResult generatedAt options = Ok bom ->
  let tree := sr_dependencies scanResult in
  let refs := map de_ref (dependencies bom) in
  NoDup refs /\
  (exists rootRef rest,
     createBomRef (dt_name tree) (dt_version tree) = Ok rootRef /\
     refs = rootRef :: rest /\
     (forall k, In k rest -> ref_of (forest_pairs (dt_dependencies tree)) k) /\
     (metadata_field md_componentName options = None ->
      metadata_field md_componentVersion options = None ->
      rc_bomRef (metadata_component bom) = rootRef)) /\
  (forall k, ref_of (forest_pairs (dt_dependencies tree)) k -> In k refs) /\
  (forall e, In e (dependencies bom) ->
     NoDup (de_dependsOn e) /\
     forall d, In d (de_dependsOn e) -> In d refs).
Proof.
  intros H tree refs. subst tree. unfold buildCycloneDxBom in H.
  destruct (buildRootComponent (sr_dependencies scanResult) options)
    as [root|] eqn:Eroot; [|discriminate]. cbn [bind] in H.
  destruct (buildPackageMetadataMap (dt_packages (sr_dependencies scanResult)))
    as [pm|] eqn:Epm; [|discriminate]. cbn [bind] in H.
  destruct (buildDependencyGraph (sr_dependencies scanResult))
    as [g|] eqn:Eg; [|discriminate]. cbn [bind] in H.
  injection H as <-. subst refs. cbn [dependencies metadata_component].
  assert (Hrefs : map de_ref (buildDependencyEntries g) = map_keys g).
  { unfold buildDependencyEntries, map_keys. rewrite map_map.
    apply map_ext. now intros [k ds]. }
  rewrite Hrefs.
  destruct (buildDependencyGraph_closed _ _ Eg)
    as ([Hnd Hcl] & rootRef & rest & Hroot & Hkeys & Hsound & Hcomplete).
  split; [assumption|]. split; [|split].
  - exists rootRef, rest. repeat split; try assumption.
    intros Hn Hv. unfold buildRootComponent in Eroot.
    rewrite Hn, Hv in Eroot. cbn [nullish] in Eroot.
    rewrite Hroot in Eroot. cbn [bind] in Eroot. now injection Eroot as <-.
  - exact Hcomplete.
  - intros e He. unfold buildDependencyEntries in He.
    apply in_map_iff in He as ([k ds] & <- & Hin). cbn [de_dependsOn].
    apply In_map_get_NoDup in Hin; [|assumption].
    destruct (Hcl k ds Hin) as [H1 H2]. split; [assumption|].
    intros d Hd. destruct (H2 d Hd) as [H|H]; [|discriminate].
    now apply map_has_In.
Qed.

(** X17: the [components] of a CycloneDX document come from the package
    list: each is the component of a listed package under the reference
    of its name and version; their dedup keys are the distinct keys of
    the list in order of first occurrence, so they are never more than
    [stats.totalComponents], and one per package, in order, when no key
    repeats. Every ref in the [affects] of an embedded vulnerability is
    the bom-ref of a component. *)
Theorem cyclonedx_components (uuid : jsstring) (scanResult : ScanResult)
    (generatedAt : Date) (options : SbomGenerateOptions)
    (bom : CycloneDxBom) :
  buildCycloneDxBom uuid scanResult generatedAt options = Ok bom ->
  let pkgs := dt_packages (sr_dependencies scanResult) in
  (forall c, In c (components bom) ->
     exists p, In p pkgs /\
       createBomRef (pi_name p) (pi_version p) = Ok (c_bomRef c) /\
       c = component_of p (c_bomRef c)) /\
  map (fun c => createKey (c_name c) (c_version c)) (components bom) =
    distinct (map pkg_key pkgs) /\
  length (components bom) <= totalComponents (buildStats pkgs) /\
  (NoDup (map pkg_key pkgs) ->
   Forall2 (fun c p => c = component_of p (c_bomRef c))
     (components bom) pkgs) /\
  (forall vulns vuln, vulnerabilities bom = Some vulns -> In vuln vulns ->
     forall r, In r (cv_affects vuln) ->
       In r (map c_bomRef (components bom))).
Proof.
  intros H pkgs. unfold buildCycloneDxBom in H.
  destruct (buildRootComponent (sr_dependencies scanResult) options)
    as [root|] eqn:Eroot; [|discriminate]. cbn [bind] in H.
  destruct (buildPackageMetadataMap (dt_packages (sr_dependencies scanResult)))
    as [pm|] eqn:Epm; [|discriminate]. cbn [bind] in H.
  destruct (buildDependencyGraph (sr_dependencies scanResult))
    as [g|] eqn:Eg; [|discriminate]. cbn [bind] in H.
  injection H as <-. cbn [components vulnerabilities].
  destruct (buildPackageMetadataMap_members _ _ Epm) as (Hkey & _ & Hkeys).
  fold pkgs in Hkey, Hkeys.
  assert (Hval : forall m, In m (map_values (byKey pm)) ->
                   In (info m) pkgs /\ metadata_ok m).
  { intros m Hm. unfold map_values in Hm.
    apply in_map_iff in Hm as ([k m'] & <- & Hin).
    destruct (Hkey k m' Hin) as (? & _ & ?). auto. }
  split; [|split; [|split; [|split]]].
  - intros c Hc. unfold buildComponentsArray in Hc.
    apply in_map_iff in Hc as (m & <- & Hm).
    destruct (Hval m Hm) as (Hin & Hok). exists (info m).
    split; [assumption|]. split; [apply Hok|reflexivity].
  - rewrite <- Hkeys. unfold buildComponentsArray, map_keys, map_values.
    rewrite !map_map. apply map_ext_in. intros [k m] Hin. cbn.
    destruct (Hkey k m Hin) as (_ & -> & _). reflexivity.
  - unfold buildComponentsArray, map_values. rewrite !length_map.
    cbn [buildStats totalComponents].
    change (length (byKey pm)) with (length (byKey pm)).
    rewrite <- (length_map fst (byKey pm)). fold (map_keys (byKey pm)).
    rewrite Hkeys. unfold distinct.
    pose proof (fold_add_key_length (map pkg_key pkgs) []) as Hl.
    rewrite length_map in Hl. simpl in Hl. exact Hl.
  - intros Hnd.
    pose proof (packageMap_infos pkgs (mkPackageMetadataMap [] []) pm) as Hi.
    cbn [byKey map_keys map_values map app] in Hi.
    specialize (Hi Hnd Epm). unfold buildComponentsArray.
    rewrite <- Hi. clear Hi Hval.
    induction (map_values (byKey pm)) as [|m l IH]; cbn [map]; constructor.
    + reflexivity.
    + apply IH.
  - intros vulns vuln Hv Hin r Hr.
    destruct (truthy_bool (o_attachVulnerabilities options)
              && Nat.ltb 0 (length (sr_vulnerabilities scanResult)));
      [|discriminate].
    injection Hv as <-. unfold buildCycloneDxVulnerabilities in Hin.
    apply in_map_iff in Hin as (v & <- & _). cbn [cv_affects] in Hr.
    destruct (map_get (byKey pm) (createKey (v_package v) (v_version v)))
      as [m|] eqn:Em; [|destruct Hr].
    destruct Hr as [<-|[]]. unfold buildComponentsArray. rewrite map_map.
    cbn [c_bomRef]. apply in_map. eapply map_get_In_values; eassumption.
Qed.

Lemma truthy_str_inv p s : truthy_str p = Some s -> p = Some s.
Proof. destruct p as [[|c t]|]; simpl; congruence. Qed.

Lemma mapM_map {A B C : Type} (f : A -> outcome B) (g : B -> C) (h : A -> C)
    (l : list A) (bs : list B) :
  (forall a b, f a = Ok b -> g b = h a) ->
  mapM f l = Ok bs -> map g bs = map h l.
Proof.
  intros Hf. revert bs. induction l as [|a l IH]; intros bs; simpl.
  - now intros [= <-].
  - destruct (f a) as [b|] eqn:Ea; [|discriminate]. cbn [bind].
    destruct (mapM f l) as [bs'|]; [|discriminate]. cbn [bind].
    intros [= <-]. simpl. rewrite (Hf a b Ea). f_equal. now apply IH.
Qed.

Lemma buildSpdxPackages_ids tree pm options pk :
  buildSpdxPackages tree pm options = Ok pk ->
  exists root libs,
    pk = root :: libs /\
    sp_SPDXID root =
      createSpdxRef
        (nullish (metadata_field md_componentName options) (dt_name tree))
        (nullish (metadata_field md_componentVersion options)
           (dt_version tree)) /\
    map sp_SPDXID libs = map spdxRef (map_values pm).
Proof.
  unfold buildSpdxPackages.
  match goal with
  | |- context [mapM ?f _] => destruct (mapM f (map_values pm)) as [libs|] eqn:E
  end; [|discriminate].
  cbn [bind]. intros [= <-]. eexists. exists libs.
  split; [reflexivity|]. split; [reflexivity|].
  eapply mapM_map; [|exact E]. intros m b Hb. cbv beta in Hb.
  destruct (createBomRef (pi_name (info m)) (pi_version (info m)));
    [|discriminate].
  cbn [bind] in Hb. now injection Hb as <-.
Qed.

(** A record of the table by reference has its SPDX id among the ids of
    the table by key. *)
Lemma packageMap_spdx_ids pkgs pm k m :
  buildPackageMetadataMap pkgs = Ok pm ->
  In (k, m) (byBomRef pm) ->
  In (spdxRef m) (map spdxRef (map_values (byKey pm))).
Proof.
  intros Hpm Hin.
  destruct (buildPackageMetadataMap_members _ _ Hpm) as (Hkey & Hbom & Hkeys).
  destruct (Hbom k m Hin) as (Hi & _ & Hs & _).
  assert (Hk : In (pkg_key (info m)) (map_keys (byKey pm))).
  { rewrite Hkeys. apply distinct_In. now apply in_map. }
  apply map_keys_In_entry in Hk as (m0 & Hm0).
  destruct (Hkey _ _ Hm0) as (_ & Ek & Hs0 & _).
  apply in_map_iff. exists m0. split.
  - rewrite Hs, Hs0, !createSpdxRef_key. unfold pkg_key in Ek. now rewrite Ek.
  - unfold map_values. apply in_map_iff. now exists (pkg_key (info m), m0).
Qed.

Lemma packageMap_by_key_ids pkgs pm k m :
  buildPackageMetadataMap pkgs = Ok pm ->
  map_get (byKey pm) k = Some m ->
  In (spdxRef m) (map spdxRef (map_values (byKey pm))).
Proof.
  intros _ H. apply in_map. eapply map_get_In_values; eassumption.
Qed.

(** X18: an SPDX document has no dangling reference. Its relationships
    are one [DESCRIBES] from the document to the root package followed by
    [DEPENDS_ON] relationships whose source is the SPDXID of a package of
    the document and whose target is the SPDXID of a library package;
    every annotation is attached to the SPDXID of a library package. *)
Theorem spdx_references_resolve (uuid : jsstring) (scanResult : ScanResult)
    (generatedAt : Date) (options : SbomGenerateOptions)
    (doc : SpdxDocument) :
  buildSpdxDocument uuid scanResult generatedAt options = Ok doc ->
  exists root libs rest,
    packages doc = root :: libs /\
    relationships doc =
      mkSpdxRelationship (js "SPDXRef-DOCUMENT") (js "DESCRIBES")
        (sp_SPDXID root) :: rest /\
    (forall r, In r rest ->
       relationshipType r = js "DEPENDS_ON" /\
       In (rel_spdxElementId r) (map sp_SPDXID (root :: libs)) /\
       In (relatedSpdxElement r) (map sp_SPDXID libs)) /\
    (forall a, In a (annotations doc) ->
       In (an_spdxElementId a) (map sp_SPDXID libs)).
Proof.
  intros H. unfold buildSpdxDocument in H.
  destruct (buildPackageMetadataMap (dt_packages (sr_dependencies scanResult)))
    as [pm|] eqn:Epm; [|discriminate]. cbn [bind] in H.
  destruct (buildDependencyGraph (sr_dependencies scanResult))
    as [g|] eqn:Eg; [|discriminate]. cbn [bind] in H.
  destruct (buildSpdxPackages (sr_dependencies scanResult) (byKey pm) options)
    as [pk|] eqn:Epk; [|discriminate]. cbn [bind] in H.
  destruct (buildSpdxRelationships (sr_dependencies scanResult) (byBomRef pm)
              g options) as [rels|] eqn:Er; [|discriminate].
  cbn [bind] in H. injection H as <-.
  cbn [packages relationships annotations].
  apply buildSpdxPackages_ids in Epk as (root & libs & -> & Hroot & Hlibs).
  unfold buildSpdxRelationships in Er.
  destruct (createBomRef (dt_name (sr_dependencies scanResult))
              (dt_version (sr_dependencies scanResult))) as [rootBomRef|];
    [|discriminate].
  cbn [bind] in Er. injection Er as <-. rewrite <- Hroot.
  exists root, libs. eexists. split; [reflexivity|]. split; [reflexivity|].
  cbn [map]. rewrite Hlibs. split.
  - intros r Hr. apply in_flat_map in Hr as ([parent deps] & _ & Hr).
    match type of Hr with
    | In _ (match truthy_str ?p with _ => _ end) =>
        destruct (truthy_str p) as [parentSpdx|] eqn:Ep; [|destruct Hr]
    end.
    apply truthy_str_inv in Ep.
    apply in_flat_map in Hr as (child & _ & Hr).
    destruct (truthy_str (option_map spdxRef (map_get (byBomRef pm) child)))
      as [childSpdx|] eqn:Ec; [|destruct Hr].
    apply truthy_str_inv in Ec. destruct Hr as [<-|[]].
    cbn [relationshipType rel_spdxElementId relatedSpdxElement].
    split; [reflexivity|]. split.
    + destruct (str_eqb parent rootBomRef).
      * injection Ep as <-. now left.
      * right. destruct (map_get (byBomRef pm) parent) as [m|] eqn:Em;
          [|discriminate].
        cbn [option_map] in Ep. injection Ep as <-.
        eapply packageMap_spdx_ids; [eassumption|].
        eapply map_get_In_entry; eassumption.
    + destruct (map_get (byBomRef pm) child) as [m|] eqn:Em; [|discriminate].
      cbn [option_map] in Ec. injection Ec as <-.
      eapply packageMap_spdx_ids; [eassumption|].
      eapply map_get_In_entry; eassumption.
  - intros a Ha.
    destruct (truthy_bool (o_attachVulnerabilities options)); [|destruct Ha].
    unfold buildSpdxAnnotations in Ha.
    apply in_flat_map in Ha as (v & _ & Ha).
    destruct (map_get (byKey pm) (createKey (v_package v) (v_version v)))
      as [m|] eqn:Em; [|destruct Ha].
    destruct Ha as [<-|[]]. cbn [an_spdxElementId].
    apply in_map. eapply map_get_In_values; eassumption.
Qed.
End Documents.

Lemma cyclonedx_dependencies_closed_witness :
  exists bom,
    @buildCycloneDxBom example_platform (js "uuid") (demo_scan [])
      (js "2024-02-01T00:00:00.000Z") (cyclonedx_options false) = Ok bom /\
    NoDup (map de_ref (dependencies bom)).
Proof.
  destruct (@buildCycloneDxBom example_platform (js "uuid") (demo_scan [])
              (js "2024-02-01T00:00:00.000Z") (cyclonedx_options false))
    as [bom|e] eqn:E; [|vm_compute in E; discriminate E].
  exists bom. split; [reflexivity|].
  exact (proj1 (@cyclonedx_dependencies_closed example_platform _ _ _ _ _ E)).
Defined.

Lemma cyclonedx_components_witness :
  exists bom,
    @buildCycloneDxBom example_platform (js "uuid")
      (demo_scan [demo_finding "lodash" "4.17.21"])
      (js "2024-02-01T00:00:00.000Z") (cyclonedx_options true) = Ok bom /\
    length (components bom) <= 2.
Proof.
  destruct (@buildCycloneDxBom example_platform (js "uuid")
              (demo_scan [demo_finding "lodash" "4.17.21"])
              (js "2024-02-01T00:00:00.000Z") (cyclonedx_options true))
    as [bom|e] eqn:E; [|vm_compute in E; discriminate E].
  exists bom. split; [reflexivity|].
  exact (proj1 (proj2 (proj2
           (@cyclonedx_components example_platform _ _ _ _ _ E)))).
Defined.

Lemma spdx_references_resolve_witness :
  exists doc,
    @buildSpdxDocument example_platform (js "uuid")
      (demo_scan [demo_finding "lodash" "4.17.21"])
      (js "2024-02-01T00:00:00.000Z") (spdx_options true) = Ok doc /\
    exists root libs,
      packages doc = root :: libs /\
      forall a, In a (annotations doc) ->
        In (an_spdxElementId a) (map sp_SPDXID libs).
Proof.
  destruct (@buildSpdxDocument example_platform (js "uuid")
              (demo_scan [demo_finding "lodash" "4.17.21"])
              (js "2024-02-01T00:00:00.000Z") (spdx_options true))
    as [doc|e] eqn:E; [|vm_compute in E; discriminate E].
  exists doc. split; [reflexivity|].
  destruct (@spdx_references_resolve example_platform _ _ _ _ _ E)
    as (root & libs & rest & Hp & _ & _ & Ha).
  exists root, libs. split; assumption.
Defined.

(* ===================================================================== *)
(** * Properties: the scanner                                             *)
(* ===================================================================== *)

Lemma traverse_eq node isDev st :
  traverse node isDev st =
  match dn_dependencies node with
  | None => st
  | Some depMap => traverse_entries depMap isDev st
  end.
Proof.
  destruct node as [n v r [deps|]]; simpl; [|reflexivity].
  revert st. induction deps as [|[k c] deps IH]; intros st; simpl;
    [reflexivity|]. apply IH.
Qed.

Lemma collects_refl isDev st : collects [] isDev st st.
Proof.
  exists []. rewrite app_nil_r. split; [reflexivity|].
  split; [constructor|]. split; [constructor|]. split; [intros k []|].
  split; [|intros k []]. intros k. simpl. tauto.
Qed.

Lemma collects_trans ids1 ids2 isDev st1 st2 st3 :
  collects ids1 isDev st1 st2 -> collects ids2 isDev st2 st3 ->
  collects (ids1 ++ ids2) isDev st1 st3.
Proof.
  intros (a1 & E1 & F1 & N1 & D1 & S1 & C1) (a2 & E2 & F2 & N2 & D2 & S2 & C2).
  exists (a1 ++ a2). split; [now rewrite E2, E1, app_assoc|].
  split; [now apply Forall_app|]. rewrite map_app.
  split; [|split; [|split]].
  - apply NoDup_app; try assumption.
    intros k H1 H2. apply (proj1 (D2 k H2)). apply S1. now right.
  - intros k Hk. rewrite in_app_iff.
    apply in_app_or in Hk as [Hk|Hk].
    + destruct (D1 k Hk). auto.
    + destruct (D2 k Hk) as [Hn Hi]. split; [|auto].
      intros Hin. apply Hn, S1. now left.
  - intros k. rewrite S2, S1, in_app_iff. tauto.
  - intros k Hk. apply in_app_or in Hk as [Hk|Hk].
    + apply S2. left. now apply C1.
    + now apply C2.
Qed.

Lemma collect_entry_collects name node isDev st :
  collects [createKey name (dn_version node)] isDev st
    (collect_entry name node isDev st).
Proof.
  unfold collect_entry.
  destruct (includes (fst st) (createKey name (dn_version node))) eqn:E;
    cbn [negb].
  - apply includes_In in E. exists []. rewrite app_nil_r.
    split; [reflexivity|].
    split; [constructor|]. split; [constructor|]. split; [intros k []|].
    split; [intros k; simpl; tauto|]. intros k [<-|[]]. exact E.
  - exists [mkPackageInfo name (dn_version node) isDev false].
    cbn [fst snd]. split; [reflexivity|]. split; [repeat constructor|].
    split; [repeat constructor; intros []|].
    unfold set_add. rewrite E. apply includes_not_In in E.
    split; [|split].
    + intros k [<-|[]]. split; [exact E | now left].
    + intros k. rewrite in_app_iff. reflexivity.
    + intros k [<-|[]]. apply in_or_app. right. now left.
Qed.

Lemma forest_ids_cons k c l :
  forest_ids ((k, c) :: l) =
  createKey k (dn_version c)
  :: match dn_dependencies c with
     | Some deps => forest_ids deps
     | None => []
     end ++ forest_ids l.
Proof. cbn [forest_ids]. now rewrite tree_ids_eq. Qed.

Lemma traverse_collects :
  forall node isDev st,
    collects match dn_dependencies node with
             | Some deps => forest_ids deps
             | None => []
             end isDev st (traverse node isDev st).
Proof.
  induction node using DependencyNode_induction; intros isDev st;
    rewrite traverse_eq; cbn [dn_dependencies].
  - apply collects_refl.
  - revert st. induction H as [|[k c] deps Hc Hdeps IH]; intros st.
    + apply collects_refl.
    + cbn [traverse_entries]. rewrite forest_ids_cons.
      change (createKey k (dn_version c) ::
              match dn_dependencies c with
              | Some deps0 => forest_ids deps0
              | None => []
              end ++ forest_ids deps)
        with ([createKey k (dn_version c)] ++
              match dn_dependencies c with
              | Some deps0 => forest_ids deps0
              | None => []
              end ++ forest_ids deps).
      eapply collects_trans; [apply collect_entry_collects|].
      eapply collects_trans; [apply Hc|]. apply IH.
Qed.

Lemma collect_roots_collects l st :
  collects (inner_ids l) false st
    (fold_left (fun st '(_, node) => traverse node false st) l st).
Proof.
  revert st. induction l as [|[k c] l IH]; intros st.
  - apply collects_refl.
  - cbn [fold_left inner_ids].
    eapply collects_trans; [apply traverse_collects|]. apply IH.
Qed.

Lemma forest_ids_split l x :
  In x (forest_ids l) <->
  In x (map top_id l) \/
  In x (inner_ids l).
Proof.
  induction l as [|[k c] l IH]; [simpl; tauto|].
  rewrite forest_ids_cons. cbn [map inner_ids In]. unfold top_id at 1.
  cbn [fst snd].
  rewrite !in_app_iff, IH. tauto.
Qed.

(** The whole of [collectAllPackages] as one traversal that starts with
    the keys of the list as its set [seen]. *)
Lemma collectAllPackages_collects (deps : list (jsstring * DependencyNode))
    (packages : list PackageInfo) :
  exists seen',
    collects (inner_ids deps) false
      (distinct (map pkg_key packages), packages)
      (seen', collectAllPackages deps packages).
Proof.
  unfold collectAllPackages.
  change (fold_left set_add
            (map (fun p => createKey (pi_name p) (pi_version p)) packages) [])
    with (distinct (map pkg_key packages)).
  pose proof (collect_roots_collects deps
                (distinct (map pkg_key packages), packages)) as H.
  destruct (fold_left (fun st '(_, node) => traverse node false st) deps
              (distinct (map pkg_key packages), packages)) as [seen' pkgs'].
  now exists seen'.
Qed.

Lemma collectAllPackages_keys deps packages k :
  In k (map pkg_key (collectAllPackages deps packages)) <->
  In k (map pkg_key packages) \/ In k (inner_ids deps).
Proof.
  destruct (collectAllPackages_collects deps packages)
    as (seen' & added & E & _ & _ & D & S & C).
  cbn [fst snd] in *. rewrite E, map_app, in_app_iff.
  split; [|intros [H|H]].
  - intros [H|H]; [now left | right; now apply D].
  - now left.
  - apply C, S in H. rewrite distinct_In in H. exact H.
Qed.

(** X19: [collectAllPackages] only appends to the package list. What it
    appends are packages that are neither direct nor dev, with pairwise
    different dedup keys that the list did not hold; afterwards the keys
    of the list are those it had and those of the nodes below the top
    level of the tree, each made from the mapping key and the node's
    version; and a list without a repeated key stays so. *)
Theorem collectAllPackages_spec (deps : list (jsstring * DependencyNode))
    (packages : list PackageInfo) :
  exists added,
    collectAllPackages deps packages = packages ++ added /\
    Forall (fun p => pi_isDirect p = false /\ pi_isDevDependency p = false)
      added /\
    NoDup (map pkg_key added) /\
    (forall p, In p added -> ~ In (pkg_key p) (map pkg_key packages)) /\
    (forall k, In k (map pkg_key (collectAllPackages deps packages)) <->
       In k (map pkg_key packages) \/ In k (inner_ids deps)) /\
    (NoDup (map pkg_key packages) ->
     NoDup (map pkg_key (collectAllPackages deps packages))).
Proof.
  destruct (collectAllPackages_collects deps packages)
    as (seen' & added & E & F & N & D & S & C).
  cbn [fst snd] in *. exists added.
  split; [assumption|]. split; [assumption|]. split; [assumption|].
  split; [|split].
  - intros p Hp Hin. apply (proj1 (D _ (in_map pkg_key _ _ Hp))).
    now apply distinct_In.
  - intros k. apply collectAllPackages_keys.
  - intros Hnd. rewrite E, map_app. apply NoDup_app; try assumption.
    intros k H1 H2. apply (proj1 (D k H2)). now apply distinct_In.
Qed.

Lemma buildTransitiveDeps_eq fuel lockfile lockEntry :
  buildTransitiveDeps (S fuel) lockfile lockEntry =
  match le_dependencies lockEntry with
  | None => Some None
  | Some entries =>
      match transitive_loop fuel lockfile entries [] with
      | Some transitive =>
          Some (if Nat.ltb 0 (length transitive) then Some transitive
                else None)
      | None => None
      end
  end.
Proof.
  cbn [buildTransitiveDeps].
  destruct (le_dependencies lockEntry) as [entries|]; [|reflexivity].
  match goal with
  | |- match ?loop entries [] with _ => _ end = _ =>
      enough (H : forall l t, loop l t = transitive_loop fuel lockfile l t)
        by now rewrite H
  end.
  induction l as [|[name r] l IH]; intros t; [reflexivity|].
  cbn [transitive_loop].
  destruct (lock_lookup lockfile name) as [te|]; [|apply IH].
  destruct (buildTransitiveDeps fuel lockfile te); [apply IH|reflexivity].
Qed.

Lemma well_keyed_forest_set m k c :
  well_keyed_forest m = true -> well_keyed c = true -> dn_name c = k ->
  well_keyed_forest (map_set m k c) = true.
Proof.
  intros Hm Hc Hk. induction m as [|[k0 c0] m IH]; cbn [map_set].
  - cbn [well_keyed_forest]. subst k. now rewrite str_eqb_refl, Hc.
  - cbn [well_keyed_forest] in Hm.
    apply andb_true_iff in Hm as [Hm1 Hm2].
    apply andb_true_iff in Hm1 as [Hm0 Hm1].
    destruct (str_eqb k0 k) eqn:E; cbn [well_keyed_forest].
    + apply str_eqb_eq in E. subst k0 k.
      now rewrite str_eqb_refl, Hc, Hm2.
    + now rewrite Hm0, Hm1, IH.
Qed.

Lemma forest_pairs_set m k c p :
  In p (forest_pairs (map_set m k c)) ->
  In p (forest_pairs m) \/ In p (tree_pairs c).
Proof.
  induction m as [|[k0 c0] m IH]; cbn [map_set].
  - cbn [forest_pairs]. rewrite app_nil_r. auto.
  - destruct (str_eqb k0 k); cbn [forest_pairs]; rewrite !in_app_iff.
    + tauto.
    + intros [H|H]; [tauto|]. destruct (IH H); tauto.
Qed.

Lemma map_set_nonempty {V : Type} (m : JsMap V) k v : map_set m k v <> [].
Proof.
  destruct m as [|[k0 v0] m]; cbn [map_set]; [discriminate|].
  destruct (str_eqb k0 k); discriminate.
Qed.

(** What [buildTransitiveDeps] returns is keyed by name and made of
    entries of the lockfile. *)
Lemma buildTransitiveDeps_ok lockfile :
  forall fuel lockEntry r,
    buildTransitiveDeps fuel lockfile lockEntry = Some r ->
    match r with
    | Some l =>
        well_keyed_forest l = true /\ NoDup (map_keys l) /\ l <> [] /\
        from_lockfile lockfile l
    | None => True
    end.
Proof.
  induction fuel as [|fuel IH]; intros e r; [discriminate|].
  rewrite buildTransitiveDeps_eq.
  destruct (le_dependencies e) as [entries|]; [|now intros [= <-]].
  destruct (transitive_loop fuel lockfile entries []) as [t|] eqn:El;
    [|discriminate].
  intros [= <-].
  destruct (Nat.ltb 0 (length t)) eqn:Elen; [|exact I].
  assert (Hne : t <> []) by (destruct t; [discriminate Elen | discriminate]).
  enough (Hloop : forall l t0 t1,
            transitive_loop fuel lockfile l t0 = Some t1 ->
            well_keyed_forest t0 = true /\ NoDup (map_keys t0) /\
            from_lockfile lockfile t0 ->
            well_keyed_forest t1 = true /\ NoDup (map_keys t1) /\
            from_lockfile lockfile t1).
  { destruct (Hloop _ _ _ El) as (H1 & H2 & H3).
    - split; [reflexivity|]. split; [constructor|]. intros n v [].
    - auto. }
  clear El Hne Elen t entries.
  induction l as [|[name rg] l IHl]; intros t0 t1; cbn [transitive_loop].
  - now intros [= <-].
  - destruct (lock_lookup lockfile name) as [te|] eqn:Elook; [|apply IHl].
    destruct (buildTransitiveDeps fuel lockfile te) as [sub|] eqn:Esub;
      [|discriminate].
    intros Hrun (Hk & Hnd & Hfl). apply (IHl _ _ Hrun).
    pose proof (IH _ _ Esub) as Hsub.
    split; [|split].
    + apply well_keyed_forest_set; [assumption| |reflexivity].
      rewrite well_keyed_eq. cbn [dn_dependencies].
      destruct sub as [l0|]; [apply Hsub|reflexivity].
    + now apply map_set_NoDup.
    + intros n v Hin. apply forest_pairs_set in Hin as [Hin|Hin]; [auto|].
      rewrite tree_pairs_eq in Hin. cbn [dn_name dn_version dn_dependencies] in Hin.
      destruct Hin as [[= <- <-]|Hin]; [eauto|].
      destruct sub as [l0|]; [|destruct Hin].
      destruct Hsub as (_ & _ & _ & Hf). now apply Hf.
Qed.

Lemma well_keyed_forest_In l k c :
  well_keyed_forest l = true -> In (k, c) l ->
  k = dn_name c /\ In (dn_name c, dn_version c) (forest_pairs l).
Proof.
  induction l as [|[k0 c0] l IH]; [intros _ []|].
  cbn [well_keyed_forest forest_pairs]. intros H [[= -> ->]|Hin].
  - apply andb_true_iff in H as [H _]. apply andb_true_iff in H as [H _].
    apply str_eqb_eq in H. split; [assumption|].
    apply in_or_app. left. rewrite tree_pairs_eq. now left.
  - apply andb_true_iff in H as [_ H]. destruct (IH H Hin) as [H1 H2].
    split; [assumption|]. apply in_or_app. now right.
Qed.

Lemma top_ids_set m k c :
  (forall c0, In (k, c0) m -> dn_version c0 = dn_version c) ->
  forall x, In x (map top_id (map_set m k c)) <->
            In x (map top_id m) \/ x = createKey k (dn_version c).
Proof.
  intros Hv x. induction m as [|[k0 c0] m IH]; cbn [map_set map].
  - unfold top_id at 1. cbn [fst snd In]. intuition congruence.
  - destruct (str_eqb k0 k) eqn:E; cbn [map In].
    + apply str_eqb_eq in E. subst k0. unfold top_id at 1 3. cbn [fst snd].
      rewrite (Hv c0 (or_introl eq_refl)). intuition congruence.
    + rewrite IH; [tauto|]. intros c1 H1. apply Hv. now right.
Qed.

(** The state of the loops over the direct dependencies. *)
Lemma direct_loop_ok lockfile fuel isDev :
  forall l st st',
    direct_loop fuel lockfile isDev l st = Some st' ->
    well_keyed_forest (fst st) = true /\ NoDup (map_keys (fst st)) /\
    from_lockfile lockfile (fst st) /\
    (forall x, In x (map pkg_key (snd st)) <-> In x (map top_id (fst st))) ->
    well_keyed_forest (fst st') = true /\ NoDup (map_keys (fst st')) /\
    from_lockfile lockfile (fst st') /\
    (forall x, In x (map pkg_key (snd st')) <-> In x (map top_id (fst st'))).
Proof.
  induction l as [|[name rg] l IH]; intros st st'; cbn [direct_loop].
  - now intros [= <-].
  - destruct (lock_lookup lockfile name) as [e|] eqn:Elook; [|apply IH].
    destruct (buildTransitiveDeps fuel lockfile e) as [sub|] eqn:Esub;
      [|discriminate].
    intros Hrun (Hk & Hnd & Hfl & Hkeys). apply (IH _ _ Hrun). cbn [fst snd].
    pose proof (buildTransitiveDeps_ok _ _ _ _ Esub) as Hsub.
    split; [|split; [|split]].
    + apply well_keyed_forest_set; [assumption| |reflexivity].
      rewrite well_keyed_eq. cbn [dn_dependencies].
      destruct sub as [l0|]; [apply Hsub|reflexivity].
    + now apply map_set_NoDup.
    + intros n v Hin. apply forest_pairs_set in Hin as [Hin|Hin]; [auto|].
      rewrite tree_pairs_eq in Hin.
      cbn [dn_name dn_version dn_dependencies] in Hin.
      destruct Hin as [[= <- <-]|Hin]; [eauto|].
      destruct sub as [l0|]; [|destruct Hin].
      destruct Hsub as (_ & _ & _ & Hf). now apply Hf.
    + intros x. rewrite map_app, in_app_iff, top_ids_set, Hkeys.
      * cbn [map In dn_version pkg_key pi_name pi_version]. unfold pkg_key.
        cbn [pi_name pi_version]. intuition congruence.
      * intros c0 Hc0. cbn [dn_version].
        destruct (well_keyed_forest_In _ _ _ Hk Hc0) as [Hn Hp].
        destruct (Hfl _ _ Hp) as (e0 & He0 & <-).
        rewrite <- Hn, Elook in He0. now injection He0 as <-.
Qed.

(** X20: the tree the scanner builds is the input the graph builder
    needs. Every mapping of the tree, at every level, files each node
    under its own name, with no name twice at the top level; every node
    carries the version the lockfile gives its name; and the dedup keys
    of the package list are exactly the ids of the nodes of
    [buildGraph]. *)
Theorem buildDependencyTree_feeds_buildGraph (fuel : nat)
    (packageJson : PackageJson) (lockfile : Lockfile)
    (includeDevDeps : bool) (tree : DependencyTree) :
  buildDependencyTree fuel packageJson lockfile includeDevDeps = Some tree ->
  well_keyed_forest (dt_dependencies tree) = true /\
  NoDup (map_keys (dt_dependencies tree)) /\
  from_lockfile lockfile (dt_dependencies tree) /\
  (forall k, In k (map pkg_key (dt_packages tree)) <->
             In k (map_keys (nodes (buildGraph tree)))).
Proof.
  unfold buildDependencyTree.
  destruct (direct_loop fuel lockfile false
              (entries_or_empty (pj_dependencies packageJson)) ([], []))
    as [st1|] eqn:E1; [|discriminate].
  match goal with
  | |- context [direct_loop fuel lockfile true ?d st1] =>
      destruct (direct_loop fuel lockfile true d st1) as [[deps pkgs]|] eqn:E2;
        [|discriminate]
  end.
  intros [= <-]. cbn [dt_dependencies dt_packages].
  assert (H0 : well_keyed_forest (@nil (jsstring * DependencyNode)) = true /\
               NoDup (map_keys (@nil (jsstring * DependencyNode))) /\
               from_lockfile lockfile [] /\
               (forall x, In x (map pkg_key (@nil PackageInfo)) <->
                          In x (map top_id (@nil (jsstring * DependencyNode))))).
  { split; [reflexivity|]. split; [constructor|]. split; [intros n v []|].
    intros x. reflexivity. }
  pose proof (direct_loop_ok _ _ _ _ _ _ E1 H0) as H1.
  pose proof (direct_loop_ok _ _ _ _ _ _ E2 H1) as (Hk & Hnd & Hfl & Hkeys).
  cbn [fst snd] in *.
  split; [assumption|]. split; [assumption|]. split; [assumption|].
  intros k. rewrite buildGraph_keys. cbn [dt_dependencies].
  rewrite distinct_In, forest_ids_split.
  rewrite collectAllPackages_keys, Hkeys. reflexivity.
Qed.





Lemma reaches_next lockfile n :
  reaches lockfile n n ->
  exists m, lock_dep lockfile n m /\ reaches lockfile m m.
Proof.
  assert (H : forall a b, reaches lockfile a b ->
            forall c, reaches lockfile b c -> reaches lockfile a c).
  { induction 1 as [a b Hab|a b k Hab Hbk IH]; intros c Hc.
    - now apply reaches_more with b.
    - apply reaches_more with b; auto. }
  intros Hn. inversion Hn as [a b Hd|a m b Hd Hm]; subst.
  - exists n. auto.
  - exists m. split; [assumption|]. apply (H _ _ Hm).
    now apply reaches_step.
Qed.

Lemma transitive_loop_stuck lockfile fuel m e' :
  lock_lookup lockfile m = Some e' ->
  buildTransitiveDeps fuel lockfile e' = None ->
  forall l r t, In (m, r) l -> transitive_loop fuel lockfile l t = None.
Proof.
  intros Hm Hnone. induction l as [|[m0 r0] l IH]; intros r t Hin;
    [destruct Hin|].
  cbn [transitive_loop]. destruct Hin as [[= -> ->]|Hin].
  - now rewrite Hm, Hnone.
  - destruct (lock_lookup lockfile m0) as [e0|]; [|eapply IH; eassumption].
    destruct (buildTransitiveDeps fuel lockfile e0); [|reflexivity].
    eapply IH; eassumption.
Qed.

Lemma buildTransitiveDeps_cycle lockfile :
  forall fuel n e,
    lock_lookup lockfile n = Some e -> reaches lockfile n n ->
    buildTransitiveDeps fuel lockfile e = None.
Proof.
  induction fuel as [|fuel IH]; intros n e Hn Hc; [reflexivity|].
  rewrite buildTransitiveDeps_eq.
  apply reaches_next in Hc as (m & (e0 & entries & r & e' & H1 & H2 & H3 & H4)
                               & Hm).
  rewrite Hn in H1. injection H1 as <-. rewrite H2.
  rewrite (transitive_loop_stuck lockfile fuel m e' H4 (IH m e' H4 Hm)
             entries r [] H3).
  reflexivity.
Qed.


Lemma direct_loop_stuck lockfile fuel isDev n e :
  lock_lookup lockfile n = Some e ->
  buildTransitiveDeps fuel lockfile e = None ->
  forall l r st, In (n, r) l -> direct_loop fuel lockfile isDev l st = None.
Proof.
  intros Hn Hnone. induction l as [|[m0 r0] l IH]; intros r st Hin;
    [destruct Hin|].
  cbn [direct_loop]. destruct Hin as [[= -> ->]|Hin].
  - now rewrite Hn, Hnone.
  - destruct (lock_lookup lockfile m0) as [e0|]; [|eapply IH; eassumption].
    destruct (buildTransitiveDeps fuel lockfile e0); [|reflexivity].
    eapply IH; eassumption.
Qed.


(** X22: [buildTransitiveDeps] has no visited set. On a lockfile in
    which a direct dependency lies on a cycle of the recorded
    dependencies, the recursion exhausts every call stack, and so does
    [buildDependencyTree]. *)
Theorem buildDependencyTree_cycle (packageJson : PackageJson)
    (lockfile : Lockfile) (includeDevDeps : bool)
    (n r : jsstring) (e : LockEntry) :
  In (n, r) (entries_or_empty (pj_dependencies packageJson)) ->
  lock_lookup lockfile n = Some e ->
  reaches lockfile n n ->
  forall fuel,
    buildTransitiveDeps fuel lockfile e = None /\
    buildDependencyTree fuel packageJson lockfile includeDevDeps = None.
Proof.
  intros Hin Hn Hc fuel.
  pose proof (buildTransitiveDeps_cycle lockfile fuel n e Hn Hc) as Hnone.
  split; [assumption|]. unfold buildDependencyTree.
  now rewrite (direct_loop_stuck lockfile fuel false n e Hn Hnone _ r _ Hin).
Qed.






Lemma buildDependencyTree_feeds_buildGraph_witness :
  exists tree,
    buildDependencyTree 3 demo_packageJson demo_lockfile true = Some tree /\
    well_keyed_forest (dt_dependencies tree) = true /\
    map pkg_key (dt_packages tree) =
      [js "lodash@4.17.21"; js "chalk@5.3.0"; js "jest@29.7.0";
       js "ansi-styles@6.2.1"].
Proof.
  destruct (buildDependencyTree 3 demo_packageJson demo_lockfile true)
    as [tree|] eqn:E; [|vm_compute in E; discriminate E].
  exists tree. split; [reflexivity|]. split.
  - exact (proj1 (buildDependencyTree_feeds_buildGraph _ _ _ _ _ E)).
  - vm_compute in E. injection E as <-. reflexivity.
Defined.


Lemma cyclic_lockfile_reaches : reaches cyclic_lockfile (js "a") (js "a").
Proof.
  apply reaches_more with (js "b").
  - eexists _, _, _, _. repeat split; try reflexivity. now left.
  - apply reaches_step. eexists _, _, _, _.
    repeat split; try reflexivity. now left.
Qed.

Lemma buildDependencyTree_cycle_witness :
  reaches cyclic_lockfile (js "a") (js "a") /\
  forall fuel,
    buildDependencyTree fuel cyclic_packageJson cyclic_lockfile false = None.
Proof.
  split; [exact cyclic_lockfile_reaches|]. intros fuel.
  apply (buildDependencyTree_cycle cyclic_packageJson cyclic_lockfile false
           (js "a") (js "^1.0.0")
           (mkLockEntry (js "1.0.0") None (Some [(js "b", js "^1.0.0")]))).
  - now left.
  - reflexivity.
  - exact cyclic_lockfile_reaches.
Defined.

(* ===================================================================== *)
(** * Properties: the scan and the [sbom] command                         *)
(* ===================================================================== *)

Lemma direct_loop_not_dev lockfile fuel :
  forall l st st',
    direct_loop fuel lockfile false l st = Some st' ->
    Forall (fun p => pi_isDevDependency p = false) (snd st) ->
    Forall (fun p => pi_isDevDependency p = false) (snd st').
Proof.
  induction l as [|[name rg] l IH]; intros st st'; cbn [direct_loop].
  - now intros [= <-].
  - destruct (lock_lookup lockfile name) as [e|]; [|apply IH].
    destruct (buildTransitiveDeps fuel lockfile e) as [sub|]; [|discriminate].
    intros Hrun Hst. apply (IH _ _ Hrun). cbn [snd].
    apply Forall_app. split; [assumption|]. now repeat constructor.
Qed.

Lemma buildDependencyTree_not_dev fuel packageJson lockfile tree :
  buildDependencyTree fuel packageJson lockfile false = Some tree ->
  Forall (fun p => pi_isDevDependency p = false) (dt_packages tree).
Proof.
  unfold buildDependencyTree.
  destruct (direct_loop fuel lockfile false
              (entries_or_empty (pj_dependencies packageJson)) ([], []))
    as [[d p]|] eqn:E1; [|discriminate].
  cbn [direct_loop]. intros [= <-]. cbn [dt_packages].
  destruct (collectAllPackages_collects d p)
    as (seen' & added & E & Hf & _).
  cbn [fst snd] in E. rewrite E. apply Forall_app. split.
  - apply (direct_loop_not_dev _ _ _ _ _ E1). constructor.
  - eapply Forall_impl; [|exact Hf]. now intros a [_ ?].
Qed.

Lemma filter_nil_Forall {A : Type} (f : A -> bool) l :
  Forall (fun a => f a = false) l -> filter f l = [].
Proof.
  induction 1 as [|a l Ha _ IH]; [reflexivity|]. simpl. now rewrite Ha.
Qed.

Lemma severity_indexOf s :
  indexOf SEVERITIES (severity_str s) = severity_index s.
Proof. destruct s; reflexivity. Qed.

Section ScanProperties.
Context {P : Platform}.

Lemma scanNpmProject_no_findings fuel packageJson lockfile options scannedAt
    scanResult :
  scanNpmProject fuel packageJson lockfile options scannedAt
    = Some scanResult ->
  sr_vulnerabilities scanResult = [] /\
  sr_summary scanResult = mkScanSummary 0 0 0 0 /\
  sr_totalPackages scanResult
    = length (dt_packages (sr_dependencies scanResult)) /\
  buildDependencyTree fuel packageJson lockfile
    (match so_includeDevDependencies options with
     | Some b => b
     | None => false
     end) = Some (sr_dependencies scanResult).
Proof.
  unfold scanNpmProject.
  destruct (buildDependencyTree fuel packageJson lockfile _) as [t|];
    [|discriminate].
  intros [= <-]. cbn [sr_vulnerabilities sr_summary sr_totalPackages
                      sr_dependencies].
  unfold queryNpmAudit, enhanceVulnerabilities, analyzeReachability.
  destruct (truthy_bool (so_enhanceWithOSV options));
    destruct (truthy_bool (so_analyzeReachability options)); auto.
Qed.

Lemma handleFailOnOption_returns_iff (toLowerCase : jsstring -> jsstring)
    (result : SbomGenerationResult) (f : jsstring) (t : Severity) :
  f <> [] -> toLowerCase f = severity_str t ->
  (handleFailOnOption toLowerCase result (Some f) = Returned <->
   forall v, In v (res_vulnerabilities result) ->
     (severity_index (v_severity v) < severity_index t)%Z).
Proof.
  intros Hf Ht. unfold handleFailOnOption.
  destruct f as [|c f]; [congruence|]. cbn [truthy_str].
  rewrite Ht, severity_indexOf.
  replace (Z.eqb (severity_index t) (-1)) with false by now destruct t.
  destruct (existsb _ (res_vulnerabilities result)) eqn:E.
  - split; [discriminate|]. intros H. exfalso.
    apply existsb_exists in E as (v & Hv & Hge).
    rewrite severity_indexOf in Hge. specialize (H v Hv).
    apply Z.geb_le in Hge. lia.
  - split; [|reflexivity]. intros _ v Hv.
    assert (Hn : Z.geb (indexOf SEVERITIES (severity_str (v_severity v)))
                   (severity_index t) = false).
    { destruct (Z.geb _ _) eqn:G; [|reflexivity].
      rewrite <- E. symmetry. apply existsb_exists. eauto. }
    rewrite severity_indexOf in Hn.
    destruct (Z.geb_spec (severity_index (v_severity v)) (severity_index t));
      [discriminate|lia].
Qed.

(** X23: through its own scanner the generator never embeds a
    vulnerability. [queryNpmAudit] returns no finding, so the result of
    [generateSbom] on a project has an empty vulnerability list and the
    flag [embeddedVulnerabilities] false, a CycloneDX document has no
    [vulnerabilities] key and an SPDX document no annotation, whatever
    [attachVulnerabilities] says; [--fail-on] with a severity of the list
    never ends the process; and without [includeDevDependencies] the
    statistics count no dev dependency. *)
Theorem generateSbom_project_embeds_nothing (fuel : nat)
    (packageJson : PackageJson) (lockfile : Lockfile)
    (projectPath : jsstring) (options : SbomGenerateOptions)
    (scannedAt generatedAt : Date) (uuid : jsstring)
    (res : SbomGenerationResult) :
  generateSbom_project fuel packageJson lockfile projectPath options
    scannedAt generatedAt uuid = Some (Ok res) ->
  res_vulnerabilities res = [] /\
  embeddedVulnerabilities res = false /\
  match res_document res with
  | CycloneDxDocument bom => vulnerabilities bom = None
  | SpdxDocumentOf doc => annotations doc = []
  end /\
  (forall toLowerCase failOn s,
     failOn <> [] -> toLowerCase failOn = severity_str s ->
     handleFailOnOption toLowerCase res (Some failOn) = Returned) /\
  (o_includeDevDependencies options <> Some true ->
   devDependencies (res_stats res) = 0).
Proof.
  unfold generateSbom_project.
  destruct (scanNpmProject fuel packageJson lockfile _ scannedAt)
    as [scan|] eqn:Escan; [|discriminate].
  intros H. injection H as H.
  apply scanNpmProject_no_findings in Escan as (Hv & _ & _ & Htree).
  cbn [so_includeDevDependencies] in Htree.
  unfold generateSbom in H. rewrite Hv in H. cbn [length Nat.ltb Nat.leb] in H.
  rewrite andb_false_r in H.
  match type of H with
  | (document <- ?d ;; _) = _ => destruct d as [document|] eqn:Ed
  end; [|discriminate].
  cbn [bind] in H. injection H as <-.
  cbn [res_vulnerabilities embeddedVulnerabilities res_document res_stats].
  split; [reflexivity|]. split; [reflexivity|]. split; [|split].
  - destruct (match o_format options with Some f => f | None => cyclonedx end).
    + destruct (buildCycloneDxBom uuid scan generatedAt options) as [bom|] eqn:Eb;
        [|discriminate].
      cbn [bind] in Ed. injection Ed as <-. unfold buildCycloneDxBom in Eb.
      destruct (buildRootComponent (sr_dependencies scan) options);
        [|discriminate]. cbn [bind] in Eb.
      destruct (buildPackageMetadataMap (dt_packages (sr_dependencies scan)));
        [|discriminate]. cbn [bind] in Eb.
      destruct (buildDependencyGraph (sr_dependencies scan));
        [|discriminate]. cbn [bind] in Eb.
      injection Eb as <-. cbn [vulnerabilities]. rewrite Hv.
      cbn [length Nat.ltb Nat.leb]. now rewrite andb_false_r.
    + destruct (buildSpdxDocument uuid scan generatedAt options) as [doc|] eqn:Eb;
        [|discriminate].
      cbn [bind] in Ed. injection Ed as <-. unfold buildSpdxDocument in Eb.
      destruct (buildPackageMetadataMap (dt_packages (sr_dependencies scan)));
        [|discriminate]. cbn [bind] in Eb.
      destruct (buildDependencyGraph (sr_dependencies scan));
        [|discriminate]. cbn [bind] in Eb.
      destruct (buildSpdxPackages (sr_dependencies scan) _ options);
        [|discriminate]. cbn [bind] in Eb.
      destruct (buildSpdxRelationships (sr_dependencies scan) _ _ options);
        [|discriminate]. cbn [bind] in Eb.
      injection Eb as <-. cbn [annotations]. rewrite Hv.
      now destruct (truthy_bool (o_attachVulnerabilities options)).
  - intros toLowerCase failOn s Hf Hs.
    apply (handleFailOnOption_returns_iff toLowerCase _ failOn s Hf Hs).
    cbn [res_vulnerabilities]. intros v [].
  - intros Hdev. cbn [buildStats devDependencies].
    assert (Hinc : match o_includeDevDependencies options with
                   | Some b => b
                   | None => false
                   end = false).
    { destruct (o_includeDevDependencies options) as [[|]|]; congruence. }
    rewrite Hinc in Htree.
    apply buildDependencyTree_not_dev in Htree.
    now rewrite filter_nil_Forall.
Qed.

(** X24: [--fail-on] is a threshold. For a severity name of the list
    (after lowercasing), [handleFailOnOption] returns exactly when every
    vulnerability of the result lies strictly below it, and otherwise
    ends the process with code 1; so a result that passes a threshold
    passes every higher one, and a result without vulnerabilities passes
    them all. *)
Theorem handleFailOnOption_threshold (toLowerCase : jsstring -> jsstring)
    (result : SbomGenerationResult) (failOn : jsstring) (s : Severity) :
  failOn <> [] ->
  toLowerCase failOn = severity_str s ->
  (handleFailOnOption toLowerCase result (Some failOn) = Returned <->
   forall v, In v (res_vulnerabilities result) ->
     (severity_index (v_severity v) < severity_index s)%Z) /\
  (handleFailOnOption toLowerCase result (Some failOn) <> Returned ->
   exists message,
     handleFailOnOption toLowerCase result (Some failOn) = Exited 1 message) /\
  (forall failOn' s',
     failOn' <> [] -> toLowerCase failOn' = severity_str s' ->
     (severity_index s <= severity_index s')%Z ->
     handleFailOnOption toLowerCase result (Some failOn) = Returned ->
     handleFailOnOption toLowerCase result (Some failOn') = Returned) /\
  (res_vulnerabilities result = [] ->
   handleFailOnOption toLowerCase result (Some failOn) = Returned).
Proof.
  intros Hf Hs.
  split; [now apply handleFailOnOption_returns_iff|]. split; [|split].
  - unfold handleFailOnOption. destruct (truthy_str (Some failOn)); [|congruence].
    destruct (Z.eqb _ _); [eauto|]. destruct (existsb _ _); [eauto|congruence].
  - intros f' s' Hf' Hs' Hle Hret.
    apply (handleFailOnOption_returns_iff toLowerCase result f' s' Hf' Hs').
    intros v Hv.
    pose proof (proj1 (handleFailOnOption_returns_iff toLowerCase result
                         failOn s Hf Hs) Hret v Hv). lia.
  - intros Hnil.
    apply (handleFailOnOption_returns_iff toLowerCase result failOn s Hf Hs).
    rewrite Hnil. intros v [].
Qed.

End ScanProperties.

Lemma generateSbom_project_embeds_nothing_witness :
  exists res,
    @generateSbom_project example_platform 3 demo_packageJson demo_lockfile
      (js "/tmp/project") (cyclonedx_options true)
      (js "2024-02-01T00:00:00.000Z") (js "2024-02-01T00:00:01.000Z")
      (js "uuid") = Some (Ok res) /\
    embeddedVulnerabilities res = false /\
    devDependencies (res_stats res) = 0.
Proof.
  destruct (@generateSbom_project example_platform 3 demo_packageJson
              demo_lockfile (js "/tmp/project") (cyclonedx_options true)
              (js "2024-02-01T00:00:00.000Z") (js "2024-02-01T00:00:01.000Z")
              (js "uuid")) as [[res|e]|] eqn:E;
    [|vm_compute in E; discriminate E|vm_compute in E; discriminate E].
  exists res. split; [reflexivity|].
  destruct (@generateSbom_project_embeds_nothing example_platform _ _ _ _ _ _
              _ _ _ E) as (_ & Hflag & _ & _ & Hdev).
  split; [exact Hflag|]. apply Hdev. discriminate.
Defined.
Lemma handleFailOnOption_threshold_witness :
  exists res,
    @generateSbom example_platform (js "/tmp/project") (cyclonedx_options true)
      (demo_scan [demo_finding "lodash" "4.17.21"])
      (js "2024-02-01T00:00:00.000Z") (js "uuid") = Ok res /\
    ascii_toLowerCase (js "Critical") = severity_str Critical /\
    @handleFailOnOption example_platform ascii_toLowerCase res
      (Some (js "Critical")) = Returned.
Proof.
  destruct (@generateSbom example_platform (js "/tmp/project")
              (cyclonedx_options true)
              (demo_scan [demo_finding "lodash" "4.17.21"])
              (js "2024-02-01T00:00:00.000Z") (js "uuid")) as [res|e] eqn:E;
    [|vm_compute in E; discriminate E].
  exists res. split; [reflexivity|]. split; [reflexivity|].
  apply (proj1 (@handleFailOnOption_threshold example_platform
                  ascii_toLowerCase res (js "Critical") Critical
                  ltac:(discriminate) eq_refl)).
  vm_compute in E. injection E as <-. intros v [<-|[]]. vm_compute.
  reflexivity.
Defined.
